(** * MobulaOP: the MXNet glue of the packed-function bridge

    A shallow embedding of [mobula/cpp/include/glue/mxnet_glue.h]:
    the dependency deriver [DeduplicateNDArrayHandle], the invocation
    functor [TVMFunctor] with its [Init] and [Run] methods, the async
    wrapper [WrapAsyncCall] and the registry behind [GetMXNetFunc];
    and of the compute side, [mobula_op/inc/context/cuda_ctx.h] and
    [mobula_op/src/im2col.cpp]: the launch macros, [parfor], and the
    kernels of im2col and col2im. *)

From stdpp Require Import base tactics option list sorting strings pretty gmap.
From Stdlib Require Import ZArith Lia.

Local Open Scope Z_scope.

(** ** Handles

    [NDArrayHandle] is [void*]; its value is the address, ordered and
    compared as the integers are. *)
Definition NDArrayHandle : Type := Z.
Definition DLManagedTensorHandle : Type := Z.

(** ** The dependency deriver *)
Module Dedup.

(** [std::sort(first, last)] on handles: the ascending rearrangement. *)
Definition sort (l : list NDArrayHandle) : list NDArrayHandle :=
  merge_sort Z.le l.

(** [std::unique(first, last)] followed by the [resize] to its result:
    of every run of equal neighbours only the first element is kept.
    [unique_from prev l] is the loop of [std::unique] when the last
    element written is [prev]. *)
Fixpoint unique_from (prev : NDArrayHandle) (l : list NDArrayHandle)
  : list NDArrayHandle :=
  match l with
  | [] => []
  | x :: l' =>
      if bool_decide (prev = x) then unique_from prev l'
      else x :: unique_from x l'
  end.

Definition unique (l : list NDArrayHandle) : list NDArrayHandle :=
  match l with
  | [] => []
  | x :: l' => x :: unique_from x l'
  end.

(** [while (wit != write_nds->end() && *wit < *rit) ++wit;]
    The iterator [wit] is the range of [write_nds] it still has before it. *)
Fixpoint advance_wit (r : NDArrayHandle) (wit : list NDArrayHandle)
  : list NDArrayHandle :=
  match wit with
  | [] => []
  | w :: wit' => if bool_decide (w < r) then advance_wit r wit' else wit
  end.

(** [wit == write_nds->end() || *wit != *rit] *)
Definition not_written (r : NDArrayHandle) (wit : list NDArrayHandle) : bool :=
  match wit with
  | [] => true
  | w :: _ => bool_decide (w ≠ r)
  end.

(** The [for] loop over [rit], on the vector [v] that is overwritten in
    place through [rtop]. [rit] and [rtop] are offsets from
    [read_nds->begin()]; the loop leaves when [rit] reaches the end, which
    is when [v !! rit] is [None]. [n] bounds the number of iterations. *)
Fixpoint strip_loop (n : nat) (wit v : list NDArrayHandle) (rit rtop : nat)
  : list NDArrayHandle * nat :=
  match n with
  | O => (v, rtop)
  | S n' =>
      match v !! rit with
      | None => (v, rtop)
      | Some r =>
          let wit' := advance_wit r wit in
          if not_written r wit'
          then strip_loop n' wit' (<[rtop := r]> v) (S rit) (S rtop)
          else strip_loop n' wit' v (S rit) rtop
      end
  end.

(** The result is the pair (read_nds, write_nds) as the two vectors are
    left by the call. *)
Definition DeduplicateNDArrayHandle (read_nds write_nds : list NDArrayHandle)
  : list NDArrayHandle * list NDArrayHandle :=
  let write_nds := unique (sort write_nds) in
  let read_nds := unique (sort read_nds) in
  let '(v, rtop) := strip_loop (length read_nds) write_nds read_nds 0 0 in
  (take rtop v, write_nds).

(** The same merge on lists, without the in-place vector: used to reason
    about [strip_loop]. *)
Fixpoint strip (wit rs : list NDArrayHandle) : list NDArrayHandle :=
  match rs with
  | [] => []
  | r :: rs' =>
      let wit' := advance_wit r wit in
      if not_written r wit' then r :: strip wit' rs' else strip wit' rs'
  end.

End Dedup.

(** ** The packed-call ABI and the host interface *)

(** Constants of [tvm_packed_func.h] and of DLPack that the glue refers
    to; the headers are not among the sources, so the values are left
    open. *)
Record Codes := {
  kTVMNDArrayTypeCode : Z;  (* argument tag: framework tensor *)
  kArrayHandle : Z;         (* argument tag: DLPack tensor *)
  kTVMType : Z;             (* sentinel above the POD tags *)
  kDLGPU : Z;               (* DLPack device type of a GPU *)
}.

(** [struct Context]; [enum DeviceType] is kept as its integer value. *)
Record Context := { dev_type : Z; dev_id : Z }.
Definition kCPU : Z := Z.shiftl 1 0.
Definition kGPU : Z := Z.shiftl 1 1.
Definition kCPUPinned : Z := 3.

Global Instance Context_eq_dec : EqDecision Context.
Proof. solve_decision. Defined.

(** [struct RunContext]; [stream] is the address the engine hands over. *)
Record RunContext := { ctx : Context; stream : Z }.

(** One slot of [TVMArgs]: [values[i]] (the 8-byte payload, a handle
    when read through [v_handle]) and [type_codes[i]]. A call with
    [args.size() = n] is the list of its [n] slots. *)
Record TVMArg := { value : Z; type_code : Z }.
Definition TVMArgs : Type := list TVMArg.

(** Outcomes of a call that does not return to its caller. *)
Inductive Failure :=
  | Exit (status : Z)            (* exit(status) *)
  | CheckFailed (msg : string)   (* a failed CHECK_LT *)
  | Thrown                       (* the packed function did not return *)
  | Undefined.                   (* access outside a vector *)

Inductive Outcome (A : Type) :=
  | Done (a : A)
  | Stop (f : Failure).
Arguments Done {A} a.
Arguments Stop {A} f.

Section bridge.
Context {H : Type}.

(** What the callee of a packed function can touch: the host framework's
    state and the two [thread_local] variables. *)
Record Machine := { host : H; DEV_ID : Z; STRM : Z }.

(** [TVMFunc]: the body of a packed function; [None] when it does not
    return. *)
Definition TVMFunc : Type := TVMArgs → Machine → option Machine.

(** The stream setter as [PackedFunc::operator()] is applied to it in
    [Run]: to a device type, a device id and a stream pointer. *)
Definition StreamSetter : Type := Z → Z → Z → Machine → option Machine.

(** [set_stream]: [DEV_ID = args.values[1]; STRM = args.values[2]]. *)
Definition set_stream : StreamSetter :=
  λ _ id strm m, Some {| host := host m; DEV_ID := id; STRM := strm |}.

(** The five pointers installed by [RegisterMXAPI], as functions on the
    host state (their [int] status is never read by the glue), the reads
    the glue makes in host memory, and what the engine has done with the
    task it was handed. *)
Record Host := {
  MXShallowCopyNDArray : NDArrayHandle → H → NDArrayHandle * H;
  MXNDArrayFree : NDArrayHandle → H → H;
  MXNDArrayGetContext : NDArrayHandle → H → (Z * Z) * H;
  MXNDArrayToDLPack : NDArrayHandle → H → DLManagedTensorHandle * H;
  MXEnginePushSyncND :
    Context → list NDArrayHandle → list NDArrayHandle → H → H;
  (* &dlm->dl_tensor *)
  dl_tensor : DLManagedTensorHandle → Z;
  (* dlm->deleter(dlm) *)
  deleter : DLManagedTensorHandle → H → H;
  (* reinterpret_cast<void**>(p)[0] *)
  load : Z → H → Z;
  (* what a [Context] that was never assigned holds *)
  indeterminate : H → Context;
  (* whether the engine has called the deleter of the task pushed last;
     it does so once the task has run, on a thread of its own or inside
     the push *)
  task_deleted : H → bool;
}.

(** ** The invocation functor *)
Record TVMFunctor := {
  func_ : TVMFunc;
  fset_stream_ : StreamSetter;
  values_ : list Z;
  type_codes_ : list Z;
  array_handle_ : list NDArrayHandle;
  array_loc_ : list nat;
  ctx_ : Context;
}.

Record SyncFuncParams := { ps_ctx : Context; ps_func : TVMFunctor }.

(** The calls that leave the glue, in the order they are made. *)
Inductive Event :=
  | EShallowCopy (src nd : NDArrayHandle)
  | EGetContext (nd : NDArrayHandle) (dev_type dev_id : Z)
  | ECout (line : string)
  | EToDLPack (nd : NDArrayHandle) (dlm : DLManagedTensorHandle)
  | ESetStream (dev_type dev_id strm : Z)
  | ECallPacked (args : TVMArgs)
  | EDeleter (dlm : DLManagedTensorHandle)
  | EFree (nd : NDArrayHandle)
  | EPushSync (ps : SyncFuncParams) (const_nds mutable_nds : list NDArrayHandle).

Record World := { mach : Machine; trace : list Event }.

(** Computations of the glue: they read and change the world and either
    return or stop the program. *)
Definition M (A : Type) : Type := World → Outcome A * World.

Global Instance M_ret : MRet M := λ A a w, (Done a, w).
Global Instance M_bind : MBind M := λ A B k m w,
  match m w with
  | (Done a, w') => k a w'
  | (Stop f, w') => (Stop f, w')
  end.

Definition stop {A} (f : Failure) : M A := λ w, (Stop f, w).

(** Modelled from the spec: the macro [CHECK_LT] of the logging header,
    which is not among the sources. The spec calls its failure a fatal
    assertion: when [x < y] fails the program stops with the message
    streamed into the check. *)
Definition CHECK_LT (x y : Z) (msg : string) : M unit :=
  if bool_decide (x < y) then mret () else stop (CheckFailed msg).

Definition emit (e : Event) : M unit := λ w,
  (Done (), {| mach := mach w; trace := trace w ++ [e] |}).

(** A call into the host framework. *)
Definition call_host {A} (f : H → A * H) : M A := λ w,
  let '(a, h) := f (host (mach w)) in
  (Done a, {| mach := {| host := h; DEV_ID := DEV_ID (mach w);
                         STRM := STRM (mach w) |};
              trace := trace w |}).

(** A read in host memory. *)
Definition read_host {A} (f : H → A) : M A := λ w, (Done (f (host (mach w))), w).

(** A call of a packed function body. *)
Definition call_body (f : Machine → option Machine) : M unit := λ w,
  match f (mach w) with
  | Some m => (Done (), {| mach := m; trace := trace w |})
  | None => (Stop Thrown, w)
  end.

Context (api : Host) (tc : Codes).

(** [TVMFunctor(func, fset_stream)]: the vectors start empty and [ctx_]
    is not initialised. *)
Definition TVMFunctor_new (func : TVMFunc) (fset_stream : StreamSetter)
    (ctx0 : Context) : TVMFunctor :=
  {| func_ := func; fset_stream_ := fset_stream; values_ := [];
     type_codes_ := []; array_handle_ := []; array_loc_ := [];
     ctx_ := ctx0 |}.

(** The line written to [std::cout] before [exit(-1)]. *)
Definition inconsistent_context (source target : Context) : string :=
  "Inconsistent context: source(" +:+ pretty (dev_type source) +:+ ":"
  +:+ pretty (dev_id source) +:+ ") vs target: (" +:+ pretty (dev_type target)
  +:+ ":" +:+ pretty (dev_id target) +:+ ")".

Definition only_pod : string := "Only allow POD type in mxnet async call".

(** The variables of [Init] that change in its loop: the functor, the
    cursor [const_loc_ptr] and the two output vectors. *)
Record InitState := {
  self : TVMFunctor;
  const_loc_ptr : nat;
  const_nds : list NDArrayHandle;
  mutate_nds : list NDArrayHandle;
}.

(** The body of the loop of [Init] at index [i], for the slot [a]. *)
Definition Init_slot (const_loc : list Z) (a : TVMArg) (i : nat)
    (st : InitState) : M InitState :=
  let f := self st in
  if bool_decide (type_code a = kTVMNDArrayTypeCode tc) then
    nd ← call_host (MXShallowCopyNDArray api (value a));
    emit (EShallowCopy (value a) nd);;
    let type_codes1 := <[i := kArrayHandle tc]> (type_codes_ f) in
    let array_handle1 := array_handle_ f ++ [nd] in
    '(dev_type1, dev_id1) ← call_host (MXNDArrayGetContext api nd);
    emit (EGetContext nd dev_type1 dev_id1);;
    (if bool_decide (dev_id (ctx_ f) ≠ -1) then
       if bool_decide (dev_type1 ≠ dev_type (ctx_ f) ∨ dev_id1 ≠ dev_id (ctx_ f))
       then
         emit (ECout (inconsistent_context (ctx_ f)
                        {| dev_type := dev_type1; dev_id := dev_id1 |}));;
         stop (Exit (-1))
       else mret ()
     else mret ());;
    let f1 :=
      {| func_ := func_ f; fset_stream_ := fset_stream_ f;
         values_ := values_ f; type_codes_ := type_codes1;
         array_handle_ := array_handle1;
         array_loc_ := array_loc_ f ++ [i];
         ctx_ := {| dev_type := dev_type1; dev_id := dev_id1 |} |} in
    match const_loc !! const_loc_ptr st with
    | Some c =>
        if bool_decide (Z.of_nat i = c) then
          mret {| self := f1; const_loc_ptr := S (const_loc_ptr st);
                  const_nds := const_nds st ++ [nd];
                  mutate_nds := mutate_nds st |}
        else
          mret {| self := f1; const_loc_ptr := const_loc_ptr st;
                  const_nds := const_nds st;
                  mutate_nds := mutate_nds st ++ [nd] |}
    | None =>
        mret {| self := f1; const_loc_ptr := const_loc_ptr st;
                const_nds := const_nds st;
                mutate_nds := mutate_nds st ++ [nd] |}
    end
  else
    CHECK_LT (type_code a) (kTVMType tc) only_pod;;
    mret st.

(** [for (int i = 0; i < args.size(); ++i)], from index [i] on, over the
    slots [rest] still to visit. *)
Fixpoint Init_loop (const_loc : list Z) (rest : TVMArgs) (i : nat)
    (st : InitState) : M InitState :=
  match rest with
  | [] => mret st
  | a :: rest' =>
      st' ← Init_slot const_loc a i st;
      Init_loop const_loc rest' (S i) st'
  end.

(** [TVMFunctor::Init]. The two output vectors are passed in and come
    back in the state returned. *)
Definition Init (f : TVMFunctor) (args : TVMArgs) (const_loc : list Z)
    (const_nds0 mutate_nds0 : list NDArrayHandle) : M InitState :=
  let f0 :=
    {| func_ := func_ f; fset_stream_ := fset_stream_ f;
       values_ := value <$> args; type_codes_ := type_code <$> args;
       array_handle_ := array_handle_ f; array_loc_ := array_loc_ f;
       ctx_ := {| dev_type := dev_type (ctx_ f); dev_id := -1 |} |} in
  Init_loop const_loc args 0
    {| self := f0; const_loc_ptr := 0;
       const_nds := const_nds0; mutate_nds := mutate_nds0 |}.

(** [TVMFunctor::Run], first loop: one managed tensor per index [i] of
    [array_loc_], made from [array_handle_[i]], stored in [dlms[i]], its
    [dl_tensor] written to [values_[array_loc_[i]]]. [locs] is the part
    of [array_loc_] from index [i] on. *)
Fixpoint Run_setup (f : TVMFunctor) (locs : list nat) (i : nat)
    (values : list Z) (dlms : list DLManagedTensorHandle)
  : M (list Z * list DLManagedTensorHandle) :=
  match locs with
  | [] => mret (values, dlms)
  | loc :: locs' =>
      match array_handle_ f !! i with
      | None => stop Undefined
      | Some nd =>
          dlm ← call_host (MXNDArrayToDLPack api nd);
          emit (EToDLPack nd dlm);;
          if bool_decide (loc < length values)%nat then
            Run_setup f locs' (S i) (<[loc := dl_tensor api dlm]> values)
              (<[i := dlm]> dlms)
          else stop Undefined
      end
  end.

(** [for (DLManagedTensorHandle dlm : dlms) dlm->deleter(dlm);] *)
Fixpoint Run_delete (dlms : list DLManagedTensorHandle) : M unit :=
  match dlms with
  | [] => mret ()
  | dlm :: dlms' =>
      emit (EDeleter dlm);;
      call_host (λ h, ((), deleter api dlm h));;
      Run_delete dlms'
  end.

(** A call of [fset_stream_]. *)
Definition call_set_stream (f : TVMFunctor) (dev_type dev_id strm : Z)
  : M unit :=
  emit (ESetStream dev_type dev_id strm);;
  call_body (fset_stream_ f dev_type dev_id strm).

(** [func_.CallPacked(args, &rv)] *)
Definition CallPacked (f : TVMFunctor) (args : TVMArgs) : M unit :=
  emit (ECallPacked args);;
  call_body (func_ f args).

(** [TVMFunctor::Run]; the functor comes back with its [values_]
    rewritten. *)
Definition Run (f : TVMFunctor) (rctx : RunContext) : M TVMFunctor :=
  '(values, dlms) ← Run_setup f (array_loc_ f) 0 (values_ f)
                      (replicate (length (array_loc_ f)) 0);
  if bool_decide (length values ≤ length (type_codes_ f))%nat then
    let args := zip_with Build_TVMArg values (type_codes_ f) in
    (if bool_decide (dev_type (ctx_ f) = kGPU) then
       strm ← read_host (load api (stream rctx));
       let dev_type := kDLGPU tc in
       call_set_stream f dev_type (dev_id (ctx rctx)) strm;;
       CallPacked f args;;
       call_set_stream f dev_type (dev_id (ctx rctx)) 0
     else
       CallPacked f args);;
    Run_delete dlms;;
    mret {| func_ := func_ f; fset_stream_ := fset_stream_ f;
            values_ := values; type_codes_ := type_codes_ f;
            array_handle_ := array_handle_ f; array_loc_ := array_loc_ f;
            ctx_ := ctx_ f |}
  else stop Undefined.

(** [~TVMFunctor] *)
Fixpoint TVMFunctor_free (handles : list NDArrayHandle) : M unit :=
  match handles with
  | [] => mret ()
  | handle :: handles' =>
      emit (EFree handle);;
      call_host (λ h, ((), MXNDArrayFree api handle h));;
      TVMFunctor_free handles'
  end.

(** ** The async wrapper *)

Definition sync_func_inst (rctx : RunContext) (ps : SyncFuncParams)
  : M TVMFunctor :=
  Run (ps_func ps) rctx.

(** [std::shared_ptr<TVMFunctor>::~shared_ptr] for one of the [owners]
    pointers that share the functor [f]: the last owner runs
    [~TVMFunctor]. *)
Definition shared_ptr_release (owners : nat) (f : TVMFunctor) : M unit :=
  if bool_decide (owners = 1%nat) then TVMFunctor_free (array_handle_ f)
  else mret ().

(** The functor has two owners, the local [func] of the lambda [wrapped]
    and [ps->func]: [owners] is 2 while both are alive and 1 once one of
    them is gone. [delete ps] releases [ps->func]. *)
Definition deleter_inst (owners : nat) (ps : SyncFuncParams) : M unit :=
  shared_ptr_release owners (ps_func ps).

Definition PackedFunc : Type := TVMArgs → M unit.

(** The lambda [wrapped] of [WrapAsyncCall], with its captures
    [f], [fset_stream] and [const_loc]. The trace holds the calls the
    lambda makes itself; what the engine does with the task is part of
    the host. When the lambda returns its local [func] is released: it
    is the last owner when the engine has already called [deleter_inst]
    on [ps], and then [~TVMFunctor] runs here. *)
Definition wrapped (f : TVMFunc) (fset_stream : StreamSetter)
    (const_loc : list Z) : PackedFunc := λ args,
  ctx0 ← read_host (indeterminate api);
  let func := TVMFunctor_new f fset_stream ctx0 in
  st ← Init func args const_loc [] [];
  let nds := Dedup.DeduplicateNDArrayHandle (const_nds st) (mutate_nds st) in
  let ps := {| ps_ctx := ctx_ (self st); ps_func := self st |} in
  emit (EPushSync ps nds.1 nds.2);;
  call_host (λ h, ((), MXEnginePushSyncND api (ps_ctx ps) nds.1 nds.2 h));;
  deleted ← read_host (task_deleted api);
  shared_ptr_release (if deleted : bool then 1%nat else 2%nat) (self st).

(** [WrapAsyncCall(pfunc, set_stream_func, num_const, c_const_loc)];
    [c_const_loc] is the list of its [num_const] entries. *)
Definition WrapAsyncCall (pfunc : TVMFunc) (set_stream_func : StreamSetter)
    (c_const_loc : list Z) : PackedFunc :=
  let const_loc := merge_sort Z.le c_const_loc in
  wrapped pfunc set_stream_func const_loc.

(** ** The registry *)

(** [FunctionContainer]: [func_] is the address of the [PackedFunc] it
    owns, or null. Addresses are positions in the store [objects] of the
    [PackedFunc]s allocated with [new]. *)
Record FunctionContainer := { fc_func_ : option nat }.

Definition FunctionContainer_get (c : FunctionContainer) : option nat :=
  fc_func_ c.

Record Registry := {
  FUNCTIONS : gmap string FunctionContainer;
  objects : list PackedFunc;
}.

(** [container.reset(func)] on the entry [name] of [FUNCTIONS]. *)
Definition FunctionContainer_reset (name : string) (func : PackedFunc)
    (reg : Registry) : Registry :=
  {| FUNCTIONS := <[name := {| fc_func_ := Some (length (objects reg)) |}]>
                    (FUNCTIONS reg);
     objects := objects reg ++ [func] |}.

(** [FUNCTIONS[name]]: the entry, created empty when it is missing. *)
Definition FUNCTIONS_at (name : string) (reg : Registry)
  : FunctionContainer * Registry :=
  match FUNCTIONS reg !! name with
  | Some c => (c, reg)
  | None =>
      let c := {| fc_func_ := None |} in
      (c, {| FUNCTIONS := <[name := c]> (FUNCTIONS reg);
             objects := objects reg |})
  end.

Definition GetMXNetFunc (cname : string) (pfunc : TVMFunc)
    (const_loc : list Z) (reg : Registry) : option nat * Registry :=
  let name := cname in
  match FUNCTIONS reg !! name with
  | Some c => (FunctionContainer_get c, reg)
  | None =>
      let reg1 := (FUNCTIONS_at name reg).2 in
      let reg2 :=
        FunctionContainer_reset name
          (WrapAsyncCall pfunc set_stream const_loc) reg1 in
      let '(c, reg3) := FUNCTIONS_at name reg2 in
      (FunctionContainer_get c, reg3)
  end.

(** The [PackedFunc] a returned pointer refers to. *)
Definition deref (reg : Registry) (p : option nat) : option PackedFunc :=
  p ≫= λ a, objects reg !! a.

(** A sequence of calls of [GetMXNetFunc], each with its name, function
    and const positions; the registry they leave. *)
Definition GetMXNetFunc_all (calls : list (string * TVMFunc * list Z))
    (reg : Registry) : Registry :=
  foldl (λ reg c, (GetMXNetFunc c.1.1 c.1.2 c.2 reg).2) reg calls.

End bridge.

(** ** Vocabulary for the statements about [Init] and [Run] *)

(** What the host returns for one framework-tensor slot: the slot's
    index, the handle passed, its shallow copy and the context reported
    for the copy. *)
Record Report := {
  slot : nat;
  src : NDArrayHandle;
  copy : NDArrayHandle;
  report : Context;
}.

Section vocabulary.
Context {H : Type} (api : @Host H) (tc : Codes).

(** The slot is a framework tensor / carries a tag below the sentinel. *)
Definition is_tensor (a : TVMArg) : Prop :=
  type_code a = kTVMNDArrayTypeCode tc.
Definition is_pod (a : TVMArg) : Prop := type_code a < kTVMType tc.
Definition allowed (a : TVMArg) : Prop := is_tensor a ∨ is_pod a.

Global Instance is_tensor_dec a : Decision (is_tensor a).
Proof. unfold is_tensor. apply _. Defined.
Global Instance is_pod_dec a : Decision (is_pod a).
Proof. unfold is_pod. apply _. Defined.
Global Instance allowed_dec a : Decision (allowed a).
Proof. unfold allowed. apply _. Defined.

(** The host's answers for the tensor slots of [args], numbered from
    [i], when they are queried in order from the host state [h]; and the
    host state after these queries. *)
Fixpoint reports (args : TVMArgs) (i : nat) (h : H) : list Report :=
  match args with
  | [] => []
  | a :: args' =>
      if bool_decide (is_tensor a) then
        let '(nd, h1) := MXShallowCopyNDArray api (value a) h in
        let '((dt, di), h2) := MXNDArrayGetContext api nd h1 in
        {| slot := i; src := value a; copy := nd;
           report := {| dev_type := dt; dev_id := di |} |}
        :: reports args' (S i) h2
      else reports args' (S i) h
  end.

Fixpoint host_after (args : TVMArgs) (h : H) : H :=
  match args with
  | [] => h
  | a :: args' =>
      if bool_decide (is_tensor a) then
        let '(nd, h1) := MXShallowCopyNDArray api (value a) h in
        let '(_, h2) := MXNDArrayGetContext api nd h1 in
        host_after args' h2
      else host_after args' h
  end.

(** The events of the queries. *)
Definition query_events (r : Report) : list (@Event H) :=
  [EShallowCopy (src r) (copy r);
   EGetContext (copy r) (dev_type (report r)) (dev_id (report r))].

Definition is_query (e : @Event H) : Prop :=
  match e with
  | EShallowCopy _ _ | EGetContext _ _ _ => True
  | _ => False
  end.

Definition is_push_sync (e : @Event H) : Prop :=
  match e with
  | EPushSync _ _ _ => True
  | _ => False
  end.

Definition is_cout (e : @Event H) : Prop :=
  match e with
  | ECout _ => True
  | _ => False
  end.

Global Instance is_push_sync_dec e : Decision (is_push_sync e).
Proof. destruct e; simpl; apply _. Defined.
Global Instance is_cout_dec e : Decision (is_cout e).
Proof. destruct e; simpl; apply _. Defined.

Definition is_set_stream (e : @Event H) : Prop :=
  match e with
  | ESetStream _ _ _ => True
  | _ => False
  end.

Global Instance is_set_stream_dec e : Decision (is_set_stream e).
Proof. destruct e; simpl; apply _. Defined.

(** The test of [Init] on a reported context [c] against the running
    context [cur]: [cur] is set, and [c] differs from it. *)
Definition mismatch (cur c : Context) : Prop :=
  dev_id cur ≠ -1 ∧ (dev_type c ≠ dev_type cur ∨ dev_id c ≠ dev_id cur).

Global Instance mismatch_dec cur c : Decision (mismatch cur c).
Proof. unfold mismatch. apply _. Defined.

(** The first report that fails this test, with the running context it
    is compared to. *)
Fixpoint first_mismatch (cur : Context) (cs : list Context)
  : option (Context * Context) :=
  match cs with
  | [] => None
  | c :: cs' =>
      if bool_decide (mismatch cur c) then Some (cur, c)
      else first_mismatch c cs'
  end.

(** The assignments of one pass of the loop of [Init] over a tensor
    slot that passes the test. *)
Definition slot_update (const_loc : list Z) (r : Report)
    (st : @InitState H) : InitState :=
  let f := self st in
  let f1 :=
    {| func_ := func_ f; fset_stream_ := fset_stream_ f;
       values_ := values_ f;
       type_codes_ := <[slot r := kArrayHandle tc]> (type_codes_ f);
       array_handle_ := array_handle_ f ++ [copy r];
       array_loc_ := array_loc_ f ++ [slot r];
       ctx_ := report r |} in
  if bool_decide (const_loc !! const_loc_ptr st = Some (Z.of_nat (slot r)))
  then
    {| self := f1; const_loc_ptr := S (const_loc_ptr st);
       const_nds := const_nds st ++ [copy r]; mutate_nds := mutate_nds st |}
  else
    {| self := f1; const_loc_ptr := const_loc_ptr st;
       const_nds := const_nds st; mutate_nds := mutate_nds st ++ [copy r] |}.

(** The state after the loop of [Init], from the host's answers. *)
Definition Init_pure (const_loc : list Z) (rs : list Report)
    (st : @InitState H) : InitState :=
  foldl (λ st r, slot_update const_loc r st) st rs.

(** The tags after the slots [locs] have been retagged. *)
Definition retag (locs : list nat) (codes : list Z) : list Z :=
  foldl (λ codes p, <[p := kArrayHandle tc]> codes) codes locs.

(** The running context is unset at the first report, which therefore
    passes the test; [first_inconsistent] is the first report that fails
    it after [Init] has started. *)
Definition first_inconsistent (cs : list Context)
  : option (Context * Context) :=
  match cs with
  | [] => None
  | c :: cs' => first_mismatch c cs'
  end.

(** The world after host calls that left the host in [h] and the events
    [evs]. *)
Definition set_host (w : @World H) (h : H) (evs : list Event) : World :=
  {| mach := {| host := h; DEV_ID := DEV_ID (mach w); STRM := STRM (mach w) |};
     trace := trace w ++ evs |}.

(** The calls [Run] makes between its two loops, for the stream
    pointer [strm] and the arguments [args]. *)
Definition Run_calls (f : @TVMFunctor H) (rctx : RunContext) (strm : Z)
    (args : TVMArgs) : list (@Event H) :=
  if bool_decide (dev_type (ctx_ f) = kGPU) then
    [ESetStream (kDLGPU tc) (dev_id (ctx rctx)) strm;
     ECallPacked args;
     ESetStream (kDLGPU tc) (dev_id (ctx rctx)) 0]
  else [ECallPacked args].

(** The invariant of the functor that [Run] relies on. *)
Definition functor_wf (f : @TVMFunctor H) : Prop :=
  length (array_handle_ f) = length (array_loc_ f) ∧
  length (type_codes_ f) = length (values_ f) ∧
  Forall (λ loc, (loc < length (values_ f))%nat) (array_loc_ f).

End vocabulary.

(** ** Vocabulary for the lifetime of a call *)

Section lifetime.
Context {H : Type}.

(** The handles returned by the shallow copies among the events. *)
Definition copies_made (evs : list (@Event H)) : list NDArrayHandle :=
  omap (λ e, match e with EShallowCopy _ nd => Some nd | _ => None end) evs.

(** The handles passed to [MXNDArrayFree] among the events. *)
Definition handles_freed (evs : list (@Event H)) : list NDArrayHandle :=
  omap (λ e, match e with EFree nd => Some nd | _ => None end) evs.

Definition is_init_event (e : @Event H) : Prop :=
  match e with
  | EShallowCopy _ _ | EGetContext _ _ _ | ECout _ => True
  | _ => False
  end.

End lifetime.

Section lifetime_host.
Context {H : Type} (api : @Host H).

(** The host state after the deleters of [dlms] have run in order. *)
Definition after_deleters (dlms : list DLManagedTensorHandle) (h : H) : H :=
  foldl (λ h dlm, deleter api dlm h) h dlms.

(** The host state after the handles have been freed in order. *)
Definition after_frees (handles : list NDArrayHandle) (h : H) : H :=
  foldl (λ h nd, MXNDArrayFree api nd h) h handles.

Definition is_deleter (e : @Event H) : Prop :=
  match e with
  | EDeleter _ => True
  | _ => False
  end.

End lifetime_host.

Section registry_history.
Context {H : Type}.

(** [FUNCTIONS] as it is when the library is loaded: no entry, no
    object. *)
Definition FUNCTIONS_init : @Registry H :=
  {| FUNCTIONS := ∅; objects := [] |}.

(** The function and const positions of the first call with [name]
    among [calls]. *)
Fixpoint first_registration (calls : list (string * @TVMFunc H * list Z))
    (name : string) : option (@TVMFunc H * list Z) :=
  match calls with
  | [] => None
  | c :: calls' =>
      if bool_decide (c.1.1 = name) then Some (c.1.2, c.2)
      else first_registration calls' name
  end.

End registry_history.

Section registry_invariant.
Context {H : Type} (api : @Host H) (tc : Codes).

(** The registry after a history of calls, name by name. *)
Definition registry_of (calls : list (string * @TVMFunc H * list Z))
    (reg : @Registry H) : Prop :=
  (∀ name,
     match first_registration calls name with
     | Some (f0, cl0) =>
         ∃ a, FUNCTIONS reg !! name = Some {| fc_func_ := Some a |} ∧
              objects reg !! a = Some (WrapAsyncCall api tc f0 set_stream cl0)
     | None => FUNCTIONS reg !! name = None
     end) ∧
  (∀ n1 n2 a,
     FUNCTIONS reg !! n1 = Some {| fc_func_ := Some a |} →
     FUNCTIONS reg !! n2 = Some {| fc_func_ := Some a |} → n1 = n2) ∧
  (∀ name a,
     FUNCTIONS reg !! name = Some {| fc_func_ := Some a |} →
     (a < length (objects reg))%nat).

End registry_invariant.

(** * The compute side: CUDA launch machinery and im2col

    A shallow embedding of [mobula_op/inc/context/cuda_ctx.h] and
    [mobula_op/src/im2col.cpp]. *)

(** ** [int] and [unsigned int]

    An [int] is a [Z] in the 32-bit range. Signed arithmetic whose result
    is not representable is undefined behaviour: it is [None] here, and
    so is a division by zero. Division truncates towards zero. *)
Module Cuda.

Definition INT_MAX : Z := 2 ^ 31 - 1.
Definition INT_MIN : Z := - 2 ^ 31.

Definition int (z : Z) : option Z :=
  if bool_decide (INT_MIN ≤ z ≤ INT_MAX) then Some z else None.

Definition iadd (a b : Z) : option Z := int (a + b).
Definition isub (a b : Z) : option Z := int (a - b).
Definition imul (a b : Z) : option Z := int (a * b).
Definition idiv (a b : Z) : option Z :=
  if bool_decide (b = 0) then None else int (a ÷ b).
Definition irem (a b : Z) : option Z :=
  _ ← idiv a b; Some (Z.rem a b).

(** Unsigned arithmetic is modulo 2^32; the conversion of an unsigned
    value to [int] keeps its 32 bits (two's complement). *)
Definition uint (z : Z) : Z := z mod 2 ^ 32.
Definition to_int (u : Z) : Z :=
  if bool_decide (u ≤ INT_MAX) then u else u - 2 ^ 32.

(** ** The launch configuration *)

Definition CUDA_NUM_THREADS : Z := 512.

(** [((n) + CUDA_NUM_THREADS - 1) / CUDA_NUM_THREADS] *)
Definition CUDA_GET_BLOCKS (n : Z) : option Z :=
  t ← iadd n CUDA_NUM_THREADS;
  t ← isub t 1;
  idiv t CUDA_NUM_THREADS.

(** The built-in variables of one thread, x components. *)
Record Thread := {
  blockIdx : Z;
  blockDim : Z;
  threadIdx : Z;
  gridDim : Z;
}.

(** [parfor]: the body [F] acts on a state [St] and may be undefined.
    [parfor_loop] is the loop with [i] as it stands before the test;
    [fuel] bounds the number of tests, and a loop that is out of fuel is
    [None] as well. *)
Fixpoint parfor_loop {St : Type} (fuel : nat) (th : Thread) (n : Z)
    (F : Z → St → option St) (i : Z) (s : St) : option St :=
  match fuel with
  | O => None
  | S fuel =>
      if bool_decide (i < n) then
        s' ← F i s;
        parfor_loop fuel th n F
          (to_int (uint (uint i + uint (blockDim th * gridDim th)))) s'
      else Some s
  end.

Definition parfor {St : Type} (fuel : nat) (th : Thread) (n : Z)
    (F : Z → St → option St) (s : St) : option St :=
  parfor_loop fuel th n F
    (to_int (uint (uint (blockIdx th * blockDim th) + threadIdx th))) s.

(** One action after the other over a list, stopping at the first
    that is undefined. *)
Definition for_each {A St : Type} (l : list A) (f : A → St → option St)
    (s : St) : option St :=
  foldl (λ acc a, acc ≫= f a) (Some s) l.

(** The threads of a launch [<<<grid, block>>>], block by block. *)
Definition threads (grid block : Z) : list Thread :=
  b ← seqZ 0 grid;
  t ← seqZ 0 block;
  [{| blockIdx := b; blockDim := block; threadIdx := t; gridDim := grid |}].

(** A launch, with its threads run to completion one after the other in
    [order]. The device interleaves the threads; the statements about
    launches are for every [order]. A grid without blocks has no
    thread. *)
Definition launch {St : Type} (order : list Thread)
    (kernel : Thread → St → option St) (s : St) : option St :=
  for_each order kernel s.

(** [KERNEL_RUN(a, n)(...)]: [a<<<CUDA_GET_BLOCKS(n), CUDA_NUM_THREADS>>>(...)],
    the threads taken in block and thread order. *)
Definition KERNEL_RUN {St : Type} (a : Thread → St → option St) (n : Z)
    (s : St) : option St :=
  grid ← CUDA_GET_BLOCKS n;
  launch (threads grid CUDA_NUM_THREADS) a s.

(** The index a thread starts [parfor] from. *)
Definition global_id (th : Thread) : Z :=
  blockIdx th * blockDim th + threadIdx th.

End Cuda.

(** ** im2col and col2im

    A buffer is a list of elements and a pointer into it is an element
    offset. Pointer arithmetic is free; a dereference outside the buffer
    is undefined. [T] is the element type [DType], with its zero and its
    addition. *)
Module Im2col.
Import Cuda.

Definition load {T : Type} (mem : list T) (p : Z) : option T :=
  if bool_decide (0 ≤ p) then mem !! Z.to_nat p else None.

Definition store {T : Type} (mem : list T) (p : Z) (v : T) : option (list T) :=
  if bool_decide (0 ≤ p < Z.of_nat (length mem))
  then Some (<[Z.to_nat p := v]> mem) else None.

Section kernels.
Context {T : Type} (zero : T) (add : T → T → T).
Variables (height width kernel_h kernel_w pad_h pad_w : Z).
Variables (stride_h stride_w dilation_h dilation_w : Z).

(** The innermost statement of [im2col_kernel], for the kernel row [i]
    and column [j]; the state is [data_col_ptr] and the column buffer. *)
Definition im2col_cell (height_col width_col : Z) (data_im : list T)
    (data_im_ptr h_offset w_offset : Z) (i j : Z) (st : Z * list T)
  : option (Z * list T) :=
  let '(data_col_ptr, data_col) := st in
  t ← imul i dilation_h;
  h_im ← iadd h_offset t;
  t ← imul j dilation_w;
  w_im ← iadd w_offset t;
  v ← (if bool_decide (h_im >= 0 ∧ w_im >= 0 ∧ h_im < height ∧ w_im < width)
       then
         t1 ← imul i dilation_h;
         t1 ← imul t1 width;
         t2 ← imul j dilation_w;
         k ← iadd t1 t2;
         load data_im (data_im_ptr + k)
       else Some zero);
  data_col ← store data_col data_col_ptr v;
  step ← imul height_col width_col;
  Some (data_col_ptr + step, data_col).

(** The body that [im2col_kernel] passes to [parfor]. *)
Definition im2col_body (height_col width_col : Z) (data_im : list T)
    (index : Z) (data_col : list T) : option (list T) :=
  h_index ← idiv index width_col;
  h_col ← irem h_index height_col;
  w_col ← irem index width_col;
  c_im ← idiv h_index height_col;
  t ← imul c_im kernel_h;
  c_col ← imul t kernel_w;
  t ← imul h_col stride_h;
  h_offset ← isub t pad_h;
  t ← imul w_col stride_w;
  w_offset ← isub t pad_w;
  t ← imul c_col height_col;
  t ← iadd t h_col;
  t ← imul t width_col;
  col_off ← iadd t w_col;
  t ← imul c_im height;
  t ← iadd t h_offset;
  t ← imul t width;
  im_off ← iadd t w_offset;
  st ← for_each (seqZ 0 kernel_h)
          (λ i, for_each (seqZ 0 kernel_w)
                  (im2col_cell height_col width_col data_im im_off
                     h_offset w_offset i))
          (col_off, data_col);
  Some st.2.

Definition im2col_kernel (fuel : nat) (th : Thread) (n : Z)
    (data_im : list T) (height_col width_col : Z) (data_col : list T)
  : option (list T) :=
  parfor fuel th n (im2col_body height_col width_col data_im) data_col.

(** [(size + 2 * pad - (dilation * (kernel - 1) + 1)) / stride + 1] *)
Definition col_size (size kernel pad stride dilation : Z) : option Z :=
  t ← imul 2 pad;
  a ← iadd size t;
  t ← isub kernel 1;
  t ← imul dilation t;
  b ← iadd t 1;
  t ← isub a b;
  t ← idiv t stride;
  iadd t 1.

Definition im2col (fuel : nat) (data_im : list T) (channels : Z)
    (data_col : list T) : option (list T) :=
  height_col ← col_size height kernel_h pad_h stride_h dilation_h;
  width_col ← col_size width kernel_w pad_w stride_w dilation_w;
  t ← imul channels height_col;
  num_kernels ← imul t width_col;
  KERNEL_RUN
    (λ th, im2col_kernel fuel th num_kernels data_im height_col width_col)
    num_kernels data_col.

(** The innermost statement of [col2im_kernel], for the kernel position
    [h_col], [w_col]; the state is [val]. The second test of the [&&] is
    evaluated only when the first holds. *)
Definition col2im_cell (height_col width_col : Z) (data_col : list T)
    (c_im h_im w_im : Z) (h_col w_col : Z) (val : T) : option T :=
  t ← imul h_col stride_h;
  h_k ← isub h_im t;
  t ← imul w_col stride_w;
  w_k ← isub w_im t;
  r ← irem h_k dilation_h;
  if bool_decide (r = 0) then
    r ← irem w_k dilation_w;
    if bool_decide (r = 0) then
      h_k ← idiv h_k dilation_h;
      w_k ← idiv w_k dilation_w;
      t ← imul c_im kernel_h;
      t ← iadd t h_k;
      t ← imul t kernel_w;
      t ← iadd t w_k;
      t ← imul t height_col;
      t ← iadd t h_col;
      t ← imul t width_col;
      data_col_index ← iadd t w_col;
      x ← load data_col data_col_index;
      Some (add val x)
    else Some val
  else Some val.

(** The body that [col2im_kernel] passes to [parfor]. *)
Definition col2im_body (height_col width_col : Z) (data_col : list T)
    (index : Z) (data_im : list T) : option (list T) :=
  t ← irem index width;
  w_im ← iadd t pad_w;
  t ← idiv index width;
  t ← irem t height;
  h_im ← iadd t pad_h;
  t ← imul width height;
  c_im ← idiv index t;
  t ← isub kernel_w 1;
  t ← imul t dilation_w;
  kernel_extent_w ← iadd t 1;
  t ← isub kernel_h 1;
  t ← imul t dilation_h;
  kernel_extent_h ← iadd t 1;
  w_col_start ←
    (if bool_decide (w_im < kernel_extent_w) then Some 0
     else t ← isub w_im kernel_extent_w; t ← idiv t stride_w; iadd t 1);
  t ← idiv w_im stride_w;
  t ← iadd t 1;
  let w_col_end := Z.min t width_col in
  h_col_start ←
    (if bool_decide (h_im < kernel_extent_h) then Some 0
     else t ← isub h_im kernel_extent_h; t ← idiv t stride_h; iadd t 1);
  t ← idiv h_im stride_h;
  t ← iadd t 1;
  let h_col_end := Z.min t height_col in
  val ← for_each (seqZ h_col_start (h_col_end - h_col_start))
          (λ h_col,
             for_each (seqZ w_col_start (w_col_end - w_col_start))
               (col2im_cell height_col width_col data_col c_im h_im w_im
                  h_col))
          zero;
  store data_im index val.

Definition col2im_kernel (fuel : nat) (th : Thread) (n : Z)
    (data_col : list T) (height_col width_col : Z) (data_im : list T)
  : option (list T) :=
  parfor fuel th n (col2im_body height_col width_col data_col) data_im.

Definition col2im (fuel : nat) (data_col : list T) (channels : Z)
    (data_im : list T) : option (list T) :=
  height_col ← col_size height kernel_h pad_h stride_h dilation_h;
  width_col ← col_size width kernel_w pad_w stride_w dilation_w;
  t ← imul channels height;
  num_kernels ← imul t width;
  KERNEL_RUN
    (λ th, col2im_kernel fuel th num_kernels data_col height_col width_col)
    num_kernels data_im.

End kernels.
End Im2col.

(** ** Vocabulary for the statements about im2col and col2im *)

Section im2col_vocabulary.
Context {T : Type} (zero : T).

(** The number of kernel positions along one axis. *)
Definition out_size (size kernel pad stride dilation : Z) : Z :=
  (size + 2 * pad - (dilation * (kernel - 1) + 1)) ÷ stride + 1.

(** The offset in the column buffer of channel [c], kernel row [i] and
    column [j], at the kernel position [h], [w]. *)
Definition col_offset (kernel_h kernel_w height_col width_col : Z)
    (c i j h w : Z) : Z :=
  (((c * kernel_h + i) * kernel_w + j) * height_col + h) * width_col + w.

(** The offset in the image of channel [c], row [y], column [x]. *)
Definition im_offset (height width : Z) (c y x : Z) : Z :=
  (c * height + y) * width + x.

(** The image read with zero padding around it. *)
Definition pixel (height width : Z) (data_im : list T) (c y x : Z) : T :=
  if bool_decide (0 ≤ y < height ∧ 0 ≤ x < width)
  then default zero (data_im !! Z.to_nat (im_offset height width c y x))
  else zero.

(** Writes [(offset, value)] applied to a buffer in order. *)
Definition scatter (ws : list (Z * T)) (mem : list T) : list T :=
  foldl (λ mem w, <[Z.to_nat w.1 := w.2]> mem) mem ws.

End im2col_vocabulary.

(** The writes of the im2col body: what it stores for channel [c] at
    the kernel position [h], [w], in the order of its two loops. *)
Section im2col_writes.
Context {T : Type} (zero : T).
Variables (height width kernel_h kernel_w pad_h pad_w : Z).
Variables (stride_h stride_w dilation_h dilation_w : Z).
Variables (height_col width_col : Z) (data_im : list T).

(** The image value under kernel row [i], column [j] at the kernel
    position [h], [w]: zero in the padding. *)
Definition im2col_value (c i j h w : Z) : T :=
  pixel zero height width data_im c
    (h * stride_h - pad_h + i * dilation_h)
    (w * stride_w - pad_w + j * dilation_w).

Definition im2col_row (c h w i j0 m : Z) : list (Z * T) :=
  (λ j, (col_offset kernel_h kernel_w height_col width_col c i j h w,
         im2col_value c i j h w)) <$> seqZ j0 m.

Definition im2col_rows (c h w i0 m : Z) : list (Z * T) :=
  seqZ i0 m ≫= λ i, im2col_row c h w i 0 kernel_w.

Definition im2col_writes (index : Z) : list (Z * T) :=
  im2col_rows (index ÷ width_col ÷ height_col)
    (Z.rem (index ÷ width_col) height_col) (Z.rem index width_col)
    0 kernel_h.

End im2col_writes.

(** The column cells that col2im adds up for the image cell of channel
    [c], row [y], column [x]: over all kernel positions [h], [w], in
    that order, the cell of the kernel row [i] and column [j] that lie
    over the image cell, when there are such. *)
Section col2im_sources.
Context {T : Type} (zero : T) (add : T → T → T).
Variables (kernel_h kernel_w pad_h pad_w : Z).
Variables (stride_h stride_w dilation_h dilation_w : Z).
Variables (height_col width_col : Z).

(** The image coordinate [x] seen from the origin of the kernel at
    position [p]; it lies under a kernel tap when it is a multiple of the
    dilation, less than [kernel] dilations away. *)
Definition tap (pad stride : Z) (x p : Z) : Z := x + pad - p * stride.

Definition is_tap (kernel pad stride dilation : Z) (x p : Z) : Prop :=
  0 ≤ tap pad stride x p ∧
  Z.rem (tap pad stride x p) dilation = 0 ∧
  tap pad stride x p ÷ dilation < kernel.

Global Instance is_tap_dec kernel pad stride dilation x p :
  Decision (is_tap kernel pad stride dilation x p).
Proof. unfold is_tap. apply _. Defined.

Definition col2im_sources (c y x : Z) : list Z :=
  h ← seqZ 0 height_col;
  w ← seqZ 0 width_col;
  if bool_decide (is_tap kernel_h pad_h stride_h dilation_h y h ∧
                  is_tap kernel_w pad_w stride_w dilation_w x w)
  then [col_offset kernel_h kernel_w height_col width_col c
          (tap pad_h stride_h y h ÷ dilation_h)
          (tap pad_w stride_w x w ÷ dilation_w) h w]
  else [].

Definition col2im_value (data_col : list T) (c y x : Z) : T :=
  foldl (λ val q, add val (default zero (data_col !! Z.to_nat q))) zero
    (col2im_sources c y x).

End col2im_sources.

(** Buffers that name their own cells. The cell at offset [p] of the
    tagged image holds [p + 1], so that a value read from it names the
    cell it was read from and 0 names the padding. The cell at offset [q]
    of the tagged columns holds the list [[q]], so that, with
    concatenation for the sum, a sum names the cells that were added and
    the order in which they were. *)
Definition tagged_image (len : Z) : list Z := seqZ 1 len.
Definition tagged_columns (len : Z) : list (list Z) :=
  (λ q, [q]) <$> seqZ 0 len.

(** ** A host and type codes for the examples

    The codes are those of TVM's runtime. The example host keeps a
    counter: the k-th shallow copy is the handle [1000 + k], the managed
    tensor of a handle [nd] is at [nd + 5000], and [ctx_of] gives the
    context of a copy. *)
Definition example_codes : Codes :=
  {| kTVMNDArrayTypeCode := 19; kArrayHandle := 7; kTVMType := 5;
     kDLGPU := 2 |}.

Definition example_host (ctx_of : NDArrayHandle → Z * Z) : @Host nat :=
  {| MXShallowCopyNDArray := λ _ n, (1000 + Z.of_nat n, S n);
     MXNDArrayFree := λ _ n, n;
     MXNDArrayGetContext := λ nd n, (ctx_of nd, n);
     MXNDArrayToDLPack := λ nd n, (nd + 5000, n);
     MXEnginePushSyncND := λ _ _ _ n, n;
     dl_tensor := λ dlm, dlm;
     deleter := λ _ n, n;
     load := λ p _, p + 8;
     indeterminate := λ _, {| dev_type := 0; dev_id := 0 |};
     task_deleted := λ _, false |}.

(** The same host with an engine that runs each task, and calls its
    deleter, before the push returns. *)
Definition eager_host (ctx_of : NDArrayHandle → Z * Z) : @Host nat :=
  {| MXShallowCopyNDArray := MXShallowCopyNDArray (example_host ctx_of);
     MXNDArrayFree := MXNDArrayFree (example_host ctx_of);
     MXNDArrayGetContext := MXNDArrayGetContext (example_host ctx_of);
     MXNDArrayToDLPack := MXNDArrayToDLPack (example_host ctx_of);
     MXEnginePushSyncND := MXEnginePushSyncND (example_host ctx_of);
     dl_tensor := dl_tensor (example_host ctx_of);
     deleter := deleter (example_host ctx_of);
     load := load (example_host ctx_of);
     indeterminate := indeterminate (example_host ctx_of);
     task_deleted := λ _, true |}.

Definition example_world : @World nat :=
  {| mach := {| host := 0%nat; DEV_ID := 0; STRM := 0 |}; trace := [] |}.

(** A user function that returns at once. *)
Definition example_func : @TVMFunc nat := λ _ m, Some m.

Definition tensor_arg (h : NDArrayHandle) : TVMArg :=
  {| value := h; type_code := 19 |}.

(** Hosts whose first copy is on one device and whose later copies are
    on another one, and hosts with all tensors on one device. *)
Definition gpu0_then_gpu1 : NDArrayHandle → Z * Z :=
  λ nd, if bool_decide (nd = 1000) then (2, 0) else (2, 1).
Definition gpu_minus1_then_gpu0 : NDArrayHandle → Z * Z :=
  λ nd, if bool_decide (nd = 1000) then (2, -1) else (2, 0).
Definition all_gpu0 : NDArrayHandle → Z * Z := λ _, (2, 0).
Definition all_cpu0 : NDArrayHandle → Z * Z := λ _, (1, 0).

(** The functor [Init] leaves for (tensor 100, tensor 200, tensor 300)
    with const positions [0,1], and a run of it. *)
Definition example_new : @TVMFunctor nat :=
  TVMFunctor_new example_func set_stream {| dev_type := 0; dev_id := 0 |}.

Definition example_args : TVMArgs :=
  [tensor_arg 100; tensor_arg 200; tensor_arg 300].

Definition example_init (ctx_of : NDArrayHandle → Z * Z)
  : Outcome InitState * World :=
  Init (example_host ctx_of) example_codes example_new example_args
    [0; 1] [] [] example_world.

Definition example_state (ctx_of : NDArrayHandle → Z * Z) : InitState :=
  match (example_init ctx_of).1 with
  | Done st => st
  | Stop _ => {| self := example_new; const_loc_ptr := 0;
                 const_nds := []; mutate_nds := [] |}
  end.

Definition example_functor (ctx_of : NDArrayHandle → Z * Z) : TVMFunctor :=
  self (example_state ctx_of).

Definition example_rctx : RunContext :=
  {| ctx := {| dev_type := 2; dev_id := 0 |}; stream := 64 |}.

Definition example_run (ctx_of : NDArrayHandle → Z * Z)
  : Outcome TVMFunctor * World :=
  Run (example_host ctx_of) example_codes (example_functor ctx_of)
    example_rctx (example_init ctx_of).2.

(** Arguments with a slot that is neither a tensor nor below the
    sentinel, after and between two tensors; and two tensors alone. *)
Definition not_pod_arg : TVMArg := {| value := 7; type_code := 11 |}.
Definition not_pod_between_tensors : TVMArgs :=
  [tensor_arg 100; not_pod_arg; tensor_arg 200].
Definition two_tensors : TVMArgs := [tensor_arg 100; tensor_arg 200].
Definition pod_passthrough : TVMArgs :=
  [tensor_arg 100; {| value := 42; type_code := 0 |};
   {| value := 1065353216; type_code := 2 |}].

Definition empty_registry : @Registry nat :=
  {| FUNCTIONS := ∅; objects := [] |}.

Definition example_ran (ctx_of : NDArrayHandle → Z * Z) : TVMFunctor :=
  match (example_run ctx_of).1 with
  | Done f => f
  | Stop _ => example_new
  end.

(** A user function that does not return, the functor [Init] leaves for
    it and for the example arguments, and a run of that functor. *)
Definition stuck_func : @TVMFunc nat := λ _ _, None.

Definition example_stuck_init : Outcome InitState * World :=
  Init (example_host all_gpu0) example_codes
    (TVMFunctor_new stuck_func set_stream {| dev_type := 0; dev_id := 0 |})
    example_args [0; 1] [] [] example_world.

Definition example_stuck_functor : TVMFunctor :=
  match example_stuck_init.1 with
  | Done st => self st
  | Stop _ => example_new
  end.



(** A small convolution geometry for the examples: one channel of 3 by 3
    over integers, a 2 by 2 kernel, padding 1 and stride 2, hence 2 by 2
    kernel positions. *)
Definition example_image : list Z := [1; 2; 3; 4; 5; 6; 7; 8; 9].
Definition example_columns : list Z := seqZ 1 16.

(** A body that records the indices it is run at. *)
Definition record_index (i : Z) (s : list Z) : option (list Z) :=
  Some (s ++ [i]).

(* ================================================================== *)
(** * Properties of the dependency deriver *)

Section dedup_facts.
Import Dedup.
Implicit Types (l wit rs v rd wr : list NDArrayHandle) (x r prev : NDArrayHandle).

Example dedup_aliased :
  DeduplicateNDArrayHandle [7] [7] = ([], [7]).
Proof. reflexivity. Qed.

Local Instance Zle_total : Total Z.le.
Proof. intros x y. lia. Qed.

Lemma StronglySorted_lt_le l : StronglySorted Z.lt l → StronglySorted Z.le l.
Proof.
  induction 1 as [|x l _ IH Hx]; constructor; [done|].
  eapply Forall_impl; [exact Hx|]. intros; lia.
Qed.

Lemma StronglySorted_lt_NoDup l : StronglySorted Z.lt l → NoDup l.
Proof.
  induction 1 as [|x l _ IH Hx]; constructor; [|done].
  rewrite Forall_forall in Hx. intros Hin. specialize (Hx _ Hin). lia.
Qed.

Lemma StronglySorted_lt_filter (P : NDArrayHandle → Prop)
    `{!∀ x, Decision (P x)} l :
  StronglySorted Z.lt l → StronglySorted Z.lt (filter P l).
Proof.
  induction 1 as [|x l _ IH Hx]; [constructor|].
  rewrite filter_cons. case_decide; [|done].
  constructor; [done|]. rewrite Forall_forall in Hx |- *.
  intros y [_ Hy]%list_elem_of_filter. auto.
Qed.

Lemma filter_iff_elem_of (P1 P2 : NDArrayHandle → Prop)
    `{!∀ x, Decision (P1 x), !∀ x, Decision (P2 x)} l :
  (∀ x, x ∈ l → P1 x ↔ P2 x) → filter P1 l = filter P2 l.
Proof.
  induction l as [|a l IH]; intros HP; [done|].
  rewrite !filter_cons, IH by (intros; apply HP; by right).
  apply decide_ext, HP. left.
Qed.

Lemma filter_all (P : NDArrayHandle → Prop) `{!∀ x, Decision (P x)} l :
  Forall P l → filter P l = l.
Proof.
  induction 1 as [|a l Ha _ IH]; [done|].
  by rewrite filter_cons_True, IH.
Qed.

(** *** [std::sort] *)

Lemma sort_sorted l : StronglySorted Z.le (sort l).
Proof. apply StronglySorted_merge_sort; apply _. Qed.

Lemma elem_of_sort l x : x ∈ sort l ↔ x ∈ l.
Proof. unfold sort. by rewrite merge_sort_Permutation. Qed.

Lemma sort_id l : StronglySorted Z.lt l → sort l = l.
Proof.
  intros Hl. apply (StronglySorted_unique Z.le).
  - apply sort_sorted.
  - by apply StronglySorted_lt_le.
  - apply merge_sort_Permutation.
Qed.

(** *** [std::unique] *)

Lemma elem_of_unique_from prev l x :
  x ∈ unique_from prev l → x ∈ l.
Proof.
  revert prev. induction l as [|y l IH]; intros prev; simpl; [done|].
  case_bool_decide.
  - intros ?%IH. by right.
  - intros [->|?%IH]%elem_of_cons; [left|by right].
Qed.

Lemma elem_of_unique_from_2 prev l x :
  x ∈ l → x = prev ∨ x ∈ unique_from prev l.
Proof.
  revert prev. induction l as [|y l IH]; intros prev; simpl; [by inv 1|].
  intros [->|Hx]%elem_of_cons; case_bool_decide; subst; auto.
  - right; left.
  - destruct (IH y Hx) as [->|?]; right; [left|by right].
Qed.

Lemma elem_of_unique l x : x ∈ unique l ↔ x ∈ l.
Proof.
  destruct l as [|y l]; simpl; [done|]. rewrite !elem_of_cons. split.
  - intros [->|?%elem_of_unique_from]; auto.
  - intros [->|?%(elem_of_unique_from_2 y)]; naive_solver.
Qed.

Lemma unique_from_sorted prev l :
  StronglySorted Z.le (prev :: l) →
  StronglySorted Z.lt (unique_from prev l) ∧
  Forall (Z.lt prev) (unique_from prev l).
Proof.
  revert prev. induction l as [|y l IH]; intros prev; simpl.
  { intros _. split; constructor. }
  intros [Hprev [Hy Hl]%StronglySorted_cons]%StronglySorted_cons.
  apply Forall_cons in Hprev as [Hpy Hprev].
  case_bool_decide as Heq.
  - apply IH. by apply StronglySorted_cons.
  - destruct (IH y) as [IH1 IH2]; [by apply StronglySorted_cons|].
    assert (prev < y) by lia. split.
    + by constructor.
    + constructor; [done|]. eapply Forall_impl; [exact IH2|]. intros; lia.
Qed.

Lemma unique_sorted l :
  StronglySorted Z.le l → StronglySorted Z.lt (unique l).
Proof.
  destruct l as [|y l]; simpl; [constructor|].
  intros [? ?]%unique_from_sorted. by constructor.
Qed.

Lemma unique_from_id prev l :
  Forall (Z.lt prev) l → StronglySorted Z.lt l → unique_from prev l = l.
Proof.
  revert prev. induction l as [|y l IH]; intros prev; simpl; [done|].
  intros [Hpy _]%Forall_cons [Hy Hl]%StronglySorted_cons.
  rewrite bool_decide_eq_false_2 by lia. f_equal. by apply IH.
Qed.

Lemma unique_id l : StronglySorted Z.lt l → unique l = l.
Proof.
  destruct l as [|y l]; simpl; [done|].
  intros [Hy Hl]%StronglySorted_cons. f_equal. by apply unique_from_id.
Qed.

Lemma unique_sort_sorted l : StronglySorted Z.lt (unique (sort l)).
Proof. apply unique_sorted, sort_sorted. Qed.

Lemma elem_of_unique_sort l x : x ∈ unique (sort l) ↔ x ∈ l.
Proof. by rewrite elem_of_unique, elem_of_sort. Qed.

(** *** The merge loop *)

Lemma elem_of_advance_wit r wit x : x ∈ advance_wit r wit → x ∈ wit.
Proof.
  induction wit as [|w wit IH]; simpl; [done|].
  case_bool_decide; [|done]. intros ?%IH. by right.
Qed.

Lemma elem_of_advance_wit_2 r wit x :
  x ∈ wit → r ≤ x → x ∈ advance_wit r wit.
Proof.
  induction wit as [|w wit IH]; simpl; [done|].
  intros Hx Hr. case_bool_decide; [|done].
  apply elem_of_cons in Hx as [->|Hx]; [lia|auto].
Qed.

Lemma advance_wit_sorted r wit :
  StronglySorted Z.lt wit → StronglySorted Z.lt (advance_wit r wit).
Proof.
  induction 1 as [|w wit Hwit IH Hw]; simpl; [constructor|].
  case_bool_decide; [done|by constructor].
Qed.

Lemma advance_wit_ge r wit :
  StronglySorted Z.lt wit → Forall (Z.le r) (advance_wit r wit).
Proof.
  induction 1 as [|w wit Hwit IH Hw]; simpl; [constructor|].
  case_bool_decide; [done|]. constructor; [lia|].
  eapply Forall_impl; [exact Hw|]. intros; lia.
Qed.

(** After the inner [while], the test of the [if] is exactly "[r] is not
    in the write-set". *)
Lemma not_written_spec r wit :
  StronglySorted Z.lt wit →
  not_written r (advance_wit r wit) = true ↔ r ∉ wit.
Proof.
  intros Hwit.
  pose proof (advance_wit_sorted r wit Hwit) as Hs.
  pose proof (elem_of_advance_wit_2 r wit r) as Hin.
  pose proof (elem_of_advance_wit r wit r) as Hin'.
  destruct (advance_wit r wit) as [|w wit'] eqn:Hadv; simpl.
  { split; [|done]. intros _ Hr. specialize (Hin Hr ltac:(lia)).
    by apply elem_of_nil in Hin. }
  rewrite bool_decide_eq_true.
  apply StronglySorted_cons in Hs as [Hw _]. rewrite Forall_forall in Hw.
  pose proof (advance_wit_ge r wit Hwit) as Hge. rewrite Hadv in Hge.
  apply Forall_cons in Hge as [Hge _]. split.
  - intros Hne Hr. specialize (Hin Hr ltac:(lia)).
    apply elem_of_cons in Hin as [->|Hin]; [done|].
    specialize (Hw _ Hin). lia.
  - intros Hr ->. apply Hr, Hin'. left.
Qed.

Lemma strip_filter wit rs :
  StronglySorted Z.lt wit → StronglySorted Z.lt rs →
  strip wit rs = filter (λ r, r ∉ wit) rs.
Proof.
  intros Hwit Hrs. revert wit Hwit.
  induction Hrs as [|r rs Hrs IH Hr]; intros wit Hwit; simpl; [done|].
  rewrite filter_cons.
  assert (strip (advance_wit r wit) rs = filter (λ r, r ∉ wit) rs) as ->.
  { rewrite IH by by apply advance_wit_sorted.
    apply filter_iff_elem_of. rewrite Forall_forall in Hr.
    intros y Hy. specialize (Hr _ Hy). split; intros Hn Hin; apply Hn.
    - apply elem_of_advance_wit_2; [done|lia].
    - by eapply elem_of_advance_wit. }
  pose proof (not_written_spec r wit Hwit) as Hspec.
  destruct (not_written r (advance_wit r wit)); case_decide as Hd; [done| | |done].
  - by destruct (proj1 Hspec eq_refl).
  - by apply Hspec in Hd.
Qed.

(** The in-place loop computes [strip] on the part of the vector not yet
    visited, after the [rtop] elements already kept. *)
Lemma strip_loop_spec n wit v rit rtop :
  (rtop ≤ rit)%nat → (length v - rit ≤ n)%nat →
  take (strip_loop n wit v rit rtop).2 (strip_loop n wit v rit rtop).1
  = take rtop v ++ strip wit (drop rit v).
Proof.
  revert wit v rit rtop.
  induction n as [|n IH]; intros wit v rit rtop Htop Hn; simpl.
  { rewrite drop_ge by lia. simpl. by rewrite app_nil_r. }
  destruct (v !! rit) as [r|] eqn:Hrit; simpl.
  2:{ apply lookup_ge_None in Hrit. rewrite drop_ge by lia.
      simpl. by rewrite app_nil_r. }
  pose proof (lookup_lt_Some _ _ _ Hrit) as Hlt.
  rewrite (drop_S _ _ _ Hrit). simpl.
  destruct (not_written r (advance_wit r wit)).
  - rewrite IH by (rewrite ?length_insert; lia).
    rewrite drop_insert_lt by lia.
    rewrite (take_S_r _ _ r) by (apply list_lookup_insert_eq; lia).
    rewrite take_insert_ge by lia. by rewrite <-app_assoc.
  - rewrite IH by lia. done.
Qed.

Lemma dedup_reads rd wr :
  (DeduplicateNDArrayHandle rd wr).1
  = filter (λ x, x ∉ unique (sort wr)) (unique (sort rd)).
Proof.
  unfold DeduplicateNDArrayHandle.
  pose proof (strip_loop_spec (length (unique (sort rd))) (unique (sort wr))
                (unique (sort rd)) 0 0) as H.
  destruct (strip_loop _ _ _ _ _) as [v rtop]. simpl in *.
  rewrite H by lia. simpl.
  apply strip_filter; apply unique_sort_sorted.
Qed.

Lemma dedup_writes rd wr :
  (DeduplicateNDArrayHandle rd wr).2 = unique (sort wr).
Proof.
  unfold DeduplicateNDArrayHandle. by destruct (strip_loop _ _ _ _ _).
Qed.

Lemma elem_of_dedup_reads rd wr x :
  x ∈ (DeduplicateNDArrayHandle rd wr).1 ↔ x ∈ rd ∧ x ∉ wr.
Proof.
  rewrite dedup_reads, list_elem_of_filter, !elem_of_unique_sort. tauto.
Qed.

Lemma elem_of_dedup_writes rd wr x :
  x ∈ (DeduplicateNDArrayHandle rd wr).2 ↔ x ∈ wr.
Proof. by rewrite dedup_writes, elem_of_unique_sort. Qed.

Lemma dedup_reads_sorted rd wr :
  StronglySorted Z.lt (DeduplicateNDArrayHandle rd wr).1.
Proof.
  rewrite dedup_reads. apply StronglySorted_lt_filter, unique_sort_sorted.
Qed.

Lemma dedup_writes_sorted rd wr :
  StronglySorted Z.lt (DeduplicateNDArrayHandle rd wr).2.
Proof. rewrite dedup_writes. apply unique_sort_sorted. Qed.

Lemma dedup_fixed rd wr :
  StronglySorted Z.lt rd → StronglySorted Z.lt wr →
  (∀ x, x ∈ rd → x ∉ wr) →
  DeduplicateNDArrayHandle rd wr = (rd, wr).
Proof.
  intros Hrd Hwr Hdisj.
  rewrite (surjective_pairing (DeduplicateNDArrayHandle rd wr)).
  rewrite dedup_reads, dedup_writes.
  rewrite !sort_id, !unique_id by done.
  rewrite filter_all; [done|]. by apply Forall_forall.
Qed.

(** C10: both vectors left by [DeduplicateNDArrayHandle] are in strictly
    increasing handle order, whatever the two input lists are. *)
Theorem dedup_strictly_increasing rd wr :
  StronglySorted Z.lt (DeduplicateNDArrayHandle rd wr).1 ∧
  StronglySorted Z.lt (DeduplicateNDArrayHandle rd wr).2.
Proof. split; [apply dedup_reads_sorted|apply dedup_writes_sorted]. Qed.

(** C9: dependency derivation is idempotent: run on its own output,
    [DeduplicateNDArrayHandle] returns that output again. *)
Theorem dedup_idempotent rd wr :
  let out := DeduplicateNDArrayHandle rd wr in
  DeduplicateNDArrayHandle out.1 out.2 = out.
Proof.
  intros out. rewrite (surjective_pairing out) at 3.
  apply dedup_fixed.
  - apply dedup_reads_sorted.
  - apply dedup_writes_sorted.
  - intros x. unfold out.
    rewrite elem_of_dedup_reads, elem_of_dedup_writes. tauto.
Qed.

(** C1: the write-set left by [DeduplicateNDArrayHandle] is the input
    write list without repetitions; no handle is in both results; the two
    results together are the input union without repetitions; a handle of
    both inputs is in the write-set only; and for distinct handles A, B,
    C, D the reads [A,B,A,C,B] and writes [B,D] give reads {A,C} and
    writes {B,D}. Sets are lists up to the order of their elements. *)
Theorem dedup_read_write_sets rd wr :
  let out := DeduplicateNDArrayHandle rd wr in
  out.2 ≡ₚ remove_dups wr ∧
  (∀ x, x ∈ out.1 → x ∉ out.2) ∧
  out.1 ++ out.2 ≡ₚ remove_dups (rd ++ wr) ∧
  (∀ x, x ∈ rd → x ∈ wr → x ∈ out.2 ∧ x ∉ out.1) ∧
  (∀ A B C D : NDArrayHandle, NoDup [A; B; C; D] →
     let ex := DeduplicateNDArrayHandle [A; B; A; C; B] [B; D] in
     ex.1 ≡ₚ [A; C] ∧ ex.2 ≡ₚ [B; D]).
Proof.
  intros out.
  assert (∀ x, x ∈ out.1 → x ∉ out.2) as Hdisj.
  { intros x. unfold out.
    rewrite elem_of_dedup_reads, elem_of_dedup_writes. tauto. }
  split_and!.
  - apply NoDup_Permutation.
    + apply StronglySorted_lt_NoDup, dedup_writes_sorted.
    + apply NoDup_remove_dups.
    + intros x. unfold out.
      by rewrite elem_of_dedup_writes, elem_of_remove_dups.
  - done.
  - apply NoDup_Permutation.
    + apply NoDup_app. split_and!; [|done|].
      * apply StronglySorted_lt_NoDup, dedup_reads_sorted.
      * apply StronglySorted_lt_NoDup, dedup_writes_sorted.
    + apply NoDup_remove_dups.
    + intros x. unfold out.
      rewrite elem_of_remove_dups, !elem_of_app.
      rewrite elem_of_dedup_reads, elem_of_dedup_writes.
      destruct (decide (x ∈ wr)); tauto.
  - intros x Hr Hw. unfold out.
    rewrite elem_of_dedup_reads, elem_of_dedup_writes. tauto.
  - intros A B C D HND ex.
    assert (A ≠ B ∧ A ≠ C ∧ A ≠ D ∧ B ≠ C ∧ B ≠ D ∧ C ≠ D)
      as (HAB & HAC & HAD & HBC & HBD & HCD).
    { apply NoDup_cons in HND as [HA HND]. apply NoDup_cons in HND as [HB HND].
      apply NoDup_cons in HND as [HC _].
      repeat setoid_rewrite not_elem_of_cons in HA.
      repeat setoid_rewrite not_elem_of_cons in HB.
      repeat setoid_rewrite not_elem_of_cons in HC. tauto. }
    split; apply NoDup_Permutation.
    + apply StronglySorted_lt_NoDup, dedup_reads_sorted.
    + apply NoDup_cons; split; [|apply NoDup_singleton].
      rewrite list_elem_of_singleton. intuition congruence.
    + intros x. unfold ex. rewrite elem_of_dedup_reads.
      rewrite !elem_of_cons, !elem_of_nil. intuition congruence.
    + apply StronglySorted_lt_NoDup, dedup_writes_sorted.
    + apply NoDup_cons; split; [|apply NoDup_singleton].
      rewrite list_elem_of_singleton. intuition congruence.
    + intros x. unfold ex. rewrite elem_of_dedup_writes.
      rewrite !elem_of_cons, !elem_of_nil. intuition congruence.
Qed.

(** The literal scenario of C1 at the handles 10, 20, 30, 40. *)
Lemma dedup_read_write_sets_witness :
  NoDup [10; 20; 30; 40] ∧
  (DeduplicateNDArrayHandle [10; 20; 10; 30; 20] [20; 40]).1 ≡ₚ [10; 30] ∧
  (DeduplicateNDArrayHandle [10; 20; 10; 30; 20] [20; 40]).2 ≡ₚ [20; 40].
Proof.
  assert (NoDup [10; 20; 30; 40]) as HND
    by (apply (bool_decide_unpack _); vm_compute; exact I).
  split; [exact HND|].
  exact (proj2 (proj2 (proj2 (proj2 (dedup_read_write_sets [] []))))
           10 20 30 40 HND).
Defined.

End dedup_facts.

(* ================================================================== *)
(** * Properties of [TVMFunctor::Init] *)

Section init_facts.
Context {H : Type} (api : @Host H) (tc : Codes).
Implicit Types (st : @InitState H) (w : @World H) (a : TVMArg)
  (args rest : TVMArgs) (cl : list Z) (h : H) (r : Report)
  (rs : list Report) (cur c : Context).

Local Abbreviation Init_slot := (Init_slot api tc).
Local Abbreviation Init_loop := (Init_loop api tc).
Local Abbreviation reports := (reports api tc).
Local Abbreviation host_after := (host_after api tc).
Local Abbreviation slot_update := (slot_update tc).
Local Abbreviation Init_pure := (Init_pure tc).
Local Abbreviation retag := (retag tc).

Lemma set_host_nil w : set_host w (host (mach w)) [] = w.
Proof. destruct w as [[]]. unfold set_host; simpl. by rewrite app_nil_r. Qed.

Lemma set_host_set_host w h1 evs1 h2 evs2 :
  set_host (set_host w h1 evs1) h2 evs2 = set_host w h2 (evs1 ++ evs2).
Proof. unfold set_host; simpl. by rewrite app_assoc. Qed.

Lemma slot_update_self cl r st :
  self (slot_update cl r st) =
  {| func_ := func_ (self st); fset_stream_ := fset_stream_ (self st);
     values_ := values_ (self st);
     type_codes_ := <[slot r := kArrayHandle tc]> (type_codes_ (self st));
     array_handle_ := array_handle_ (self st) ++ [copy r];
     array_loc_ := array_loc_ (self st) ++ [slot r];
     ctx_ := report r |}.
Proof. unfold slot_update. by case_bool_decide. Qed.

(** One pass of the loop, with the host's answers named. *)
Lemma Init_slot_eq cl a i st w :
  Init_slot cl a i st w =
  if bool_decide (is_tensor tc a) then
    let '(nd, h1) := MXShallowCopyNDArray api (value a) (host (mach w)) in
    let '((dt, di), h2) := MXNDArrayGetContext api nd h1 in
    let r := {| slot := i; src := value a; copy := nd;
                report := {| dev_type := dt; dev_id := di |} |} in
    if bool_decide (mismatch (ctx_ (self st)) (report r)) then
      (Stop (Exit (-1)),
       set_host w h2
         (query_events r ++
          [ECout (inconsistent_context (ctx_ (self st)) (report r))]))
    else (Done (slot_update cl r st), set_host w h2 (query_events r))
  else if bool_decide (is_pod tc a) then (Done st, w)
  else (Stop (CheckFailed only_pod), w).
Proof.
  unfold Init_slot.
  destruct (decide (is_tensor tc a)) as [Ht|Ht].
  2:{ rewrite !(bool_decide_eq_false_2 (is_tensor tc a)) by done.
      unfold CHECK_LT, mbind, M_bind.
      destruct (decide (is_pod tc a)) as [Hp|Hp].
      - by rewrite !(bool_decide_eq_true_2 (is_pod tc a)) by done.
      - by rewrite !(bool_decide_eq_false_2 (is_pod tc a)) by done. }
  rewrite !(bool_decide_eq_true_2 (is_tensor tc a)) by done.
  unfold mbind, M_bind, call_host, emit, mret, M_ret, stop, set_host,
    slot_update, mismatch, query_events; simpl.
  destruct (MXShallowCopyNDArray _ _ _) as [nd h1]; simpl.
  destruct (MXNDArrayGetContext _ _ _) as [[dt di] h2]; simpl.
  rewrite <-!app_assoc; simpl.
  destruct (cl !! const_loc_ptr st) as [c|] eqn:Hc; simpl.
  all: repeat case_bool_decide; simpl; rewrite <-?app_assoc; simpl.
  all: simplify_eq; try done.
  all: try (exfalso; first [tauto | congruence | intuition congruence]).
Qed.

Lemma Init_loop_cons cl a rest i st w :
  Init_loop cl (a :: rest) i st w =
  match Init_slot cl a i st w with
  | (Done st', w') => Init_loop cl rest (S i) st' w'
  | (Stop f, w') => (Stop f, w')
  end.
Proof. done. Qed.


(** When every slot is allowed and no report fails the test, the loop
    returns. *)
Lemma Init_loop_Done cl rest i st w :
  Forall (allowed tc) rest →
  first_mismatch (ctx_ (self st)) (report <$> reports rest i (host (mach w)))
    = None →
  Init_loop cl rest i st w =
  (Done (Init_pure cl (reports rest i (host (mach w))) st),
   set_host w (host_after rest (host (mach w)))
     (reports rest i (host (mach w)) ≫= query_events)).
Proof.
  intros Hok. revert i st w.
  induction Hok as [|a rest Ha Hok IH]; intros i st w Hfm.
  { simpl. unfold mret, M_ret. by rewrite set_host_nil. }
  rewrite Init_loop_cons, Init_slot_eq. simpl in *.
  case_bool_decide as Ht.
  - destruct (MXShallowCopyNDArray _ _ _) as [nd h1].
    destruct (MXNDArrayGetContext _ _ _) as [[dt di] h2].
    simpl in *. case_bool_decide; [done|].
    rewrite IH by (by rewrite slot_update_self).
    simpl. by rewrite set_host_set_host.
  - destruct Ha as [?|Ha]; [done|].
    rewrite bool_decide_eq_true_2 by done. by apply IH.
Qed.

Lemma Forall_is_query_events r : Forall (@is_query H) (query_events r).
Proof. repeat constructor. Qed.

(** When every slot is allowed and some report fails the test, the
    loop writes the message for that report and exits; before this
    message it has only queried the host. *)
Lemma Init_loop_Exit cl rest i st w s t :
  Forall (allowed tc) rest →
  first_mismatch (ctx_ (self st)) (report <$> reports rest i (host (mach w)))
    = Some (s, t) →
  ∃ h evs,
    Init_loop cl rest i st w =
      (Stop (Exit (-1)),
       set_host w h (evs ++ [ECout (inconsistent_context s t)])) ∧
    Forall is_query evs.
Proof.
  intros Hok. revert i st w.
  induction Hok as [|a rest Ha Hok IH]; intros i st w Hfm; [done|].
  rewrite Init_loop_cons, Init_slot_eq. simpl in *.
  case_bool_decide as Ht.
  - destruct (MXShallowCopyNDArray _ _ _) as [nd h1].
    destruct (MXNDArrayGetContext _ _ _) as [[dt di] h2].
    simpl in *. case_bool_decide.
    + simplify_eq.
      exists h2, [EShallowCopy (value a) nd; EGetContext nd dt di].
      split; [done|]. repeat constructor.
    + set (r := {| slot := i; src := value a; copy := nd;
                   report := {| dev_type := dt; dev_id := di |} |}).
      destruct (IH (S i) (slot_update cl r st)
                  (set_host w h2 (query_events r)))
        as (h & evs & -> & Hevs).
      { rewrite slot_update_self. exact Hfm. }
      rewrite set_host_set_host, app_assoc.
      exists h, (query_events r ++ evs). split; [done|].
      apply Forall_app. split; [apply Forall_is_query_events|done].
  - destruct Ha as [?|Ha]; [done|].
    rewrite bool_decide_eq_true_2 by done. by apply IH.
Qed.

(** A loop that returns has met allowed slots only and no report that
    fails the test. *)
Lemma Init_loop_Done_inv cl rest i st w st' w' :
  Init_loop cl rest i st w = (Done st', w') →
  Forall (allowed tc) rest ∧
  first_mismatch (ctx_ (self st)) (report <$> reports rest i (host (mach w)))
    = None.
Proof.
  revert i st w. induction rest as [|a rest IH]; intros i st w; [done|].
  rewrite Init_loop_cons, Init_slot_eq. simpl.
  case_bool_decide as Ht.
  - destruct (MXShallowCopyNDArray _ _ _) as [nd h1].
    destruct (MXNDArrayGetContext _ _ _) as [[dt di] h2].
    simpl. case_bool_decide; [done|].
    intros [Hrest Hfm]%IH. rewrite slot_update_self in Hfm.
    split; [|done]. constructor; [by left|done].
  - case_bool_decide; [|done].
    intros [Hrest Hfm]%IH. split; [|done]. constructor; [by right|done].
Qed.




(** *** The test on contexts *)

Lemma mismatch_ne cur c : mismatch cur c → cur ≠ c.
Proof. intros [_ [?|?]] ->; done. Qed.

Lemma not_mismatch_eq cur c : dev_id cur ≠ -1 → ¬ mismatch cur c → c = cur.
Proof.
  unfold mismatch. intros Hid Hm. destruct cur as [dt0 di0], c as [dt di].
  simpl in *. f_equal.
  - destruct (decide (dt = dt0)); [done|]. exfalso. apply Hm. auto.
  - destruct (decide (di = di0)); [done|]. exfalso. apply Hm. auto.
Qed.

Lemma first_mismatch_Some cur cs s t :
  first_mismatch cur cs = Some (s, t) →
  mismatch s t ∧ t ∈ cs ∧ (s = cur ∨ s ∈ cs).
Proof.
  revert cur. induction cs as [|c cs IH]; intros cur; simpl; [done|].
  case_bool_decide as Hm.
  - intros [= <- <-]. split_and!; [done|left|by left].
  - intros (? & ? & [->|?])%IH; split_and!; auto.
    + by right.
    + right; left.
    + by right.
    + right; by right.
Qed.

Lemma first_mismatch_None cur cs :
  first_mismatch cur cs = None → dev_id cur ≠ -1 → Forall (eq cur) cs.
Proof.
  revert cur. induction cs as [|c cs IH]; intros cur; simpl; [done|].
  case_bool_decide as Hm; [done|]. intros Hfm Hid.
  apply not_mismatch_eq in Hm as ->; [|done].
  constructor; [done|]. by apply IH.
Qed.

(** From an unset running context, reports that all carry a device id
    other than -1 pass the test only if they are all equal. *)
Lemma first_mismatch_None_unset cur cs c1 c2 :
  Forall (λ c, dev_id c ≠ -1) cs →
  first_mismatch cur cs = None → dev_id cur = -1 →
  c1 ∈ cs → c2 ∈ cs → c1 = c2.
Proof.
  destruct cs as [|c cs]; simpl; [by inv 4|].
  intros [Hc Hcs]%Forall_cons. case_bool_decide as Hm; [done|].
  intros Hall%first_mismatch_None _; [|done].
  rewrite Forall_forall in Hall.
  intros [->|?%Hall]%elem_of_cons [->|?%Hall]%elem_of_cons; congruence.
Qed.

Lemma first_mismatch_Some_unset cur cs s t :
  first_mismatch cur cs = Some (s, t) → dev_id cur = -1 →
  mismatch s t ∧ s ∈ cs ∧ t ∈ cs.
Proof.
  intros (Hm & Ht & [->|Hs])%first_mismatch_Some Hid; [|done].
  by destruct Hm.
Qed.

(** *** The state left by the loop *)

Lemma Init_pure_snoc cl rs r st :
  Init_pure cl (rs ++ [r]) st = slot_update cl r (Init_pure cl rs st).
Proof. unfold Init_pure. by rewrite foldl_app. Qed.

Lemma Init_pure_self cl rs st :
  self (Init_pure cl rs st) =
  {| func_ := func_ (self st); fset_stream_ := fset_stream_ (self st);
     values_ := values_ (self st);
     type_codes_ := retag (slot <$> rs) (type_codes_ (self st));
     array_handle_ := array_handle_ (self st) ++ (copy <$> rs);
     array_loc_ := array_loc_ (self st) ++ (slot <$> rs);
     ctx_ := default (ctx_ (self st)) (last (report <$> rs)) |}.
Proof.
  induction rs as [|r rs IH] using rev_ind.
  { simpl. rewrite !app_nil_r. by destruct (self st). }
  rewrite Init_pure_snoc, slot_update_self, IH, !fmap_app.
  cbn [fmap list_fmap func_ fset_stream_ values_ type_codes_ array_handle_
       array_loc_ ctx_].
  rewrite last_snoc. unfold retag. rewrite foldl_app, !app_assoc. done.
Qed.

Lemma retag_cons p locs codes :
  retag (p :: locs) codes = retag locs (<[p := kArrayHandle tc]> codes).
Proof. done. Qed.

Lemma retag_snoc locs p codes :
  retag (locs ++ [p]) codes = <[p := kArrayHandle tc]> (retag locs codes).
Proof. unfold retag. by rewrite foldl_app. Qed.

Lemma length_retag locs codes : length (retag locs codes) = length codes.
Proof.
  revert codes. induction locs as [|p locs IH]; intros codes; [done|].
  by rewrite retag_cons, IH, length_insert.
Qed.

Lemma retag_lookup_elem locs codes (p : nat) :
  p ∈ locs → (p < length codes)%nat →
  retag locs codes !! p = Some (kArrayHandle tc).
Proof.
  revert codes. induction locs as [|q locs IH] using rev_ind; intros codes.
  { by inv 1. }
  rewrite retag_snoc.
  intros Hin Hlen. destruct (decide (p = q)) as [->|Hne].
  - apply list_lookup_insert_eq. by rewrite length_retag.
  - rewrite list_lookup_insert_ne by done. apply IH; [|done].
    apply elem_of_app in Hin as [?|Hin]; [done|].
    apply list_elem_of_singleton in Hin. done.
Qed.

Lemma retag_lookup_not_elem locs codes (p : nat) :
  p ∉ locs → retag locs codes !! p = codes !! p.
Proof.
  revert codes. induction locs as [|q locs IH]; intros codes; [done|].
  intros [Hne Hin]%not_elem_of_cons.
  rewrite retag_cons, IH by done. by apply list_lookup_insert_ne.
Qed.

(** *** The tensor slots *)

Lemma elem_of_reports_slot args i h (p : nat) :
  p ∈ slot <$> reports args i h ↔
  (i ≤ p)%nat ∧ ∃ a, args !! (p - i)%nat = Some a ∧ is_tensor tc a.
Proof.
  revert i h. induction args as [|a args IH]; intros i h; simpl.
  { rewrite elem_of_nil. split; [done|]. intros [_ (a & Ha & _)].
    by destruct (p - i)%nat. }
  assert (∀ h', p ∈ slot <$> reports args (S i) h' ↔
    (i < p)%nat ∧ ∃ a', (a :: args) !! (p - i)%nat = Some a' ∧ is_tensor tc a')
    as Htail.
  { intros h'. rewrite IH. split.
    - intros [? (a' & Ha' & ?)]. split; [lia|]. exists a'. split; [|done].
      replace (p - i)%nat with (S (p - S i)) by lia. done.
    - intros [? (a' & Ha' & ?)]. split; [lia|]. exists a'. split; [|done].
      replace (p - i)%nat with (S (p - S i)) in Ha' by lia. done. }
  case_bool_decide as Ht.
  - destruct (MXShallowCopyNDArray _ _ _) as [nd h1].
    destruct (MXNDArrayGetContext _ _ _) as [[dt di] h2].
    rewrite fmap_cons, elem_of_cons, Htail. simpl. split.
    + intros [->|[? ?]]; [|split; [lia|done]].
      split; [done|]. exists a. by rewrite Nat.sub_diag.
    + intros [Hle Ha']. destruct (decide (p = i)) as [->|]; [by left|].
      right. split; [lia|done].
  - rewrite Htail. split.
    + intros [? ?]. split; [lia|done].
    + intros [Hle (a' & Ha' & Hta')]. split; [|by exists a'].
      destruct (decide (p = i)) as [->|]; [|lia].
      rewrite Nat.sub_diag in Ha'. simpl in Ha'. by simplify_eq.
Qed.

Lemma reports_slot_lt args i h :
  Forall (λ p, i ≤ p < i + length args)%nat (slot <$> reports args i h).
Proof.
  apply Forall_forall. intros p [Hle (a & Ha & _)]%elem_of_reports_slot.
  apply lookup_lt_Some in Ha. lia.
Qed.

Lemma reports_slot_sorted args i h :
  StronglySorted lt (slot <$> reports args i h).
Proof.
  revert i h. induction args as [|a args IH]; intros i h; simpl.
  { constructor. }
  case_bool_decide as Ht; [|apply IH].
  destruct (MXShallowCopyNDArray _ _ _) as [nd h1].
  destruct (MXNDArrayGetContext _ _ _) as [[dt di] h2].
  rewrite fmap_cons. constructor; [apply IH|]. simpl.
  eapply Forall_impl; [apply reports_slot_lt|]. simpl. intros; lia.
Qed.

(** *** The cursor over the const positions *)

Lemma sorted_lookup_drop_lt cl (k : nat) x z :
  StronglySorted Z.lt cl → cl !! k = Some x → z ∈ drop (S k) cl → x < z.
Proof.
  intros Hcl Hx Hz. rewrite <-(take_drop_middle cl k x Hx) in Hcl.
  apply StronglySorted_app_1_r, StronglySorted_cons in Hcl as [Hall _].
  rewrite Forall_forall in Hall. auto.
Qed.

Lemma Init_pure_cons cl r rs st :
  Init_pure cl (r :: rs) st = Init_pure cl rs (slot_update cl r st).
Proof. done. Qed.

(** When the const positions are strictly increasing and each of them is
    the slot of a report still to come, the cursor puts a copy among the
    reads exactly when its slot is a const position. *)
Lemma Init_pure_attribution cl rs st :
  StronglySorted Z.lt cl → StronglySorted lt (slot <$> rs) →
  (∀ z, z ∈ drop (const_loc_ptr st) cl →
        ∃ r, r ∈ rs ∧ z = Z.of_nat (slot r)) →
  (∀ z r, z ∈ take (const_loc_ptr st) cl → r ∈ rs → z < Z.of_nat (slot r)) →
  const_nds (Init_pure cl rs st) =
    const_nds st ++ (copy <$> filter (λ r, Z.of_nat (slot r) ∈ cl) rs) ∧
  mutate_nds (Init_pure cl rs st) =
    mutate_nds st ++ (copy <$> filter (λ r, Z.of_nat (slot r) ∉ cl) rs).
Proof.
  intros Hcl. revert st.
  induction rs as [|r rs IH]; intros st Hrs Hdrop Htake.
  { simpl. by rewrite !app_nil_r. }
  rewrite fmap_cons in Hrs. apply StronglySorted_cons in Hrs as [Hr Hrs].
  rewrite Forall_fmap, Forall_forall in Hr. simpl in Hr.
  rewrite Init_pure_cons. unfold slot_update.
  case_bool_decide as Hcur.
  - assert (Z.of_nat (slot r) ∈ cl) as Hin
      by (by eapply list_elem_of_lookup_2).
    match goal with
    | |- context [Init_pure cl rs ?s] => destruct (IH s) as [-> ->]; simpl
    end.
    + done.
    + intros z Hz. pose proof (sorted_lookup_drop_lt _ _ _ _ Hcl Hcur Hz).
      destruct (Hdrop z) as (r' & [->|Hr']%elem_of_cons & ->); [|lia|eauto].
      rewrite (drop_S _ _ _ Hcur). by right.
    + intros z r' Hz Hr'. rewrite (take_S_r _ _ _ Hcur) in Hz.
      apply elem_of_app in Hz as [Hz|Hz].
      * apply Htake; [done|by right].
      * apply list_elem_of_singleton in Hz as ->.
        specialize (Hr _ Hr'). lia.
    + rewrite !filter_cons. rewrite decide_True by done.
      rewrite decide_False by (intros Hn; by apply Hn).
      rewrite fmap_cons, <-!app_assoc. done.
  - assert (Z.of_nat (slot r) ∉ cl) as Hnin.
    { intros Hin. rewrite <-(take_drop (const_loc_ptr st) cl) in Hin.
      apply elem_of_app in Hin as [Hin|Hin].
      { specialize (Htake _ r Hin ltac:(left)). lia. }
      destruct (cl !! const_loc_ptr st) as [x|] eqn:Hx.
      2:{ apply lookup_ge_None in Hx. rewrite drop_ge in Hin by done.
          by apply elem_of_nil in Hin. }
      assert (x ∈ drop (const_loc_ptr st) cl) as Hxin.
      { rewrite (drop_S _ _ _ Hx). left. }
      destruct (Hdrop x Hxin) as (r' & [->|Hr']%elem_of_cons & Hxr);
        [congruence|].
      specialize (Hr _ Hr'). rewrite (drop_S _ _ _ Hx) in Hin.
      apply elem_of_cons in Hin as [Hin|Hin]; [congruence|].
      pose proof (sorted_lookup_drop_lt _ _ _ _ Hcl Hx Hin). lia. }
    match goal with
    | |- context [Init_pure cl rs ?s] => destruct (IH s) as [-> ->]; simpl
    end.
    + done.
    + intros z Hz.
      destruct (Hdrop z Hz) as (r' & [->|Hr']%elem_of_cons & ->); [|eauto].
      exfalso. apply Hnin. rewrite <-(take_drop (const_loc_ptr st) cl).
      apply elem_of_app. by right.
    + intros z r' Hz Hr'. apply Htake; [done|by right].
    + rewrite !filter_cons. rewrite decide_False by done.
      rewrite decide_True by done.
      rewrite fmap_cons, <-!app_assoc. done.
Qed.

(** *** [Init] on a new functor *)

Lemma first_mismatch_unset cur cs :
  dev_id cur = -1 → first_mismatch cur cs = first_inconsistent cs.
Proof.
  intros Hid. destruct cs as [|c cs]; simpl; [done|].
  rewrite bool_decide_eq_false_2; [done|]. by intros [? _].
Qed.

(** A call of [Init] that returns has met allowed slots and consistent
    reports only, and leaves the state [Init_pure] describes. *)
Lemma Init_Done_inv f args cl cn mn w st w' :
  Init api tc f args cl cn mn w = (Done st, w') →
  let rs := reports args 0 (host (mach w)) in
  Forall (allowed tc) args ∧
  first_inconsistent (report <$> rs) = None ∧
  self st =
    {| func_ := func_ f; fset_stream_ := fset_stream_ f;
       values_ := value <$> args;
       type_codes_ := retag (slot <$> rs) (type_code <$> args);
       array_handle_ := array_handle_ f ++ (copy <$> rs);
       array_loc_ := array_loc_ f ++ (slot <$> rs);
       ctx_ := default {| dev_type := dev_type (ctx_ f); dev_id := -1 |}
                 (last (report <$> rs)) |} ∧
  w' = set_host w (host_after args (host (mach w))) (rs ≫= query_events).
Proof.
  unfold Init. intros HInit.
  destruct (Init_loop_Done_inv _ _ _ _ _ _ _ HInit) as [Hok Hfm].
  rewrite Init_loop_Done in HInit by done.
  rewrite first_mismatch_unset in Hfm by done.
  injection HInit as <- <-. by rewrite Init_pure_self.
Qed.

Lemma Init_Done f args cl cn mn w :
  Forall (allowed tc) args →
  first_inconsistent (report <$> reports args 0 (host (mach w))) = None →
  ∃ st w', Init api tc f args cl cn mn w = (Done st, w').
Proof.
  intros Hok Hfm. unfold Init. rewrite Init_loop_Done; [eauto|done|].
  by rewrite first_mismatch_unset.
Qed.

(** A functor initialised from a new one satisfies the invariant that
    [Run] relies on. *)
Lemma Init_functor_wf func fset c0 args cl cn mn w st w' :
  Init api tc (TVMFunctor_new func fset c0) args cl cn mn w = (Done st, w') →
  functor_wf (self st).
Proof.
  intros (_ & _ & -> & _)%Init_Done_inv. unfold functor_wf. simpl.
  rewrite !length_fmap, length_retag, length_fmap. split_and!; [done..|].
  eapply Forall_impl; [apply reports_slot_lt|]. simpl. intros; lia.
Qed.

(** C6: after a successful [Init] of a new functor the positions in
    [array_loc_] are the framework-tensor slots; each of them holds the
    DLPack-tensor tag, every other slot keeps its input tag, and all
    values are the input values; when the two tensor tags are distinct,
    the stored tags differ from the input tags exactly at the positions
    of [array_loc_]. For arguments (tensor H0, k, s) whose last two tags
    are below the sentinel, [Init] succeeds, only position 0 is retagged
    and positions 1 and 2 keep their tags and values. *)
Theorem Init_type_codes func fset c0 cl cn mn w :
  (∀ args st w',
     Init api tc (TVMFunctor_new func fset c0) args cl cn mn w
       = (Done st, w') →
     values_ (self st) = value <$> args ∧
     length (type_codes_ (self st)) = length args ∧
     (∀ p : nat, p ∈ array_loc_ (self st) ↔
                 ∃ a, args !! p = Some a ∧ is_tensor tc a) ∧
     (∀ p : nat, p ∈ array_loc_ (self st) →
                 type_codes_ (self st) !! p = Some (kArrayHandle tc)) ∧
     (∀ p : nat, p ∉ array_loc_ (self st) →
                 type_codes_ (self st) !! p = type_code <$> args !! p) ∧
     (kArrayHandle tc ≠ kTVMNDArrayTypeCode tc →
      ∀ p : nat, p ∈ array_loc_ (self st) ↔
                 type_codes_ (self st) !! p ≠ type_code <$> args !! p)) ∧
  (∀ H0 k s ck cs,
     ck ≠ kTVMNDArrayTypeCode tc → ck < kTVMType tc →
     cs ≠ kTVMNDArrayTypeCode tc → cs < kTVMType tc →
     ∃ st w',
       Init api tc (TVMFunctor_new func fset c0)
         [ {| value := H0; type_code := kTVMNDArrayTypeCode tc |};
           {| value := k; type_code := ck |};
           {| value := s; type_code := cs |} ] cl cn mn w = (Done st, w') ∧
       type_codes_ (self st) = [kArrayHandle tc; ck; cs] ∧
       values_ (self st) = [H0; k; s] ∧
       array_loc_ (self st) = [0%nat]).
Proof.
  split.
  - intros args st w' (_ & _ & -> & _)%Init_Done_inv. simpl.
    set (rs := reports args 0 (host (mach w))).
    assert (∀ p : nat, p ∈ slot <$> rs ↔
                       ∃ a, args !! p = Some a ∧ is_tensor tc a) as Hloc.
    { intros p. unfold rs. rewrite elem_of_reports_slot, Nat.sub_0_r.
      split; [by intros [_ ?]|]. intros ?. split; [lia|done]. }
    assert (∀ p : nat, p ∈ slot <$> rs →
              retag (slot <$> rs) (type_code <$> args) !! p
              = Some (kArrayHandle tc)) as Hin.
    { intros p Hp. apply retag_lookup_elem; [done|].
      apply Hloc in Hp as (a & Ha & _). rewrite length_fmap.
      by eapply lookup_lt_Some. }
    assert (∀ p : nat, p ∉ slot <$> rs →
              retag (slot <$> rs) (type_code <$> args) !! p
              = type_code <$> args !! p) as Hout.
    { intros p Hp. by rewrite retag_lookup_not_elem, list_lookup_fmap. }
    split_and!; [done| |done..|].
    { by rewrite length_retag, length_fmap. }
    intros Hne p. split.
    + intros Hp. rewrite (Hin p Hp).
      apply Hloc in Hp as (a & -> & Ha). simpl. unfold is_tensor in Ha.
      congruence.
    + intros Hp. destruct (decide (p ∈ slot <$> rs)) as [|Hn]; [done|].
      by apply Hout in Hn.
  - intros H0 k s ck cs Hck1 Hck2 Hcs1 Hcs2. unfold Init.
    rewrite Init_loop_Done.
    + eexists _, _. split; [done|]. rewrite Init_pure_self. simpl.
      rewrite (bool_decide_eq_true_2 (is_tensor tc _)) by done.
      rewrite !(bool_decide_eq_false_2 (is_tensor tc _)) by done.
      destruct (MXShallowCopyNDArray _ _ _) as [nd h1].
      destruct (MXNDArrayGetContext _ _ _) as [[dt di] h2]. done.
    + repeat (apply Forall_cons; split); try apply Forall_nil;
        unfold allowed, is_tensor, is_pod; simpl; auto.
    + rewrite first_mismatch_unset by done. simpl.
      rewrite (bool_decide_eq_true_2 (is_tensor tc _)) by done.
      rewrite !(bool_decide_eq_false_2 (is_tensor tc _)) by done.
      destruct (MXShallowCopyNDArray _ _ _) as [nd h1].
      by destruct (MXNDArrayGetContext _ _ _) as [[dt di] h2].
Qed.

Lemma reports_three a0 a1 a2 h :
  is_tensor tc a0 → is_tensor tc a1 → is_tensor tc a2 →
  ∃ n0 n1 n2 c0 c1 c2,
    reports [a0; a1; a2] 0 h =
    [ {| slot := 0; src := value a0; copy := n0; report := c0 |};
      {| slot := 1; src := value a1; copy := n1; report := c1 |};
      {| slot := 2; src := value a2; copy := n2; report := c2 |} ].
Proof.
  intros H0 H1 H2. simpl.
  rewrite !(bool_decide_eq_true_2 (is_tensor tc _)) by done.
  destruct (MXShallowCopyNDArray _ _ _) as [n0 h0].
  destruct (MXNDArrayGetContext _ _ _) as [[dt0 di0] h0'].
  destruct (MXShallowCopyNDArray _ _ _) as [n1 h1].
  destruct (MXNDArrayGetContext _ _ _) as [[dt1 di1] h1'].
  destruct (MXShallowCopyNDArray _ _ _) as [n2 h2].
  destruct (MXNDArrayGetContext _ _ _) as [[dt2 di2] h2'].
  by eexists _, _, _, _, _, _.
Qed.

Lemma Init_attribution_gen func fset c0 args cl w st w' :
  StronglySorted Z.lt cl →
  (∀ z, z ∈ cl → ∃ (p : nat) a,
                   z = Z.of_nat p ∧ args !! p = Some a ∧ is_tensor tc a) →
  Init api tc (TVMFunctor_new func fset c0) args cl [] [] w = (Done st, w') →
  let rs := reports args 0 (host (mach w)) in
  array_loc_ (self st) = slot <$> rs ∧
  array_handle_ (self st) = copy <$> rs ∧
  const_nds st = copy <$> filter (λ r, Z.of_nat (slot r) ∈ cl) rs ∧
  mutate_nds st = copy <$> filter (λ r, Z.of_nat (slot r) ∉ cl) rs.
Proof.
  intros Hcl Hpos HInit rs.
  pose proof HInit as (_ & _ & Hself & _)%Init_Done_inv.
  pose proof HInit as [Hok Hfm]%Init_loop_Done_inv.
  unfold Init in HInit. rewrite Init_loop_Done in HInit by done.
  injection HInit as <- _. fold rs in Hself |- *.
  destruct (Init_pure_attribution cl rs
              {| self := {| func_ := func; fset_stream_ := fset;
                            values_ := value <$> args;
                            type_codes_ := type_code <$> args;
                            array_handle_ := []; array_loc_ := [];
                            ctx_ := {| dev_type := dev_type c0;
                                       dev_id := -1 |} |};
                 const_loc_ptr := 0; const_nds := []; mutate_nds := [] |})
    as [Hc Hm]; simpl.
  { done. }
  { apply reports_slot_sorted. }
  { intros z (p & a & -> & Ha & Hta)%Hpos.
    assert (p ∈ slot <$> rs) as (r & -> & Hr)%list_elem_of_fmap; [|eauto].
    apply elem_of_reports_slot. rewrite Nat.sub_0_r. split; [lia|eauto]. }
  { intros z r Hz. by apply elem_of_nil in Hz. }
  simpl in Hc, Hm. rewrite Hself. simpl. by split_and!.
Qed.

(** C5: for strictly increasing const positions that all are
    framework-tensor slots of [args], a successful [Init] puts the shallow
    copy made for a tensor slot among the reads when the slot is a const
    position, and among the writes otherwise. With const positions [0,1]
    over three tensors the reads are the copies made for slots 0 and 1
    and the writes the copy made for slot 2. *)
Theorem Init_attribution func fset c0 w :
  (∀ args cl st w',
     StronglySorted Z.lt cl →
     (∀ z, z ∈ cl → ∃ (p : nat) a,
                      z = Z.of_nat p ∧ args !! p = Some a ∧ is_tensor tc a) →
     Init api tc (TVMFunctor_new func fset c0) args cl [] [] w
       = (Done st, w') →
     let rs := reports args 0 (host (mach w)) in
     array_loc_ (self st) = slot <$> rs ∧
     array_handle_ (self st) = copy <$> rs ∧
     const_nds st = copy <$> filter (λ r, Z.of_nat (slot r) ∈ cl) rs ∧
     mutate_nds st = copy <$> filter (λ r, Z.of_nat (slot r) ∉ cl) rs) ∧
  (∀ a0 a1 a2 st w',
     is_tensor tc a0 → is_tensor tc a1 → is_tensor tc a2 →
     Init api tc (TVMFunctor_new func fset c0) [a0; a1; a2] [0; 1] [] [] w
       = (Done st, w') →
     ∃ n0 n1 n2,
       copy <$> reports [a0; a1; a2] 0 (host (mach w)) = [n0; n1; n2] ∧
       const_nds st = [n0; n1] ∧ mutate_nds st = [n2]).
Proof.
  split; [intros; by eapply Init_attribution_gen|].
  intros a0 a1 a2 st w' H0 H1 H2 HInit.
  eapply Init_attribution_gen in HInit as (_ & _ & -> & ->).
  - destruct (reports_three a0 a1 a2 (host (mach w)) H0 H1 H2)
      as (n0 & n1 & n2 & c0' & c1 & c2 & ->).
    exists n0, n1, n2. split; [done|]. split.
    + by rewrite !filter_cons, filter_nil.
    + by rewrite !filter_cons, filter_nil.
  - repeat constructor; lia.
  - intros z Hz. apply elem_of_cons in Hz as [->|Hz].
    { exists 0%nat, a0. done. }
    apply list_elem_of_singleton in Hz as ->. exists 1%nat, a1. done.
Qed.

(** *** Failures of [Init] *)






(** *** The wrapped call *)

(** The destructor always returns, after one call of [MXNDArrayFree]
    for each handle, in order; it leaves the thread-local state alone. *)
Lemma TVMFunctor_free_spec (handles : list NDArrayHandle) w :
  ∃ w', TVMFunctor_free api handles w = (Done (), w') ∧
        trace w' = trace w ++ (EFree <$> handles) ∧
        mach w' = {| host := after_frees api handles (host (mach w));
                     DEV_ID := DEV_ID (mach w); STRM := STRM (mach w) |}.
Proof.
  revert w. induction handles as [|nd handles IH]; intros w; simpl.
  { eexists. split_and!; [done| |by destruct (mach w)]. by rewrite app_nil_r. }
  unfold mbind, M_bind, emit, call_host. simpl.
  edestruct IH as (w' & -> & Htr & Hm). eexists. split; [done|].
  rewrite Htr, Hm. simpl. by rewrite <-app_assoc.
Qed.

(** The release of one of the owners of a functor: the last one frees
    the stored handles, any other one does nothing. *)
Lemma shared_ptr_release_eq owners (f : @TVMFunctor H) w :
  shared_ptr_release api owners f w =
  (Done (),
   if bool_decide (owners = 1%nat) then
     set_host w (after_frees api (array_handle_ f) (host (mach w)))
       (EFree <$> array_handle_ f)
   else w).
Proof.
  unfold shared_ptr_release. case_bool_decide; [|done].
  destruct (TVMFunctor_free_spec (array_handle_ f) w) as (w' & -> & Htr & Hm).
  f_equal. destruct w' as [m' tr']. simpl in Htr, Hm. by subst.
Qed.

(** The world when the lambda [wrapped] returns: after the push, and
    after the frees of the stored handles when the engine has already
    deleted the task. *)
Lemma wrapped_eq func fset cl args w :
  wrapped api tc func fset cl args w =
  match Init api tc (TVMFunctor_new func fset
                       (indeterminate api (host (mach w)))) args cl [] [] w with
  | (Done st, w1) =>
      let nds :=
        Dedup.DeduplicateNDArrayHandle (const_nds st) (mutate_nds st) in
      let w2 :=
        set_host w1
          (MXEnginePushSyncND api (ctx_ (self st)) nds.1 nds.2
             (host (mach w1)))
          [EPushSync {| ps_ctx := ctx_ (self st); ps_func := self st |}
             nds.1 nds.2] in
      (Done (),
       if task_deleted api (host (mach w2)) then
         set_host w2
           (after_frees api (array_handle_ (self st)) (host (mach w2)))
           (EFree <$> array_handle_ (self st))
       else w2)
  | (Stop f, w1) => (Stop f, w1)
  end.
Proof.
  unfold wrapped, mbind, M_bind, read_host. simpl.
  destruct (Init _ _ _ _ _ _ _ _) as [[st|f] w1]; [|done].
  unfold emit, call_host. simpl. rewrite shared_ptr_release_eq. simpl.
  by destruct (task_deleted api _).
Qed.

(** C2, as the code has it: when two framework-tensor arguments report
    different device contexts, no reported device id is -1 and every
    other slot carries a tag below the sentinel, the wrapped call writes
    the message naming two different reported contexts and exits with
    status -1; up to then it has only queried the host, so no push_sync
    is issued. *)
Theorem wrapped_inconsistent_context func fset cl args w :
  let cs := report <$> reports args 0 (host (mach w)) in
  Forall (allowed tc) args →
  Forall (λ c, dev_id c ≠ -1) cs →
  (∃ c1 c2, c1 ∈ cs ∧ c2 ∈ cs ∧ c1 ≠ c2) →
  ∃ s t h evs,
    wrapped api tc func fset cl args w =
      (Stop (Exit (-1)),
       set_host w h (evs ++ [ECout (inconsistent_context s t)])) ∧
    s ∈ cs ∧ t ∈ cs ∧ s ≠ t ∧
    Forall (λ e, ¬ is_push_sync e)
      (evs ++ [ECout (inconsistent_context s t)]).
Proof.
  intros cs Hok Hid (c1 & c2 & Hc1 & Hc2 & Hne).
  set (c0 := {| dev_type := dev_type (indeterminate api (host (mach w)));
                dev_id := -1 |}).
  destruct (first_mismatch c0 cs) as [[s t]|] eqn:Hfm.
  2:{ destruct Hne.
      by eapply (first_mismatch_None_unset c0 cs). }
  destruct (first_mismatch_Some_unset _ _ _ _ Hfm) as (Hm & Hs & Ht); [done|].
  rewrite wrapped_eq. unfold Init.
  edestruct Init_loop_Exit as (h & evs & -> & Hevs); [done|exact Hfm|].
  exists s, t, h, evs. split_and!; [done..|by apply mismatch_ne|].
  apply Forall_app. split.
  - eapply Forall_impl; [exact Hevs|]. intros []; simpl; tauto.
  - constructor; [|done]. simpl. tauto.
Qed.

End init_facts.

(* ================================================================== *)
(** * Properties of [TVMFunctor::Run] *)

Section run_facts.
Context {H : Type} (api : @Host H) (tc : Codes).
Implicit Types (f : @TVMFunctor H) (w : @World H) (rctx : RunContext)
  (dlms : list DLManagedTensorHandle) (locs : list nat) (values : list Z).

Lemma bind_Done_inv {A B} (m : @M H A) (k : A → @M H B) w b w' :
  (m ≫= k) w = (Done b, w') →
  ∃ a w1, m w = (Done a, w1) ∧ k a w1 = (Done b, w').
Proof.
  unfold mbind, M_bind. destruct (m w) as [[a|fl] w1]; [eauto|done].
Qed.

Lemma emit_eq (e : @Event H) w :
  emit e w = (Done (), {| mach := mach w; trace := trace w ++ [e] |}).
Proof. done. Qed.

(** The second loop of [Run] always returns, after one call of the
    deleter for each entry of [dlms], in order. *)
Lemma Run_delete_trace dlms w :
  ∃ w', Run_delete api dlms w = (Done (), w') ∧
        trace w' = trace w ++ (EDeleter <$> dlms).
Proof.
  revert w. induction dlms as [|dlm dlms IH]; intros w; simpl.
  { eexists. split; [done|]. by rewrite app_nil_r. }
  unfold mbind, M_bind, emit, call_host. simpl.
  edestruct IH as (w' & -> & Htr). eexists. split; [done|].
  rewrite Htr. simpl. by rewrite <-app_assoc.
Qed.

(** The first loop of [Run]: when it returns, it has made one managed
    tensor for each of the next [length locs] stored handles and written
    them to [dlms] from index [i] on. *)
Lemma Run_setup_inv f locs i values dlms w values' dlms' w' :
  Run_setup api f locs i values dlms w = (Done (values', dlms'), w') →
  (i + length locs ≤ length dlms)%nat →
  ∃ new,
    length new = length locs ∧
    dlms' = take i dlms ++ new ++ drop (i + length locs) dlms ∧
    trace w' = trace w ++ zip_with EToDLPack (drop i (array_handle_ f)) new ∧
    (length locs ≤ length (array_handle_ f) - i)%nat ∧
    length values' = length values.
Proof.
  revert i values dlms w.
  induction locs as [|loc locs IH]; intros i values dlms w; simpl.
  { intros [= <- <- <-] Hlen. exists []. rewrite Nat.add_0_r. simpl.
    rewrite take_drop. split_and!; [done..| | |done].
    - rewrite zip_with_nil_r. by rewrite app_nil_r.
    - lia. }
  destruct (array_handle_ f !! i) as [nd|] eqn:Hnd; [|done].
  intros (dlm & w1 & Hcall & Hrest)%bind_Done_inv Hlen.
  apply bind_Done_inv in Hrest as ([] & w2 & Hemit & Hrest).
  rewrite emit_eq in Hemit. injection Hemit as <-.
  unfold call_host in Hcall.
  destruct (MXNDArrayToDLPack api nd (host (mach w))) as [dlm' h1] eqn:Hdl.
  injection Hcall as -> <-. simpl in Hrest.
  case_bool_decide as Hloc; [|done].
  apply IH in Hrest as (new & Hnew & -> & -> & Hh & Hv);
    [|rewrite length_insert; lia].
  exists (dlm :: new). simpl. rewrite length_insert in Hv.
  split_and!; [by rewrite Hnew| | | |done].
  - rewrite drop_insert_lt by lia.
    rewrite (take_S_r _ _ dlm) by (apply list_lookup_insert_eq; lia).
    rewrite take_insert_ge by lia. rewrite <-app_assoc. simpl.
    by rewrite Nat.add_succ_r.
  - rewrite (drop_S _ _ _ Hnd). simpl. by rewrite <-app_assoc.
  - apply lookup_lt_Some in Hnd. lia.
Qed.


Lemma call_body_Done_inv (b : @Machine H → option Machine) w u w' :
  call_body b w = (Done u, w') → trace w' = trace w.
Proof.
  unfold call_body. destruct (b (mach w)); [|done]. by intros [= _ <-].
Qed.

Lemma call_set_stream_Done_inv f dt di strm w u w' :
  call_set_stream f dt di strm w = (Done u, w') →
  trace w' = trace w ++ [ESetStream dt di strm].
Proof.
  unfold call_set_stream.
  intros ([] & w1 & [= <-] & ->%call_body_Done_inv)%bind_Done_inv. done.
Qed.

Lemma CallPacked_Done_inv f args w u w' :
  CallPacked f args w = (Done u, w') →
  trace w' = trace w ++ [ECallPacked args].
Proof.
  unfold CallPacked.
  intros ([] & w1 & [= <-] & ->%call_body_Done_inv)%bind_Done_inv. done.
Qed.

(** The events of a call of [Run] that returns. *)
Lemma Run_inv f rctx w f' w' :
  Run api tc f rctx w = (Done f', w') →
  ∃ values dlms w1,
    Run_setup api f (array_loc_ f) 0 (values_ f)
      (replicate (length (array_loc_ f)) 0) w = (Done (values, dlms), w1) ∧
    length dlms = length (array_loc_ f) ∧
    (length (array_loc_ f) ≤ length (array_handle_ f))%nat ∧
    trace w1 = trace w ++ zip_with EToDLPack (array_handle_ f) dlms ∧
    trace w' =
      trace w1 ++
      Run_calls tc f rctx (load api (stream rctx) (host (mach w1)))
        (zip_with Build_TVMArg values (type_codes_ f)) ++
      (EDeleter <$> dlms).
Proof.
  unfold Run.
  intros ([values dlms] & w1 & Hsetup & Hrest)%bind_Done_inv.
  exists values, dlms, w1. split; [done|].
  apply Run_setup_inv in Hsetup as (new & Hnew & Hdlms & Htr & Hlen & _);
    [|by rewrite length_replicate].
  simpl in Hdlms. rewrite drop_ge, app_nil_r in Hdlms
    by (by rewrite length_replicate). subst new.
  rewrite Nat.sub_0_r in Hlen. split_and!; [done..|].
  case_bool_decide; [|done].
  apply bind_Done_inv in Hrest as ([] & w2 & Hcalls & Hrest).
  apply bind_Done_inv in Hrest as ([] & w3 & Hdel & Hret).
  unfold mret, M_ret in Hret. injection Hret as _ <-.
  destruct (Run_delete_trace dlms w2) as (w3' & Hdel' & Htr3).
  rewrite Hdel in Hdel'. injection Hdel' as <-. rewrite Htr3.
  rewrite app_assoc. f_equal. unfold Run_calls.
  case_bool_decide.
  - apply bind_Done_inv in Hcalls as (strm & w4 & [= <- <-] & Hcalls).
    apply bind_Done_inv in Hcalls as ([] & w5 & Hs1 & Hcalls).
    apply bind_Done_inv in Hcalls as ([] & w6 & Hs2 & Hs3).
    apply call_set_stream_Done_inv in Hs1, Hs3.
    apply CallPacked_Done_inv in Hs2.
    rewrite Hs3, Hs2, Hs1, <-!app_assoc. done.
  - by apply CallPacked_Done_inv in Hcalls.
Qed.


Lemma bind_Stop_inv {A B} (m : @M H A) (k : A → @M H B) w fl w' :
  (m ≫= k) w = (Stop fl, w') →
  m w = (Stop fl, w') ∨ ∃ a w1, m w = (Done a, w1) ∧ k a w1 = (Stop fl, w').
Proof.
  unfold mbind, M_bind. destruct (m w) as [[a|fl'] w1]; [eauto|].
  intros [= -> ->]. by left.
Qed.

Lemma Run_setup_Stop f locs i values dlms w fl w' :
  Run_setup api f locs i values dlms w = (Stop fl, w') → fl = Undefined.
Proof.
  revert i values dlms w.
  induction locs as [|loc locs IH]; intros i values dlms w; simpl; [done|].
  destruct (array_handle_ f !! i) as [nd|]; [|by intros [= <- _]].
  unfold mbind, M_bind, call_host, emit.
  destruct (MXNDArrayToDLPack api nd (host (mach w))) as [dlm h1]. simpl.
  case_bool_decide; [apply IH|by intros [= <- _]].
Qed.

Lemma call_body_Stop_inv (b : @Machine H → option Machine) w fl w' :
  call_body b w = (Stop fl, w') → fl = Thrown ∧ w' = w.
Proof.
  unfold call_body. destruct (b (mach w)); [done|]. by intros [= <- <-].
Qed.

Lemma call_set_stream_Stop_inv f dt di strm w fl w' :
  call_set_stream f dt di strm w = (Stop fl, w') →
  trace w' = trace w ++ [ESetStream dt di strm].
Proof.
  unfold call_set_stream.
  intros [[=]|([] & w1 & [= <-] & [_ ->]%call_body_Stop_inv)]%bind_Stop_inv.
  done.
Qed.

Lemma CallPacked_Stop_inv f args w fl w' :
  CallPacked f args w = (Stop fl, w') →
  trace w' = trace w ++ [ECallPacked args].
Proof.
  unfold CallPacked.
  intros [[=]|([] & w1 & [= <-] & [_ ->]%call_body_Stop_inv)]%bind_Stop_inv.
  done.
Qed.







End run_facts.

(* ================================================================== *)
(** * Properties of the registry *)

Section registry_facts.
Context {H : Type} (api : @Host H) (tc : Codes).
Implicit Types (reg : @Registry H) (name : string) (pfunc : @TVMFunc H)
  (cl : list Z).

Local Abbreviation GetMXNetFunc := (GetMXNetFunc api tc).
Local Abbreviation WrapAsyncCall := (WrapAsyncCall api tc).

Lemma GetMXNetFunc_hit name pfunc cl reg c :
  FUNCTIONS reg !! name = Some c →
  GetMXNetFunc name pfunc cl reg = (fc_func_ c, reg).
Proof. unfold GetMXNetFunc. by intros ->. Qed.

Lemma GetMXNetFunc_miss name pfunc cl reg :
  FUNCTIONS reg !! name = None →
  GetMXNetFunc name pfunc cl reg =
  (Some (length (objects reg)),
   {| FUNCTIONS := <[name := {| fc_func_ := Some (length (objects reg)) |}]>
                     (FUNCTIONS reg);
      objects := objects reg ++ [WrapAsyncCall pfunc set_stream cl] |}).
Proof.
  unfold GetMXNetFunc, FUNCTIONS_at, FunctionContainer_reset. intros ->.
  simpl. rewrite lookup_insert_eq. simpl. by rewrite insert_insert_eq.
Qed.

(** An entry and the object it owns stay as they are through any call. *)
Lemma GetMXNetFunc_keeps name' pfunc cl reg name a pf :
  FUNCTIONS reg !! name = Some {| fc_func_ := Some a |} →
  objects reg !! a = Some pf →
  let reg' := (GetMXNetFunc name' pfunc cl reg).2 in
  FUNCTIONS reg' !! name = Some {| fc_func_ := Some a |} ∧
  objects reg' !! a = Some pf.
Proof.
  intros Hname Ha.
  destruct (FUNCTIONS reg !! name') as [c|] eqn:Hname'.
  - by rewrite (GetMXNetFunc_hit _ _ _ _ _ Hname').
  - rewrite (GetMXNetFunc_miss _ _ _ _ Hname'). simpl. split.
    + rewrite lookup_insert_ne; [done|]. congruence.
    + by apply lookup_app_l_Some.
Qed.

Lemma GetMXNetFunc_all_keeps calls reg name a pf :
  FUNCTIONS reg !! name = Some {| fc_func_ := Some a |} →
  objects reg !! a = Some pf →
  FUNCTIONS (GetMXNetFunc_all api tc calls reg) !! name
    = Some {| fc_func_ := Some a |} ∧
  objects (GetMXNetFunc_all api tc calls reg) !! a = Some pf.
Proof.
  revert reg. induction calls as [|[[n f] cl] calls IH]; intros reg; [done|].
  intros Hname Ha. simpl.
  destruct (GetMXNetFunc_keeps n f cl reg name a pf Hname Ha). by apply IH.
Qed.

(** C3: two calls of [GetMXNetFunc] with one name return the same
    pointer, and the second leaves the registry as it is, whatever
    function and const positions it is given. When the first call is the
    first with that name, the pointer refers to the wrapping of its
    function [f1], and every later call with that name, after any other
    calls, returns this pointer, still referring to the wrapping of
    [f1]. *)
Theorem GetMXNetFunc_cached name f1 cl1 f2 cl2 reg :
  let r1 := GetMXNetFunc name f1 cl1 reg in
  let r2 := GetMXNetFunc name f2 cl2 r1.2 in
  r2.1 = r1.1 ∧ r2.2 = r1.2 ∧
  (FUNCTIONS reg !! name = None →
   deref r1.2 r1.1 = Some (WrapAsyncCall f1 set_stream cl1) ∧
   ∀ later f3 cl3,
     let r3 :=
       GetMXNetFunc name f3 cl3 (GetMXNetFunc_all api tc later r1.2) in
     r3.1 = r1.1 ∧
     deref r3.2 r3.1 = Some (WrapAsyncCall f1 set_stream cl1)).
Proof.
  intros r1 r2.
  destruct (FUNCTIONS reg !! name) as [c|] eqn:Hname.
  { unfold r2, r1. rewrite (GetMXNetFunc_hit _ _ _ _ _ Hname). simpl.
    by rewrite (GetMXNetFunc_hit _ _ _ _ _ Hname). }
  unfold r2, r1. rewrite (GetMXNetFunc_miss _ _ _ _ Hname). simpl.
  set (a := length (objects reg)).
  set (reg1 := {| FUNCTIONS := _; objects := _ |}).
  assert (FUNCTIONS reg1 !! name = Some {| fc_func_ := Some a |}) as H1.
  { apply lookup_insert_eq. }
  assert (objects reg1 !! a = Some (WrapAsyncCall f1 set_stream cl1)) as H2.
  { simpl. by rewrite lookup_app_r, Nat.sub_diag. }
  rewrite (GetMXNetFunc_hit _ _ _ _ _ H1). simpl.
  split_and!; [done..|]. intros _. split; [done|].
  intros later f3 cl3.
  destruct (GetMXNetFunc_all_keeps later reg1 name a _ H1 H2) as [H3 H4].
  rewrite (GetMXNetFunc_hit _ _ _ _ _ H3). simpl. done.
Qed.

End registry_facts.

(* ================================================================== *)
(** * The statements at concrete calls *)

Section examples.

Example example_init_gpu :
  (example_init all_gpu0).1 = Done (example_state all_gpu0) ∧
  const_loc_ptr (example_state all_gpu0) = 2%nat ∧
  const_nds (example_state all_gpu0) = [1000; 1001] ∧
  mutate_nds (example_state all_gpu0) = [1002].
Proof. by split_and!. Qed.

Example example_functor_type_codes :
  type_codes_ (example_functor all_gpu0) = [7; 7; 7] ∧
  array_loc_ (example_functor all_gpu0) = [0; 1; 2]%nat ∧
  array_handle_ (example_functor all_gpu0) = [1000; 1001; 1002].
Proof. by split_and!. Qed.

Example example_run_gpu_trace :
  trace (example_run all_gpu0).2 =
  trace (example_init all_gpu0).2 ++
  [EToDLPack 1000 6000; EToDLPack 1001 6001; EToDLPack 1002 6002;
   ESetStream 2 0 72;
   ECallPacked [ {| value := 6000; type_code := 7 |};
                 {| value := 6001; type_code := 7 |};
                 {| value := 6002; type_code := 7 |} ];
   ESetStream 2 0 0;
   EDeleter 6000; EDeleter 6001; EDeleter 6002].
Proof. reflexivity. Qed.

(** The two ways in which the statement of C2 fails on the code. With a
    slot between the two tensors that is not allowed, the assertion fails
    before the second tensor is queried: nothing is written to
    [std::cout]. With a first tensor that reports the device id -1, the
    running context still counts as unset when the second tensor is
    compared: [Init] returns and the push_sync is issued. *)
Lemma wrapped_inconsistent_context_counterexample :
  (report <$> reports (example_host gpu0_then_gpu1) example_codes
                not_pod_between_tensors 0 0%nat
   = [ {| dev_type := 2; dev_id := 0 |}; {| dev_type := 2; dev_id := 1 |} ] ∧
   (wrapped (example_host gpu0_then_gpu1) example_codes example_func
      set_stream [0] not_pod_between_tensors example_world).1
   = Stop (CheckFailed only_pod) ∧
   filter is_cout
     (trace (wrapped (example_host gpu0_then_gpu1) example_codes example_func
               set_stream [0] not_pod_between_tensors example_world).2)
   = []) ∧
  (report <$> reports (example_host gpu_minus1_then_gpu0) example_codes
                two_tensors 0 0%nat
   = [ {| dev_type := 2; dev_id := -1 |}; {| dev_type := 2; dev_id := 0 |} ] ∧
   (wrapped (example_host gpu_minus1_then_gpu0) example_codes example_func
      set_stream [0] two_tensors example_world).1
   = Done () ∧
   Exists is_push_sync
     (trace (wrapped (example_host gpu_minus1_then_gpu0) example_codes
               example_func set_stream [0] two_tensors example_world).2)).
Proof.
  split; (split_and!; [reflexivity..|]); [reflexivity|].
  apply (bool_decide_unpack _). vm_compute. exact I.
Qed.

Lemma wrapped_inconsistent_context_witness :
  Forall (allowed example_codes) two_tensors ∧
  Forall (λ c, dev_id c ≠ -1)
    (report <$> reports (example_host gpu0_then_gpu1) example_codes
                  two_tensors 0 0%nat) ∧
  ∃ s t h evs,
    wrapped (example_host gpu0_then_gpu1) example_codes example_func
      set_stream [0] two_tensors example_world =
      (Stop (Exit (-1)),
       set_host example_world h
         (evs ++ [ECout (inconsistent_context s t)])) ∧
    s ∈ report <$> reports (example_host gpu0_then_gpu1) example_codes
                     two_tensors 0 0%nat ∧
    t ∈ report <$> reports (example_host gpu0_then_gpu1) example_codes
                     two_tensors 0 0%nat ∧
    s ≠ t ∧
    Forall (λ e, ¬ is_push_sync e)
      (evs ++ [ECout (inconsistent_context s t)]).
Proof.
  assert (Forall (allowed example_codes) two_tensors) as H1.
  { apply (bool_decide_unpack _). vm_compute. exact I. }
  assert (Forall (λ c, dev_id c ≠ -1)
            (report <$> reports (example_host gpu0_then_gpu1) example_codes
                          two_tensors 0 0%nat)) as H2.
  { apply (bool_decide_unpack _). vm_compute. exact I. }
  split; [exact H1|]. split; [exact H2|].
  apply (wrapped_inconsistent_context (example_host gpu0_then_gpu1)
           example_codes example_func set_stream [0] two_tensors
           example_world H1 H2).
  exists {| dev_type := 2; dev_id := 0 |}, {| dev_type := 2; dev_id := 1 |}.
  split; [left|]. split; [right; left|]. discriminate.
Defined.

(** At the message of the witness: the line names both contexts. *)
Example inconsistent_context_line :
  inconsistent_context {| dev_type := 2; dev_id := 0 |}
    {| dev_type := 2; dev_id := 1 |}
  = "Inconsistent context: source(2:0) vs target: (2:1)".
Proof. reflexivity. Qed.



Lemma GetMXNetFunc_cached_witness :
  FUNCTIONS empty_registry !! "conv_fwd" = None ∧
  (GetMXNetFunc (example_host all_gpu0) example_codes "conv_fwd"
     (λ _ _, None) [2]
     (GetMXNetFunc (example_host all_gpu0) example_codes "conv_fwd"
        example_func [1; 0] empty_registry).2).1 = Some 0%nat ∧
  deref
    (GetMXNetFunc (example_host all_gpu0) example_codes "conv_fwd"
       example_func [1; 0] empty_registry).2 (Some 0%nat)
  = Some (WrapAsyncCall (example_host all_gpu0) example_codes example_func
            set_stream [1; 0]).
Proof.
  assert (FUNCTIONS empty_registry !! "conv_fwd" = None) as Hnew
    by (vm_compute; reflexivity).
  split; [exact Hnew|].
  pose proof (GetMXNetFunc_cached (example_host all_gpu0) example_codes
                "conv_fwd" example_func [1; 0] (λ _ _, None) [2]
                empty_registry) as (Hptr & _ & Hfirst).
  split; [exact Hptr|]. exact (proj1 (Hfirst Hnew)).
Defined.




Lemma Init_attribution_witness :
  StronglySorted Z.lt [0; 1] ∧
  (example_init all_gpu0).1 = Done (example_state all_gpu0) ∧
  const_nds (example_state all_gpu0) =
    copy <$> filter (λ r, Z.of_nat (slot r) ∈ [0; 1])
               (reports (example_host all_gpu0) example_codes example_args
                  0 0%nat) ∧
  mutate_nds (example_state all_gpu0) =
    copy <$> filter (λ r, Z.of_nat (slot r) ∉ [0; 1])
               (reports (example_host all_gpu0) example_codes example_args
                  0 0%nat).
Proof.
  assert (StronglySorted Z.lt [0; 1]) as Hcl by (repeat constructor; lia).
  assert (∀ z, z ∈ [0; 1] →
            ∃ (p : nat) a, z = Z.of_nat p ∧ example_args !! p = Some a ∧
                           is_tensor example_codes a) as Hpos.
  { intros z Hz. apply elem_of_cons in Hz as [->|Hz].
    { by exists 0%nat, (tensor_arg 100). }
    apply list_elem_of_singleton in Hz as ->.
    by exists 1%nat, (tensor_arg 200). }
  assert (Init (example_host all_gpu0) example_codes example_new example_args
            [0; 1] [] [] example_world
          = (Done (example_state all_gpu0), (example_init all_gpu0).2))
    as HInit by (vm_compute; reflexivity).
  split; [exact Hcl|]. split; [vm_compute; reflexivity|].
  exact (proj2 (proj2 (proj1 (Init_attribution (example_host all_gpu0)
                                example_codes example_func set_stream
                                {| dev_type := 0; dev_id := 0 |}
                                example_world)
                         example_args [0; 1] _ _ Hcl Hpos HInit))).
Defined.

Lemma Init_type_codes_witness :
  (Init (example_host all_gpu0) example_codes example_new example_args
     [0; 1] [] [] example_world
   = (Done (example_state all_gpu0), (example_init all_gpu0).2) ∧
   values_ (example_functor all_gpu0) = value <$> example_args) ∧
  ∃ st w',
    Init (example_host all_cpu0) example_codes example_new pod_passthrough
      [] [] [] example_world = (Done st, w') ∧
    type_codes_ (self st) = [7; 0; 2] ∧
    values_ (self st) = [100; 42; 1065353216] ∧
    array_loc_ (self st) = [0%nat].
Proof.
  assert (Init (example_host all_gpu0) example_codes example_new example_args
            [0; 1] [] [] example_world
          = (Done (example_state all_gpu0), (example_init all_gpu0).2))
    as HInit by (vm_compute; reflexivity).
  split.
  - split; [exact HInit|].
    exact (proj1 (proj1 (Init_type_codes (example_host all_gpu0)
                           example_codes example_func set_stream
                           {| dev_type := 0; dev_id := 0 |} [0; 1] [] []
                           example_world) example_args _ _ HInit)).
  - apply (proj2 (Init_type_codes (example_host all_cpu0) example_codes
                    example_func set_stream {| dev_type := 0; dev_id := 0 |}
                    [] [] [] example_world) 100 42 1065353216 0 2);
      vm_compute; congruence.
Defined.


End examples.

(* ================================================================== *)
(** * Further properties of [Init] and of the wrapped call *)

Section init_more.
Context {H : Type} (api : @Host H) (tc : Codes).
Implicit Types (st : @InitState H) (w : @World H) (a : TVMArg)
  (args rest : TVMArgs) (cl : list Z) (h : H) (r : Report)
  (rs : list Report) (cur c : Context).

Local Abbreviation Init_slot := (Init_slot api tc).
Local Abbreviation Init_loop := (Init_loop api tc).
Local Abbreviation reports := (reports api tc).
Local Abbreviation host_after := (host_after api tc).
Local Abbreviation slot_update := (slot_update tc).
Local Abbreviation Init_pure := (Init_pure tc).

(** Whatever its outcome, the loop of [Init] only appends shallow
    copies, context queries and lines on [std::cout] to the trace. *)
Lemma Init_loop_trace cl rest i st w :
  ∃ evs, trace (Init_loop cl rest i st w).2 = trace w ++ evs ∧
         Forall is_init_event evs.
Proof.
  revert i st w. induction rest as [|a rest IH]; intros i st w.
  { exists []. simpl. by rewrite app_nil_r. }
  rewrite Init_loop_cons, Init_slot_eq.
  case_bool_decide as Ht.
  - destruct (MXShallowCopyNDArray _ _ _) as [nd h1].
    destruct (MXNDArrayGetContext _ _ _) as [[dt di] h2].
    simpl. case_bool_decide.
    + eexists. split; [done|]. repeat constructor.
    + edestruct IH as (evs & -> & Hevs). simpl. rewrite <-app_assoc.
      eexists. split; [done|]. simpl. by repeat constructor.
  - case_bool_decide.
    + apply IH.
    + exists []. simpl. by rewrite app_nil_r.
Qed.

(** Each copy goes to exactly one of the two output vectors. *)
Lemma Init_pure_nds cl rs st :
  const_nds (Init_pure cl rs st) ++ mutate_nds (Init_pure cl rs st) ≡ₚ
  const_nds st ++ mutate_nds st ++ (copy <$> rs).
Proof.
  revert st. induction rs as [|r rs IH]; intros st.
  { simpl. by rewrite app_nil_r. }
  rewrite Init_pure_cons, IH. unfold slot_update. case_bool_decide; simpl.
  - rewrite <-!app_assoc. apply Permutation_app_head. simpl.
    apply Permutation_middle.
  - rewrite <-!app_assoc. done.
Qed.

Lemma copies_made_app (evs1 evs2 : list (@Event H)) :
  copies_made (evs1 ++ evs2) = copies_made evs1 ++ copies_made evs2.
Proof. apply omap_app. Qed.

Lemma copies_made_queries rs :
  copies_made (rs ≫= @query_events H) = copy <$> rs.
Proof.
  induction rs as [|r rs IH]; [done|].
  rewrite bind_cons, copies_made_app, IH. done.
Qed.

Lemma Forall_is_query_reports rs : Forall (@is_query H) (rs ≫= query_events).
Proof.
  induction rs as [|r rs IH]; [done|].
  rewrite bind_cons. apply Forall_app. split; [|done]. by repeat constructor.
Qed.

Lemma reports_src args i h :
  src <$> reports args i h = value <$> filter (is_tensor tc) args.
Proof.
  revert i h. induction args as [|a args IH]; intros i h; [done|].
  unfold TVMArgs in *. rewrite filter_cons. simpl. case_bool_decide as Ht.
  - destruct (MXShallowCopyNDArray _ _ _) as [nd h1].
    destruct (MXNDArrayGetContext _ _ _) as [[dt di] h2].
    rewrite decide_True by done. rewrite !fmap_cons, IH. done.
  - rewrite decide_False by done. apply IH.
Qed.

(** X1: a call of [Init] that returns has made exactly one shallow copy
    for each framework-tensor slot, of the handle in that slot and in slot
    order, has asked the host for nothing but these copies and their
    contexts, and has appended exactly the copies to [array_handle_]. *)
Theorem Init_shallow_copies f args cl cn mn w st w' :
  Init api tc f args cl cn mn w = (Done st, w') →
  ∃ evs rs,
    trace w' = trace w ++ evs ∧
    evs = rs ≫= query_events ∧
    src <$> rs = value <$> filter (is_tensor tc) args ∧
    array_handle_ (self st) = array_handle_ f ++ copies_made evs ∧
    Forall is_query evs.
Proof.
  intros (_ & _ & -> & ->)%Init_Done_inv.
  exists (reports args 0 (host (mach w)) ≫= query_events),
    (reports args 0 (host (mach w))). simpl.
  split_and!; [done..|apply reports_src| |apply Forall_is_query_reports].
  by rewrite copies_made_queries.
Qed.

Lemma last_all_eq {A} (x : A) (l : list A) :
  Forall (eq x) l → last (x :: l) = Some x.
Proof.
  induction 1 as [|y l <- _ IH]; [done|]. exact IH.
Qed.

(** X2: after a call of [Init] that returns, [ctx_] is the context
    reported for the last framework tensor (with no tensor it keeps the
    device id -1 that [Init] starts from and the device type it had);
    and when no tensor reports the device id -1, every tensor has reported
    that same context. *)
Theorem Init_context f args cl cn mn w st w' :
  Init api tc f args cl cn mn w = (Done st, w') →
  let cs := report <$> reports args 0 (host (mach w)) in
  (cs = [] →
   ctx_ (self st) = {| dev_type := dev_type (ctx_ f); dev_id := -1 |}) ∧
  (cs ≠ [] → last cs = Some (ctx_ (self st))) ∧
  (Forall (λ c, dev_id c ≠ -1) cs → Forall (eq (ctx_ (self st))) cs).
Proof.
  intros (_ & Hfm & -> & _)%Init_Done_inv cs. fold cs in Hfm |- *. simpl.
  split_and!.
  - by intros ->.
  - intros Hne. destruct (last cs) eqn:Hlast; [done|].
    by apply last_None in Hlast.
  - intros Hid. destruct cs as [|c cs'] eqn:Hcs; [done|].
    simpl in Hfm. apply Forall_cons in Hid as [Hc Hid].
    pose proof (first_mismatch_None _ _ Hfm Hc) as Hall.
    rewrite (last_all_eq c cs' Hall). by constructor.
Qed.

Lemma Init_trace f args cl cn mn w :
  ∃ evs, trace (Init api tc f args cl cn mn w).2 = trace w ++ evs ∧
         Forall is_init_event evs.
Proof. unfold Init. apply Init_loop_trace. Qed.

Lemma Init_nds f args cl w st w' :
  Init api tc f args cl [] [] w = (Done st, w') →
  const_nds st ++ mutate_nds st ≡ₚ copy <$> reports args 0 (host (mach w)).
Proof.
  intros HInit. pose proof HInit as [Hok Hfm]%Init_loop_Done_inv.
  unfold Init in HInit. rewrite Init_loop_Done in HInit by done.
  injection HInit as <- _. by rewrite Init_pure_nds.
Qed.

(** X3: a wrapped call returns exactly when every slot is a framework
    tensor or carries a tag below the sentinel and the reported contexts
    pass the test of [Init]. When it returns, it has queried the host for
    each tensor and then issued one push_sync, for the functor holding
    the shallow copies and with the functor's context; the read and write
    sets passed are strictly increasing, disjoint, and together hold
    exactly the shallow copies. The push_sync is the last call of the
    lambda when the engine has not deleted the task by the time the push
    returns; when it has, the lambda's own pointer is the last owner of
    the functor, and on its way out the lambda calls [MXNDArrayFree] on
    every shallow copy, in the order they were made. When the wrapped
    call does not return, it has issued no push_sync. *)
Theorem wrapped_push_sync func fset cl args w :
  let rs := reports args 0 (host (mach w)) in
  let out := wrapped api tc func fset cl args w in
  (out.1 = Done () ↔
   Forall (allowed tc) args ∧ first_inconsistent (report <$> rs) = None) ∧
  (out.1 = Done () →
   ∃ ps reads writes,
     let pushed :=
       MXEnginePushSyncND api (ps_ctx ps) reads writes
         (host_after args (host (mach w))) in
     trace out.2 =
       trace w ++ (rs ≫= query_events) ++ [EPushSync ps reads writes] ++
       (if task_deleted api pushed then EFree <$> (copy <$> rs) else []) ∧
     ps_ctx ps = ctx_ (ps_func ps) ∧
     array_handle_ (ps_func ps) = copy <$> rs ∧
     StronglySorted Z.lt reads ∧ StronglySorted Z.lt writes ∧
     (∀ x, x ∈ reads → x ∉ writes) ∧
     (∀ x, x ∈ reads ∨ x ∈ writes ↔ x ∈ copy <$> rs)) ∧
  (out.1 ≠ Done () →
   ∃ evs, trace out.2 = trace w ++ evs ∧ Forall is_init_event evs).
Proof.
  intros rs out. unfold out. rewrite wrapped_eq.
  set (f0 := TVMFunctor_new func fset (indeterminate api (host (mach w)))).
  pose proof (Init_trace f0 args cl [] [] w) as (evs & Hevs & Hall).
  destruct (Init api tc f0 args cl [] [] w) as [[st|fl] w1] eqn:HInit.
  - pose proof HInit as (Hok & Hfm & Hself & Hw1)%Init_Done_inv.
    pose proof (Init_nds _ _ _ _ _ _ HInit) as Hnds.
    split_and!; [done| |done].
    assert (array_handle_ (self st) = copy <$> rs) as Hah
      by (by rewrite Hself).
    intros _.
    exists {| ps_ctx := ctx_ (self st); ps_func := self st |},
      (Dedup.DeduplicateNDArrayHandle (const_nds st) (mutate_nds st)).1,
      (Dedup.DeduplicateNDArrayHandle (const_nds st) (mutate_nds st)).2.
    split_and!.
    + simpl. rewrite Hah, Hw1. simpl.
      destruct (task_deleted api _); simpl; by rewrite <-?app_assoc.
    + done.
    + simpl. rewrite Hself. done.
    + apply dedup_reads_sorted.
    + apply dedup_writes_sorted.
    + intros x. rewrite elem_of_dedup_reads, elem_of_dedup_writes. tauto.
    + intros x. rewrite elem_of_dedup_reads, elem_of_dedup_writes.
      fold rs in Hnds. rewrite <-Hnds, elem_of_app.
      destruct (decide (x ∈ mutate_nds st)); tauto.
  - split_and!.
    + split; [done|]. intros [Hok Hfm].
      destruct (Init_Done api tc f0 args cl [] [] w Hok Hfm)
        as (st' & w' & Heq). congruence.
    + done.
    + intros _. exists evs. by split.
Qed.


Lemma StronglySorted_le_NoDup_lt (l : list Z) :
  StronglySorted Z.le l → NoDup l → StronglySorted Z.lt l.
Proof.
  induction 1 as [|x l _ IH Hx]; [constructor|].
  intros [Hnin Hnd]%NoDup_cons. constructor; [by apply IH|].
  rewrite Forall_forall in Hx |- *. intros y Hy.
  specialize (Hx y Hy). assert (x ≠ y) by (by intros ->). lia.
Qed.

Lemma merge_sort_NoDup_lt (l : list Z) :
  NoDup l → StronglySorted Z.lt (merge_sort Z.le l).
Proof.
  intros Hnd. apply StronglySorted_le_NoDup_lt.
  - apply StronglySorted_merge_sort; [apply _|]. intros x y. lia.
  - by rewrite merge_sort_Permutation.
Qed.

Lemma query_events_not_push_sync (rs : list Report) :
  Forall (λ e, ¬ @is_push_sync H e) (rs ≫= query_events).
Proof.
  induction rs as [|r rs IH]; [constructor|].
  change ((r :: rs) ≫= query_events)
    with (query_events (H:=H) r ++ (rs ≫= query_events)).
  apply Forall_app. split; [|exact IH].
  repeat constructor; simpl; tauto.
Qed.

Lemma EFree_not_push_sync (handles : list NDArrayHandle) :
  Forall (λ e, ¬ @is_push_sync H e) (EFree <$> handles).
Proof. induction handles; constructor; simpl; tauto. Qed.

(** X5: the const positions may be passed to [WrapAsyncCall] in any
    order. When they are distinct and each is a framework-tensor slot of
    the call, a call of the wrapped function that returns issues exactly
    one push_sync; its write set holds exactly the copies made for the
    tensor slots that are not const positions, and its read set holds
    exactly the copies made for const positions that are not also in the
    write set. *)
Theorem WrapAsyncCall_any_order pfunc sset c_const_loc args w :
  NoDup c_const_loc →
  (∀ z, z ∈ c_const_loc →
        ∃ (p : nat) a, z = Z.of_nat p ∧ args !! p = Some a ∧ is_tensor tc a) →
  (WrapAsyncCall api tc pfunc sset c_const_loc args w).1 = Done () →
  let rs := reports args 0 (host (mach w)) in
  ∃ ps reads writes before after,
    trace (WrapAsyncCall api tc pfunc sset c_const_loc args w).2
      = trace w ++ before ++ [EPushSync ps reads writes] ++ after ∧
    Forall (λ e, ¬ is_push_sync e) (before ++ after) ∧
    (∀ x, x ∈ writes ↔
          ∃ r, r ∈ rs ∧ copy r = x ∧ Z.of_nat (slot r) ∉ c_const_loc) ∧
    (∀ x, x ∈ reads ↔
          (∃ r, r ∈ rs ∧ copy r = x ∧ Z.of_nat (slot r) ∈ c_const_loc) ∧
          x ∉ writes).
Proof.
  intros Hnd Hpos Hdone rs. unfold WrapAsyncCall in *.
  set (cl := merge_sort Z.le c_const_loc) in *.
  assert (∀ z, z ∈ cl ↔ z ∈ c_const_loc) as Hcl.
  { intros z. unfold cl. by rewrite merge_sort_Permutation. }
  rewrite wrapped_eq in Hdone |- *.
  destruct (Init api tc _ args cl [] [] w) as [[st|fl] w1] eqn:HInit; [|done].
  destruct (Init_attribution_gen api tc pfunc sset
              (indeterminate api (host (mach w))) args cl w st w1)
    as (_ & _ & Hc & Hm); [by apply merge_sort_NoDup_lt| |exact HInit|].
  { intros z Hz. apply Hpos. by apply Hcl. }
  fold rs in Hc, Hm.
  assert (∀ x, x ∈ mutate_nds st ↔
               ∃ r, r ∈ rs ∧ copy r = x ∧ Z.of_nat (slot r) ∉ c_const_loc)
    as Hmut.
  { intros x. rewrite Hm, list_elem_of_fmap.
    setoid_rewrite list_elem_of_filter. setoid_rewrite Hcl.
    split; [intros (r & -> & ? & ?)|intros (r & ? & <- & ?)]; exists r;
      by split_and!. }
  assert (∀ x, x ∈ const_nds st ↔
               ∃ r, r ∈ rs ∧ copy r = x ∧ Z.of_nat (slot r) ∈ c_const_loc)
    as Hcon.
  { intros x. rewrite Hc, list_elem_of_fmap.
    setoid_rewrite list_elem_of_filter. setoid_rewrite Hcl.
    split; [intros (r & -> & ? & ?)|intros (r & ? & <- & ?)]; exists r;
      by split_and!. }
  pose proof HInit as (_ & _ & _ & Hw1)%Init_Done_inv.
  simpl. match goal with
         | |- context [task_deleted api ?h] => set (d := task_deleted api h)
         end.
  exists {| ps_ctx := ctx_ (self st); ps_func := self st |},
    (Dedup.DeduplicateNDArrayHandle (const_nds st) (mutate_nds st)).1,
    (Dedup.DeduplicateNDArrayHandle (const_nds st) (mutate_nds st)).2,
    (rs ≫= query_events),
    (if d then EFree <$> array_handle_ (self st) else []).
  split_and!.
  - rewrite Hw1. destruct d; simpl; by rewrite <-?app_assoc.
  - apply Forall_app. split; [apply query_events_not_push_sync|].
    destruct d; [apply EFree_not_push_sync|constructor].
  - intros x. by rewrite elem_of_dedup_writes.
  - intros x. rewrite elem_of_dedup_reads, elem_of_dedup_writes, Hcon. done.
Qed.

End init_more.

(* ================================================================== *)
(** * Further properties of [Run] and of the destructor *)

Section run_more.
Context {H : Type} (api : @Host H) (tc : Codes).
Implicit Types (f : @TVMFunctor H) (w : @World H) (rctx : RunContext)
  (dlms : list DLManagedTensorHandle) (locs : list nat) (values : list Z).

(** What the first loop of [Run] leaves in [values] and [dlms]. *)
Lemma Run_setup_values f locs i values dlms w values' dlms' w' :
  Run_setup api f locs i values dlms w = (Done (values', dlms'), w') →
  NoDup locs → (i + length locs ≤ length dlms)%nat →
  (∀ (k : nat) loc dlm,
     locs !! k = Some loc → dlms' !! (i + k)%nat = Some dlm →
     values' !! loc = Some (dl_tensor api dlm)) ∧
  (∀ p : nat, p ∉ locs → values' !! p = values !! p) ∧
  (∀ j : nat, (j < i)%nat → dlms' !! j = dlms !! j) ∧
  DEV_ID (mach w') = DEV_ID (mach w) ∧ STRM (mach w') = STRM (mach w).
Proof.
  revert i values dlms w.
  induction locs as [|loc locs IH]; intros i values dlms w; simpl.
  { intros [= <- <- <-] _ _. by split_and!. }
  destruct (array_handle_ f !! i) as [nd|] eqn:Hnd; [|done].
  intros (dlm & w1 & Hcall & Hrest)%bind_Done_inv
    [Hnin Hnd']%NoDup_cons Hlen.
  apply bind_Done_inv in Hrest as ([] & w2 & Hemit & Hrest).
  rewrite emit_eq in Hemit. injection Hemit as <-.
  unfold call_host in Hcall.
  destruct (MXNDArrayToDLPack api nd (host (mach w))) as [dlm' h1] eqn:Hdl.
  injection Hcall as -> <-. simpl in Hrest.
  case_bool_decide as Hloc; [|done].
  apply IH in Hrest as (Hmain & Hval & Hdlm & Hdev & Hstrm);
    [|done|rewrite length_insert; lia].
  simpl in Hdev, Hstrm. split_and!; [| | |done..].
  - intros [|k] loc' dlm0 Hk Hd; simpl in Hk.
    + injection Hk as <-. rewrite Nat.add_0_r, Hdlm in Hd by lia.
      rewrite list_lookup_insert_eq in Hd by lia. injection Hd as <-.
      rewrite Hval by done. by apply list_lookup_insert_eq.
    + apply (Hmain k); [done|].
      by replace (S i + k)%nat with (i + S k)%nat by lia.
  - intros p [Hne Hp]%not_elem_of_cons. rewrite Hval by done.
    by apply list_lookup_insert_ne.
  - intros j Hj. rewrite Hdlm by lia. apply list_lookup_insert_ne. lia.
Qed.

Lemma Run_delete_mach dlms w :
  ∃ w', Run_delete api dlms w = (Done (), w') ∧
        mach w' = {| host := after_deleters api dlms (host (mach w));
                     DEV_ID := DEV_ID (mach w); STRM := STRM (mach w) |}.
Proof.
  revert w. induction dlms as [|dlm dlms IH]; intros w; simpl.
  { eexists. split; [done|]. by destruct (mach w). }
  unfold mbind, M_bind, emit, call_host. simpl.
  edestruct IH as (w' & -> & Hm). eexists. split; [done|]. by rewrite Hm.
Qed.

Lemma call_body_Done_mach (b : @Machine H → option Machine) w u w' :
  call_body b w = (Done u, w') → b (mach w) = Some (mach w').
Proof.
  unfold call_body. destruct (b (mach w)); [|done]. by intros [= _ <-].
Qed.

Lemma call_set_stream_Done_mach f dt di strm w u w' :
  call_set_stream f dt di strm w = (Done u, w') →
  fset_stream_ f dt di strm (mach w) = Some (mach w').
Proof.
  unfold call_set_stream.
  by intros ([] & w1 & [= <-] & ?%call_body_Done_mach)%bind_Done_inv.
Qed.

Lemma CallPacked_Done_mach f args w u w' :
  CallPacked f args w = (Done u, w') → func_ f args (mach w) = Some (mach w').
Proof.
  unfold CallPacked.
  by intros ([] & w1 & [= <-] & ?%call_body_Done_mach)%bind_Done_inv.
Qed.

(** The machine states of a call of [Run] that returns. *)
Lemma Run_mach_inv f rctx w f' w' :
  Run api tc f rctx w = (Done f', w') →
  ∃ values dlms w1 m2,
    Run_setup api f (array_loc_ f) 0 (values_ f)
      (replicate (length (array_loc_ f)) 0) w = (Done (values, dlms), w1) ∧
    f' = {| func_ := func_ f; fset_stream_ := fset_stream_ f;
            values_ := values; type_codes_ := type_codes_ f;
            array_handle_ := array_handle_ f; array_loc_ := array_loc_ f;
            ctx_ := ctx_ f |} ∧
    (length values ≤ length (type_codes_ f))%nat ∧
    (if bool_decide (dev_type (ctx_ f) = kGPU) then
       ∃ ma mb,
         fset_stream_ f (kDLGPU tc) (dev_id (ctx rctx))
           (load api (stream rctx) (host (mach w1))) (mach w1) = Some ma ∧
         func_ f (zip_with Build_TVMArg values (type_codes_ f)) ma
           = Some mb ∧
         fset_stream_ f (kDLGPU tc) (dev_id (ctx rctx)) 0 mb = Some m2
     else
       func_ f (zip_with Build_TVMArg values (type_codes_ f)) (mach w1)
         = Some m2) ∧
    mach w' = {| host := after_deleters api dlms (host m2);
                 DEV_ID := DEV_ID m2; STRM := STRM m2 |}.
Proof.
  unfold Run.
  intros ([values dlms] & w1 & Hsetup & Hrest)%bind_Done_inv.
  case_bool_decide as Hlen; [|done].
  apply bind_Done_inv in Hrest as ([] & w2 & Hcalls & Hrest).
  apply bind_Done_inv in Hrest as ([] & w3 & Hdel & Hret).
  unfold mret, M_ret in Hret. injection Hret as <- <-.
  destruct (Run_delete_mach dlms w2) as (w3' & Hdel' & Hm3).
  rewrite Hdel in Hdel'. injection Hdel' as <-.
  exists values, dlms, w1, (mach w2). split_and!; [done..| |done].
  case_bool_decide.
  - apply bind_Done_inv in Hcalls as (strm & w4 & [= <- <-] & Hcalls).
    apply bind_Done_inv in Hcalls as ([] & w5 & Hs1 & Hcalls).
    apply bind_Done_inv in Hcalls as ([] & w6 & Hs2 & Hs3).
    apply call_set_stream_Done_mach in Hs1, Hs3.
    apply CallPacked_Done_mach in Hs2. eauto.
  - by apply CallPacked_Done_mach in Hcalls.
Qed.

(** A call of [Run] that returns: the functor it leaves, the managed
    tensors it has made and the arguments it has passed on. *)
Lemma Run_values_args f rctx w f' w' :
  NoDup (array_loc_ f) →
  Run api tc f rctx w = (Done f', w') →
  f' = {| func_ := func_ f; fset_stream_ := fset_stream_ f;
          values_ := values_ f'; type_codes_ := type_codes_ f;
          array_handle_ := array_handle_ f; array_loc_ := array_loc_ f;
          ctx_ := ctx_ f |} ∧
  length (values_ f') = length (values_ f) ∧
  (length (values_ f') ≤ length (type_codes_ f))%nat ∧
  ∃ dlms pre post,
    trace w' =
      trace w ++ zip_with EToDLPack (array_handle_ f) dlms ++ pre ++
      [ECallPacked (zip_with Build_TVMArg (values_ f') (type_codes_ f))] ++
      post ∧
    Forall is_set_stream pre ∧
    length dlms = length (array_loc_ f) ∧
    (∀ (i : nat) loc dlm,
       array_loc_ f !! i = Some loc → dlms !! i = Some dlm →
       values_ f' !! loc = Some (dl_tensor api dlm)) ∧
    (∀ p : nat, p ∉ array_loc_ f → values_ f' !! p = values_ f !! p).
Proof.
  intros Hnd HRun.
  pose proof HRun
    as (values & dlms & w1 & m2 & Hsetup & -> & Hle & _)%Run_mach_inv.
  apply Run_inv in HRun
    as (values' & dlms' & w1' & Hsetup' & Hlen & _ & Htr1 & Htr).
  rewrite Hsetup in Hsetup'. injection Hsetup' as <- <- <-.
  pose proof Hsetup as (_ & _ & _ & _ & _ & Hv)%Run_setup_inv;
    [|by rewrite length_replicate].
  apply Run_setup_values in Hsetup as (Hmain & Hout & _);
    [|done|by rewrite length_replicate].
  simpl. split_and!; [done..|].
  unfold Run_calls in Htr. case_bool_decide.
  - exists dlms,
      [ESetStream (kDLGPU tc) (dev_id (ctx rctx))
         (load api (stream rctx) (host (mach w1)))],
      (ESetStream (kDLGPU tc) (dev_id (ctx rctx)) 0 :: (EDeleter <$> dlms)).
    split_and!; [|by apply Forall_singleton|done..].
    rewrite Htr, Htr1, <-!app_assoc. done.
  - exists dlms, [], (EDeleter <$> dlms). split_and!; [|done..].
    rewrite Htr, Htr1, <-!app_assoc. done.
Qed.

(** X6: a call of [Run] that returns changes nothing of the functor but
    [values_]; when the positions in [array_loc_] are distinct, the value
    at the i-th position is the address of the [dl_tensor] of the i-th
    managed tensor (the one made from [array_handle_[i]]), and every
    value at a position outside [array_loc_] is as before. *)
Theorem Run_values f rctx w f' w' :
  NoDup (array_loc_ f) →
  Run api tc f rctx w = (Done f', w') →
  type_codes_ f' = type_codes_ f ∧
  array_handle_ f' = array_handle_ f ∧
  array_loc_ f' = array_loc_ f ∧
  ctx_ f' = ctx_ f ∧
  length (values_ f') = length (values_ f) ∧
  ∃ dlms evs,
    trace w' = trace w ++ zip_with EToDLPack (array_handle_ f) dlms ++ evs ∧
    length dlms = length (array_loc_ f) ∧
    (∀ (i : nat) loc dlm,
       array_loc_ f !! i = Some loc → dlms !! i = Some dlm →
       values_ f' !! loc = Some (dl_tensor api dlm)) ∧
    (∀ p : nat, p ∉ array_loc_ f → values_ f' !! p = values_ f !! p).
Proof.
  intros Hnd HRun.
  destruct (Run_values_args f rctx w f' w' Hnd HRun)
    as (-> & Hv & _ & dlms & pre & post & Htr & _ & Hlen & Hin & Hout).
  simpl. split_and!; [done..|].
  exists dlms. eexists. split_and!; [exact Htr|done..].
Qed.

Lemma StronglySorted_lt_NoDup_nat (l : list nat) :
  StronglySorted lt l → NoDup l.
Proof.
  induction 1 as [|x l _ IH Hx]; constructor; [|done].
  rewrite Forall_forall in Hx. intros Hin. specialize (Hx _ Hin). lia.
Qed.

(** X7: [Init] then [Run]. The user function of a wrapped call is called
    with as many arguments as the call had: at each framework-tensor slot
    the DLPack tag and the address of the [dl_tensor] of the managed
    tensor made from the shallow copy of that slot, and at every other
    slot the value and the tag that were passed. *)
Theorem Init_Run_arguments func fset c0 args cl cn mn w st w1 rctx w2 f' w3 :
  Init api tc (TVMFunctor_new func fset c0) args cl cn mn w = (Done st, w1) →
  Run api tc (self st) rctx w2 = (Done f', w3) →
  let rs := reports api tc args 0 (host (mach w)) in
  ∃ dlms args' pre post,
    trace w3 =
      trace w2 ++ zip_with EToDLPack (copy <$> rs) dlms ++ pre ++
      [ECallPacked args'] ++ post ∧
    Forall is_set_stream pre ∧
    length dlms = length rs ∧
    length args' = length args ∧
    (∀ (k : nat) r dlm,
       rs !! k = Some r → dlms !! k = Some dlm →
       args' !! slot r = Some {| value := dl_tensor api dlm;
                                 type_code := kArrayHandle tc |}) ∧
    (∀ (p : nat) a,
       args !! p = Some a → ¬ is_tensor tc a → args' !! p = Some a).
Proof.
  intros HInit HRun rs.
  apply Init_Done_inv in HInit as (_ & _ & Hself & _).
  unfold TVMFunctor_new in Hself.
  cbn [array_loc_ array_handle_ app func_ fset_stream_ ctx_] in Hself.
  fold rs in Hself.
  assert (NoDup (array_loc_ (self st))) as Hnd.
  { rewrite Hself. simpl. apply StronglySorted_lt_NoDup_nat.
    apply reports_slot_sorted. }
  destruct (Run_values_args _ _ _ _ _ Hnd HRun)
    as (_ & Hv & Hle & dlms & pre & post & Htr & Hpre & Hlen & Hin & Hout).
  rewrite Hself in Htr, Hlen, Hin, Hout, Hv, Hle.
  cbn [values_ type_codes_ array_handle_ array_loc_] in *.
  rewrite length_fmap in Hlen. rewrite length_fmap in Hv.
  rewrite length_retag, length_fmap in Hle.
  exists dlms, (zip_with Build_TVMArg (values_ f')
                  (retag tc (slot <$> rs) (type_code <$> args))), pre, post.
  assert (∀ p : nat, p ∈ slot <$> rs ↔
                     ∃ a, args !! p = Some a ∧ is_tensor tc a) as Hloc.
  { intros p. unfold rs. rewrite elem_of_reports_slot, Nat.sub_0_r.
    split; [by intros [_ ?]|]. intros ?. split; [lia|done]. }
  unfold TVMArgs in *. split_and!; [done..| | |].
  - rewrite length_zip_with, length_retag, length_fmap. lia.
  - intros k r dlm Hr Hd.
    assert ((slot <$> rs) !! k = Some (slot r)) as Hk
      by (by rewrite list_lookup_fmap, Hr).
    rewrite lookup_zip_with, (Hin k _ _ Hk Hd). simpl.
    rewrite retag_lookup_elem; [done|by eapply list_elem_of_lookup_2|].
    apply list_elem_of_lookup_2, Hloc in Hk as (a & Ha & _).
    rewrite length_fmap. by eapply lookup_lt_Some.
  - intros p a Ha Hnt.
    assert (p ∉ slot <$> rs) as Hp.
    { intros (a' & Ha' & Ht)%Hloc. congruence. }
    rewrite lookup_zip_with, (Hout p Hp), retag_lookup_not_elem by done.
    rewrite !list_lookup_fmap, Ha. simpl. by destruct a.
Qed.

(** X8: the thread-local stream state around the user function. When
    the stream setter is [set_stream] and the functor's context is a GPU,
    the user function of a call of [Run] that returns is called with
    [DEV_ID] the device id of the run context and [STRM] the pointer
    loaded through [rctx.stream], and after [Run] has returned [STRM] is
    null, whatever the user function did to it. When the context is not
    a GPU, [Run] itself leaves [DEV_ID] and [STRM] alone: the user
    function sees them as they were, and what it leaves is what remains. *)
Theorem Run_thread_locals f rctx w f' w' :
  Run api tc f rctx w = (Done f', w') →
  let args := zip_with Build_TVMArg (values_ f') (type_codes_ f) in
  ∃ m1 m2 dlms,
    func_ f args m1 = Some m2 ∧
    (dev_type (ctx_ f) = kGPU → fset_stream_ f = set_stream →
     DEV_ID m1 = dev_id (ctx rctx) ∧
     STRM m1 = load api (stream rctx) (host m1) ∧
     mach w' = {| host := after_deleters api dlms (host m2);
                  DEV_ID := dev_id (ctx rctx); STRM := 0 |}) ∧
    (dev_type (ctx_ f) ≠ kGPU →
     DEV_ID m1 = DEV_ID (mach w) ∧ STRM m1 = STRM (mach w) ∧
     mach w' = {| host := after_deleters api dlms (host m2);
                  DEV_ID := DEV_ID m2; STRM := STRM m2 |}).
Proof.
  intros (values & dlms & w1 & m2 & Hsetup & -> & _ & Hcalls & Hm)%Run_mach_inv.
  simpl.
  assert (DEV_ID (mach w1) = DEV_ID (mach w) ∧
          STRM (mach w1) = STRM (mach w)) as [Hdev Hstrm].
  { clear -Hsetup. revert Hsetup.
    generalize (replicate (length (array_loc_ f)) 0) as dlms0.
    generalize (values_ f) as values0. generalize 0%nat as i.
    generalize (array_loc_ f) as locs. intros locs. revert w.
    induction locs as [|loc locs IH]; intros w i values0 dlms0; simpl.
    { by intros [= _ _ <-]. }
    destruct (array_handle_ f !! i) as [nd|]; [|done].
    intros (dlm & w2 & Hcall & Hrest)%bind_Done_inv.
    apply bind_Done_inv in Hrest as ([] & w3 & Hemit & Hrest).
    rewrite emit_eq in Hemit. injection Hemit as <-.
    unfold call_host in Hcall.
    destruct (MXNDArrayToDLPack api nd (host (mach w))) as [dlm' h1].
    injection Hcall as -> <-. simpl in Hrest.
    case_bool_decide; [|done]. by apply IH in Hrest. }
  case_bool_decide as Hgpu.
  - destruct Hcalls as (ma & mb & Hs1 & Hcall & Hs2).
    exists ma, mb, dlms. split_and!; [done| |].
    + intros _ Hset. rewrite Hset in Hs1, Hs2.
      unfold set_stream in Hs1, Hs2.
      injection Hs1 as <-. injection Hs2 as <-. by rewrite Hm.
    + intros Hn. by destruct Hn.
  - exists (mach w1), m2, dlms. split_and!; [done| |].
    + intros Hg. by destruct Hgpu.
    + by intros _.
Qed.

(** X9: [Run] has no cleanup on the way out of a packed function that
    does not return. When a call of [Run] ends because the stream setter
    or the user function did not return, [Run] has made all its managed
    tensors, one for each position of [array_loc_], and has called the
    deleter of none of them. *)
Theorem Run_no_cleanup f rctx w w' :
  Run api tc f rctx w = (Stop Thrown, w') →
  ∃ dlms evs,
    length dlms = length (array_loc_ f) ∧
    trace w' = trace w ++ zip_with EToDLPack (array_handle_ f) dlms ++ evs ∧
    Forall (λ e, ¬ is_deleter e) evs ∧
    evs ≠ [].
Proof.
  unfold Run. intros [Hsetup|([values dlms] & w1 & Hsetup & Hrest)]%bind_Stop_inv.
  { by apply Run_setup_Stop in Hsetup. }
  apply Run_setup_inv in Hsetup as (new & Hnew & Hdlms & Htr & Hlen & _);
    [|by rewrite length_replicate].
  simpl in Hdlms. rewrite drop_ge, app_nil_r in Hdlms
    by (by rewrite length_replicate). subst new.
  case_bool_decide; [|done].
  assert (∀ evs, trace w' = trace w1 ++ evs →
                 Forall (λ e, ¬ @is_deleter H e) evs → evs ≠ [] →
          ∃ dlms0 evs0,
            length dlms0 = length (array_loc_ f) ∧
            trace w' = trace w ++
              zip_with EToDLPack (array_handle_ f) dlms0 ++ evs0 ∧
            Forall (λ e, ¬ is_deleter e) evs0 ∧ evs0 ≠ []) as Hfin.
  { intros evs Hevs Hall Hne. exists dlms, evs. split_and!; [done| |done..].
    by rewrite Hevs, Htr, <-app_assoc. }
  apply bind_Stop_inv in Hrest as [Hcalls|([] & w2 & _ & Hrest)].
  2:{ apply bind_Stop_inv in Hrest as [Hdel|([] & w3 & _ & [=])].
      destruct (Run_delete_trace api dlms w2) as (w3 & Heq & _). congruence. }
  case_bool_decide.
  - apply bind_Stop_inv in Hcalls as [[=]|(strm & w4 & [= <- <-] & Hcalls)].
    apply bind_Stop_inv in Hcalls as [Hs1|([] & w5 & Hs1 & Hcalls)].
    { apply call_set_stream_Stop_inv in Hs1. eapply Hfin; [exact Hs1| |done].
      apply Forall_singleton. tauto. }
    apply call_set_stream_Done_inv in Hs1.
    apply bind_Stop_inv in Hcalls as [Hs2|([] & w6 & Hs2 & Hs3)].
    { apply CallPacked_Stop_inv in Hs2. rewrite Hs1, <-app_assoc in Hs2.
      eapply Hfin; [exact Hs2| |done]. repeat constructor; simpl; tauto. }
    apply CallPacked_Done_inv in Hs2. apply call_set_stream_Stop_inv in Hs3.
    rewrite Hs2, Hs1, <-!app_assoc in Hs3.
    eapply Hfin; [exact Hs3| |done]. repeat constructor; simpl; tauto.
  - apply CallPacked_Stop_inv in Hcalls. eapply Hfin; [exact Hcalls| |done].
    apply Forall_singleton. tauto.
Qed.

Lemma handles_freed_EFree (handles : list NDArrayHandle) :
  handles_freed (EFree (H:=H) <$> handles) = handles.
Proof.
  induction handles as [|nd l IH]; [done|]. simpl. f_equal. exact IH.
Qed.

(** X10: the shallow copies are freed exactly once. For a functor that a
    call of [Init] that returned has initialised from a new one, and that
    [Run] may have run since, the destructor always returns and calls
    [MXNDArrayFree] exactly on the handles that the shallow copies of
    that [Init] returned, once for each copy and in the order they were
    made, and calls nothing else. *)
Theorem destructor_frees_copies func fset c0 args cl cn mn w st w1 f w2 :
  Init api tc (TVMFunctor_new func fset c0) args cl cn mn w = (Done st, w1) →
  (f = self st ∨ ∃ rctx w0 w0', Run api tc (self st) rctx w0 = (Done f, w0')) →
  ∃ evs_init evs_free w3,
    trace w1 = trace w ++ evs_init ∧
    TVMFunctor_free api (array_handle_ f) w2 = (Done (), w3) ∧
    trace w3 = trace w2 ++ evs_free ∧
    evs_free = EFree <$> copies_made evs_init ∧
    handles_freed evs_free = copies_made evs_init.
Proof.
  intros HInit Hf.
  apply Init_Done_inv in HInit as (_ & _ & Hself & ->).
  assert (array_handle_ f = array_handle_ (self st)) as ->.
  { destruct Hf as [->|(rctx & w0 & w0' & HRun)]; [done|].
    by apply Run_mach_inv in HRun as (? & ? & ? & ? & _ & -> & _). }
  rewrite Hself. simpl.
  destruct (TVMFunctor_free_spec api
              (copy <$> reports api tc args 0 (host (mach w))) w2)
    as (w3 & Hfree & Htr & _).
  eexists _, _, w3. split_and!; [done|exact Hfree|exact Htr| |].
  - by rewrite copies_made_queries.
  - by rewrite handles_freed_EFree, copies_made_queries.
Qed.

End run_more.

(* ================================================================== *)
(** * Further properties of the registry and of the deriver *)

Section registry_more.
Context {H : Type} (api : @Host H) (tc : Codes).
Implicit Types (reg : @Registry H) (name : string) (pfunc : @TVMFunc H)
  (cl : list Z) (calls : list (string * @TVMFunc H * list Z)).

Local Abbreviation GetMXNetFunc := (GetMXNetFunc api tc).
Local Abbreviation GetMXNetFunc_all := (GetMXNetFunc_all api tc).
Local Abbreviation WrapAsyncCall := (WrapAsyncCall api tc).

Lemma first_registration_snoc calls c name :
  first_registration (calls ++ [c]) name =
  match first_registration calls name with
  | Some x => Some x
  | None => if bool_decide (c.1.1 = name) then Some (c.1.2, c.2) else None
  end.
Proof.
  induction calls as [|c' calls IH]; simpl; [done|].
  destruct (bool_decide (c'.1.1 = name)); [done|exact IH].
Qed.

Lemma GetMXNetFunc_all_snoc calls c reg :
  GetMXNetFunc_all (calls ++ [c]) reg =
  (GetMXNetFunc c.1.1 c.1.2 c.2 (GetMXNetFunc_all calls reg)).2.
Proof. unfold GetMXNetFunc_all. by rewrite foldl_app. Qed.

Local Abbreviation registry_of := (registry_of api tc).

Lemma registry_of_all calls :
  registry_of calls (GetMXNetFunc_all calls FUNCTIONS_init).
Proof.
  induction calls as [|[[n f] cl] calls IH] using rev_ind.
  { split_and!; [intros name; apply lookup_empty|..];
      intros *; simpl; by rewrite lookup_empty. }
  rewrite GetMXNetFunc_all_snoc. simpl.
  set (reg := GetMXNetFunc_all calls FUNCTIONS_init) in *.
  destruct IH as (Hfirst & Hinj & Hlt).
  destruct (FUNCTIONS reg !! n) as [c|] eqn:Hn.
  - rewrite (GetMXNetFunc_hit _ _ _ _ _ _ _ Hn). unfold registry_of. simpl.
    split_and!; [|done..]. intros name. rewrite first_registration_snoc.
    specialize (Hfirst name).
    destruct (first_registration calls name) as [[f0 cl0]|]; [done|].
    simpl. case_bool_decide; [congruence|done].
  - rewrite (GetMXNetFunc_miss _ _ _ _ _ _ Hn). unfold registry_of. simpl.
    split_and!.
    + intros name. rewrite first_registration_snoc.
      specialize (Hfirst name).
      destruct (first_registration calls name) as [[f0 cl0]|] eqn:Hf.
      * destruct Hfirst as (a & Ha & Ho). exists a.
        rewrite lookup_insert_ne by congruence. split; [done|].
        by apply lookup_app_l_Some.
      * simpl. case_bool_decide as Heq.
        -- subst. exists (length (objects reg)).
           rewrite lookup_insert_eq. split; [done|].
           by rewrite lookup_app_r, Nat.sub_diag.
        -- by rewrite lookup_insert_ne.
    + intros n1 n2 a.
      destruct (decide (n1 = n)) as [->|H1], (decide (n2 = n)) as [->|H2];
        [done|..].
      * rewrite lookup_insert_eq, lookup_insert_ne by done.
        intros [= <-] Hlk%Hlt. lia.
      * rewrite lookup_insert_ne, lookup_insert_eq by done.
        intros Hlk%Hlt [= <-]. lia.
      * rewrite !lookup_insert_ne by done. apply Hinj.
    + intros name a. rewrite length_app. simpl.
      destruct (decide (name = n)) as [->|Hne].
      * rewrite lookup_insert_eq. intros [= <-]. lia.
      * rewrite lookup_insert_ne by done. intros ?%Hlt. lia.
Qed.

Lemma GetMXNetFunc_entry name pfunc cl reg :
  let r := GetMXNetFunc name pfunc cl reg in
  ∃ c, FUNCTIONS r.2 !! name = Some c ∧ r.1 = fc_func_ c.
Proof.
  destruct (FUNCTIONS reg !! name) as [c|] eqn:Hn.
  - rewrite (GetMXNetFunc_hit _ _ _ _ _ _ _ Hn). by exists c.
  - rewrite (GetMXNetFunc_miss _ _ _ _ _ _ Hn). simpl.
    eexists. by rewrite lookup_insert_eq.
Qed.

(** X11: from the empty [FUNCTIONS] of a freshly loaded library, after
    any history of calls, [GetMXNetFunc] never returns a null pointer:
    the pointer refers to the wrapping, with [set_stream], of the
    function and const positions given by the first call with that name
    in the history, this call included. *)
Theorem GetMXNetFunc_first_registration calls name pfunc cl :
  let r := GetMXNetFunc name pfunc cl
             (GetMXNetFunc_all calls FUNCTIONS_init) in
  ∃ a f0 cl0,
    r.1 = Some a ∧
    first_registration (calls ++ [(name, pfunc, cl)]) name = Some (f0, cl0) ∧
    deref r.2 r.1 = Some (WrapAsyncCall f0 set_stream cl0).
Proof.
  intros r.
  pose proof (registry_of_all (calls ++ [(name, pfunc, cl)])) as (Hf & _ & _).
  rewrite GetMXNetFunc_all_snoc in Hf. simpl in Hf. fold r in Hf.
  specialize (Hf name).
  destruct (GetMXNetFunc_entry name pfunc cl
              (GetMXNetFunc_all calls FUNCTIONS_init)) as (c & Hc & Hr).
  fold r in Hc, Hr.
  destruct (first_registration _ name) as [[f0 cl0]|] eqn:Hfirst;
    [|congruence].
  destruct Hf as (a & Ha & Ho). exists a, f0, cl0.
  assert (r.1 = Some a) as Hra.
  { rewrite Hr. rewrite Hc in Ha. by injection Ha as ->. }
  split_and!; [done..|]. by rewrite Hra.
Qed.

(** X12: from the empty [FUNCTIONS], after any history of calls, two
    calls of [GetMXNetFunc] return the same pointer exactly when their
    names are equal: no two names share a [PackedFunc]. *)
Theorem GetMXNetFunc_injective calls n1 f1 cl1 n2 f2 cl2 :
  let r1 := GetMXNetFunc n1 f1 cl1
              (GetMXNetFunc_all calls FUNCTIONS_init) in
  let r2 := GetMXNetFunc n2 f2 cl2 r1.2 in
  r1.1 = r2.1 ↔ n1 = n2.
Proof.
  intros r1 r2.
  pose proof (registry_of_all (calls ++ [(n1, f1, cl1)])) as (Hf1 & _ & _).
  rewrite GetMXNetFunc_all_snoc in Hf1. simpl in Hf1. fold r1 in Hf1.
  specialize (Hf1 n1). rewrite first_registration_snoc in Hf1.
  assert (∃ a pf, FUNCTIONS r1.2 !! n1 = Some {| fc_func_ := Some a |} ∧
                  objects r1.2 !! a = Some pf) as (a & pf & Ha & Ho).
  { destruct (first_registration calls n1) as [[f0 cl0]|].
    - destruct Hf1 as (a & ? & ?). eauto.
    - simpl in Hf1. rewrite bool_decide_eq_true_2 in Hf1 by done.
      destruct Hf1 as (a & ? & ?). eauto. }
  destruct (GetMXNetFunc_entry n1 f1 cl1
              (GetMXNetFunc_all calls FUNCTIONS_init)) as (c1 & Hc1 & Hr1).
  fold r1 in Hc1, Hr1. rewrite Ha in Hc1. injection Hc1 as <-.
  simpl in Hr1.
  split.
  - intros Heq.
    pose proof (registry_of_all (calls ++ [(n1, f1, cl1); (n2, f2, cl2)]))
      as (_ & Hinj & _).
    replace (calls ++ [(n1, f1, cl1); (n2, f2, cl2)])
      with ((calls ++ [(n1, f1, cl1)]) ++ [(n2, f2, cl2)]) in Hinj
      by (by rewrite <- app_assoc).
    rewrite !GetMXNetFunc_all_snoc in Hinj. simpl in Hinj.
    fold r1 in Hinj. fold r2 in Hinj.
    destruct (GetMXNetFunc_keeps api tc n2 f2 cl2 r1.2 n1 a pf Ha Ho)
      as [Ha2 _]. fold r2 in Ha2.
    destruct (GetMXNetFunc_entry n2 f2 cl2 r1.2) as (c2 & Hc2 & Hr2).
    fold r2 in Hc2, Hr2.
    apply (Hinj n1 n2 a); [done|].
    rewrite Hc2. f_equal. destruct c2 as [p2]. simpl in Hr2. congruence.
  - intros <-. unfold r2.
    by rewrite (GetMXNetFunc_hit _ _ _ _ _ _ _ Ha).
Qed.

End registry_more.

Section dedup_more.
Import Dedup.
Implicit Types rd wr : list NDArrayHandle.

Lemma StronglySorted_lt_ext (l1 l2 : list NDArrayHandle) :
  StronglySorted Z.lt l1 → StronglySorted Z.lt l2 →
  (∀ x, x ∈ l1 ↔ x ∈ l2) → l1 = l2.
Proof.
  intros H1 H2 Hext.
  apply (StronglySorted_unique Z.le); [by apply StronglySorted_lt_le..|].
  apply NoDup_Permutation; [by apply StronglySorted_lt_NoDup..|done].
Qed.

(** X13: [DeduplicateNDArrayHandle] depends only on the sets of handles
    it is given: two read lists with the same members and two write lists
    with the same members, in any order and with any repeats, give the
    same two vectors. *)
Theorem dedup_depends_on_sets rd wr rd' wr' :
  (∀ x, x ∈ rd ↔ x ∈ rd') → (∀ x, x ∈ wr ↔ x ∈ wr') →
  DeduplicateNDArrayHandle rd wr = DeduplicateNDArrayHandle rd' wr'.
Proof.
  intros Hrd Hwr.
  rewrite (surjective_pairing (DeduplicateNDArrayHandle rd wr)),
    (surjective_pairing (DeduplicateNDArrayHandle rd' wr')).
  f_equal.
  - apply StronglySorted_lt_ext; [apply dedup_reads_sorted..|].
    intros x. rewrite !elem_of_dedup_reads, Hrd, Hwr. done.
  - apply StronglySorted_lt_ext; [apply dedup_writes_sorted..|].
    intros x. rewrite !elem_of_dedup_writes. apply Hwr.
Qed.

End dedup_more.

(* ================================================================== *)
(** * Instances on the example host

    Each lemma applies one of the theorems above to the example host,
    with every hypothesis checked by evaluation. *)

Section more_examples.

Local Abbreviation host0 := (example_host all_gpu0).

Lemma Init_shallow_copies_witness :
  example_init all_gpu0
    = (Done (example_state all_gpu0), (example_init all_gpu0).2) ∧
  ∃ evs rs,
    trace (example_init all_gpu0).2 = trace example_world ++ evs ∧
    evs = rs ≫= query_events ∧
    src <$> rs = value <$> filter (is_tensor example_codes) example_args ∧
    array_handle_ (self (example_state all_gpu0))
      = array_handle_ example_new ++ copies_made evs ∧
    Forall is_query evs.
Proof.
  assert (Init host0 example_codes example_new example_args [0; 1] [] []
            example_world
          = (Done (example_state all_gpu0), (example_init all_gpu0).2))
    as HInit by (vm_compute; reflexivity).
  split; [exact HInit|].
  exact (Init_shallow_copies host0 example_codes example_new example_args
           [0; 1] [] [] example_world _ _ HInit).
Defined.

Lemma Init_context_witness :
  example_init all_gpu0
    = (Done (example_state all_gpu0), (example_init all_gpu0).2) ∧
  ctx_ (self (example_state all_gpu0)) = {| dev_type := 2; dev_id := 0 |}.
Proof.
  assert (Init host0 example_codes example_new example_args [0; 1] [] []
            example_world
          = (Done (example_state all_gpu0), (example_init all_gpu0).2))
    as HInit by (vm_compute; reflexivity).
  split; [exact HInit|].
  pose proof (proj1 (proj2 (Init_context host0 example_codes example_new
                              example_args [0; 1] [] [] example_world _ _
                              HInit))) as Hlast.
  assert (report <$> reports host0 example_codes example_args 0
                       (host (mach example_world)) ≠ []) as Hne
    by (vm_compute; discriminate).
  specialize (Hlast Hne). apply (inj Some). rewrite <- Hlast.
  vm_compute; reflexivity.
Defined.


(** The two schedules of the engine at one call: the lambda frees the
    shallow copies itself exactly when the task is already deleted. *)
Example wrapped_release :
  handles_freed
    (trace (wrapped host0 example_codes example_func set_stream [0; 1]
              example_args example_world).2) = [] ∧
  handles_freed
    (trace (wrapped (eager_host all_gpu0) example_codes example_func
              set_stream [0; 1] example_args example_world).2)
  = [1000; 1001; 1002] ∧
  last (trace (wrapped (eager_host all_gpu0) example_codes example_func
                 set_stream [0; 1] example_args example_world).2)
  = Some (EFree 1002).
Proof. split_and!; vm_compute; reflexivity. Qed.

Lemma WrapAsyncCall_any_order_witness :
  NoDup [1; 0] ∧
  ∃ ps reads writes before after,
    trace (WrapAsyncCall host0 example_codes example_func set_stream
             [1; 0] example_args example_world).2
      = trace example_world ++ before ++ [EPushSync ps reads writes] ++ after ∧
    Forall (λ e, ¬ is_push_sync e) (before ++ after) ∧
    (∀ x, x ∈ writes ↔
          ∃ r, r ∈ reports host0 example_codes example_args 0 0%nat ∧
               copy r = x ∧ Z.of_nat (slot r) ∉ [1; 0]) ∧
    (∀ x, x ∈ reads ↔
          (∃ r, r ∈ reports host0 example_codes example_args 0 0%nat ∧
                copy r = x ∧ Z.of_nat (slot r) ∈ [1; 0]) ∧
          x ∉ writes).
Proof.
  assert (NoDup [1; 0]) as Hnd.
  { apply (bool_decide_unpack _). vm_compute. exact I. }
  assert (∀ z, z ∈ [1; 0] →
            ∃ (p : nat) a, z = Z.of_nat p ∧ example_args !! p = Some a ∧
                           is_tensor example_codes a) as Hpos.
  { intros z Hz. apply elem_of_cons in Hz as [->|Hz].
    { by exists 1%nat, (tensor_arg 200). }
    apply list_elem_of_singleton in Hz as ->.
    by exists 0%nat, (tensor_arg 100). }
  split; [exact Hnd|].
  apply (WrapAsyncCall_any_order host0 example_codes example_func set_stream
           [1; 0] example_args example_world Hnd Hpos).
  vm_compute; reflexivity.
Defined.

Lemma Run_values_witness :
  NoDup (array_loc_ (example_functor all_gpu0)) ∧
  example_run all_gpu0 = (Done (example_ran all_gpu0), (example_run all_gpu0).2) ∧
  values_ (example_ran all_gpu0) = [6000; 6001; 6002] ∧
  type_codes_ (example_ran all_gpu0) = type_codes_ (example_functor all_gpu0).
Proof.
  assert (NoDup (array_loc_ (example_functor all_gpu0))) as Hnd.
  { apply (bool_decide_unpack _). vm_compute. exact I. }
  assert (Run host0 example_codes (example_functor all_gpu0) example_rctx
            (example_init all_gpu0).2
          = (Done (example_ran all_gpu0), (example_run all_gpu0).2)) as HRun
    by (vm_compute; reflexivity).
  split_and!; [exact Hnd|exact HRun|vm_compute; reflexivity|].
  exact (proj1 (Run_values host0 example_codes _ _ _ _ _ Hnd HRun)).
Defined.

Lemma Init_Run_arguments_witness :
  example_init all_gpu0
    = (Done (example_state all_gpu0), (example_init all_gpu0).2) ∧
  example_run all_gpu0 = (Done (example_ran all_gpu0), (example_run all_gpu0).2) ∧
  ∃ dlms args' pre post,
    trace (example_run all_gpu0).2 =
      trace (example_init all_gpu0).2 ++
      zip_with EToDLPack
        (copy <$> reports host0 example_codes example_args 0 0%nat) dlms ++
      pre ++ [ECallPacked args'] ++ post ∧
    length args' = length example_args.
Proof.
  assert (Init host0 example_codes
            (TVMFunctor_new example_func set_stream
               {| dev_type := 0; dev_id := 0 |})
            example_args [0; 1] [] [] example_world
          = (Done (example_state all_gpu0), (example_init all_gpu0).2))
    as HInit by (vm_compute; reflexivity).
  assert (Run host0 example_codes (self (example_state all_gpu0))
            example_rctx (example_init all_gpu0).2
          = (Done (example_ran all_gpu0), (example_run all_gpu0).2)) as HRun
    by (vm_compute; reflexivity).
  split_and!; [exact HInit|exact HRun|].
  destruct (Init_Run_arguments host0 example_codes _ _ _ _ _ _ _ _ _ _ _ _ _ _
              HInit HRun)
    as (dlms & args' & pre & post & Htr & _ & _ & Hlen & _).
  exists dlms, args', pre, post. split; [exact Htr|exact Hlen].
Defined.

Lemma Run_thread_locals_witness :
  example_run all_gpu0 = (Done (example_ran all_gpu0), (example_run all_gpu0).2) ∧
  DEV_ID (mach (example_run all_gpu0).2) = 0 ∧
  STRM (mach (example_run all_gpu0).2) = 0.
Proof.
  assert (Run host0 example_codes (example_functor all_gpu0) example_rctx
            (example_init all_gpu0).2
          = (Done (example_ran all_gpu0), (example_run all_gpu0).2)) as HRun
    by (vm_compute; reflexivity).
  split; [exact HRun|].
  destruct (Run_thread_locals host0 example_codes _ _ _ _ _ HRun)
    as (m1 & m2 & dlms & _ & Hgpu & _).
  destruct Hgpu as (_ & _ & ->); [vm_compute; reflexivity..|].
  cbn [DEV_ID STRM]. split; reflexivity.
Defined.

Lemma Run_no_cleanup_witness :
  ∃ w',
    Run host0 example_codes example_stuck_functor example_rctx
      example_stuck_init.2 = (Stop Thrown, w') ∧
    ∃ dlms evs,
      length dlms = length (array_loc_ example_stuck_functor) ∧
      trace w' = trace example_stuck_init.2 ++
        zip_with EToDLPack (array_handle_ example_stuck_functor) dlms ++ evs ∧
      Forall (λ e, ¬ is_deleter e) evs ∧ evs ≠ [].
Proof.
  eexists.
  assert (Run host0 example_codes example_stuck_functor example_rctx
            example_stuck_init.2
          = (Stop Thrown,
             (Run host0 example_codes example_stuck_functor example_rctx
                example_stuck_init.2).2)) as HRun
    by (vm_compute; reflexivity).
  split; [exact HRun|].
  exact (Run_no_cleanup host0 example_codes _ _ _ _ HRun).
Defined.

Lemma destructor_frees_copies_witness :
  example_init all_gpu0
    = (Done (example_state all_gpu0), (example_init all_gpu0).2) ∧
  ∃ w3,
    TVMFunctor_free host0 (array_handle_ (example_ran all_gpu0))
      (example_run all_gpu0).2 = (Done (), w3) ∧
    handles_freed (drop (length (trace (example_run all_gpu0).2)) (trace w3))
      = [1000; 1001; 1002].
Proof.
  assert (Init host0 example_codes
            (TVMFunctor_new example_func set_stream
               {| dev_type := 0; dev_id := 0 |})
            example_args [0; 1] [] [] example_world
          = (Done (example_state all_gpu0), (example_init all_gpu0).2))
    as HInit by (vm_compute; reflexivity).
  assert (Run host0 example_codes (self (example_state all_gpu0))
            example_rctx (example_init all_gpu0).2
          = (Done (example_ran all_gpu0), (example_run all_gpu0).2)) as HRun
    by (vm_compute; reflexivity).
  split; [exact HInit|].
  destruct (destructor_frees_copies host0 example_codes _ _ _ _ _ _ _ _ _ _
              (example_ran all_gpu0) (example_run all_gpu0).2 HInit
              (or_intror (ex_intro _ _ (ex_intro _ _ (ex_intro _ _ HRun)))))
    as (evs_init & evs_free & w3 & Htr1 & Hfree & Htr3 & _ & Hfreed).
  exists w3. split; [exact Hfree|].
  rewrite Htr3, drop_app_length, Hfreed.
  assert (evs_init = drop (length (trace example_world))
                       (trace (example_init all_gpu0).2)) as ->.
  { by rewrite Htr1, drop_app_length. }
  vm_compute; reflexivity.
Defined.

Lemma dedup_depends_on_sets_witness :
  Dedup.DeduplicateNDArrayHandle [3; 1; 3; 2] [2; 5]
    = Dedup.DeduplicateNDArrayHandle [1; 2; 3] [5; 2; 2].
Proof.
  apply dedup_depends_on_sets.
  - intros x. rewrite !elem_of_cons, !elem_of_nil. tauto.
  - intros x. rewrite !elem_of_cons, !elem_of_nil. tauto.
Defined.

End more_examples.

(* ================================================================== *)
(** * The launch: blocks, threads and [parfor] *)

Section launch_facts.
Import Cuda.

Lemma int_Some z : INT_MIN ≤ z ≤ INT_MAX → int z = Some z.
Proof. intros Hz. unfold int. by rewrite bool_decide_eq_true_2. Qed.

Lemma int_None z : ¬ (INT_MIN ≤ z ≤ INT_MAX) → int z = None.
Proof. intros Hz. unfold int. by rewrite bool_decide_eq_false_2. Qed.

Lemma int_Some_inv z r : int z = Some r → r = z ∧ INT_MIN ≤ z ≤ INT_MAX.
Proof. unfold int. case_bool_decide; [|done]. by intros [= <-]. Qed.

Lemma CUDA_GET_BLOCKS_facts n :
  0 ≤ n ≤ INT_MAX - 512 →
  ∃ g, CUDA_GET_BLOCKS n = Some g ∧ 0 ≤ g ∧
       CUDA_NUM_THREADS * (g - 1) < n ∧ n ≤ CUDA_NUM_THREADS * g.
Proof.
  intros Hn. unfold CUDA_GET_BLOCKS, iadd, isub, idiv, CUDA_NUM_THREADS.
  unfold INT_MAX, INT_MIN in *.
  rewrite int_Some by (unfold INT_MAX, INT_MIN; lia). simpl.
  rewrite int_Some by (unfold INT_MAX, INT_MIN; lia). simpl.
  assert (0 ≤ (n + 512 - 1) ÷ 512 ≤ n + 512 - 1) as Hq.
  { rewrite Z.quot_div_nonneg by lia. split; [apply Z.div_pos; lia|].
    apply Z.div_le_upper_bound; lia. }
  rewrite int_Some by (unfold INT_MAX, INT_MIN; lia).
  eexists. split; [done|]. rewrite Z.quot_div_nonneg by lia.
  pose proof (Z.div_mod (n + 512 - 1) 512 ltac:(lia)).
  pose proof (Z.mod_pos_bound (n + 512 - 1) 512 ltac:(lia)). lia.
Qed.

(** X14: [CUDA_GET_BLOCKS(n)] is defined for a non-negative [int] [n]
    exactly when [n + 512] is representable; it is then the least number
    of blocks of 512 threads with at least [n] threads. *)
Theorem CUDA_GET_BLOCKS_ceil n :
  0 ≤ n ≤ INT_MAX →
  (is_Some (CUDA_GET_BLOCKS n) ↔ n ≤ INT_MAX - 512) ∧
  ∀ g, CUDA_GET_BLOCKS n = Some g →
       0 ≤ g ∧ CUDA_NUM_THREADS * (g - 1) < n ≤ CUDA_NUM_THREADS * g.
Proof.
  intros Hn. unfold CUDA_GET_BLOCKS, iadd, isub, idiv, CUDA_NUM_THREADS.
  unfold INT_MAX, INT_MIN in *.
  destruct (decide (n ≤ 2 ^ 31 - 1 - 512)) as [Hle|Hgt].
  - rewrite int_Some by (unfold INT_MAX, INT_MIN; lia). simpl.
    rewrite int_Some by (unfold INT_MAX, INT_MIN; lia). simpl.
    assert (0 ≤ (n + 512 - 1) ÷ 512 ≤ n + 512 - 1) as Hq.
    { rewrite Z.quot_div_nonneg by lia. split; [apply Z.div_pos; lia|].
      apply Z.div_le_upper_bound; lia. }
    rewrite int_Some by (unfold INT_MAX, INT_MIN; lia).
    split; [by split; [|eauto]|].
    intros g [= <-]. rewrite Z.quot_div_nonneg by lia.
    pose proof (Z.div_mod (n + 512 - 1) 512 ltac:(lia)).
    pose proof (Z.mod_pos_bound (n + 512 - 1) 512 ltac:(lia)). lia.
  - rewrite int_None by (unfold INT_MAX, INT_MIN; lia). simpl.
    split; [|done]. split; [by intros [? [=]]|lia].
Qed.


Lemma uint_small z : 0 ≤ z < 2 ^ 32 → uint z = z.
Proof. intros Hz. unfold uint. by apply Z.mod_small. Qed.

Lemma to_int_small u : u ≤ INT_MAX → to_int u = u.
Proof. intros Hu. unfold to_int. by rewrite bool_decide_eq_true_2. Qed.

Lemma to_int_big u : INT_MAX < u → to_int u = u - 2 ^ 32.
Proof. intros Hu. unfold to_int. rewrite bool_decide_eq_false_2; [done|lia]. Qed.

Lemma for_each_nil {A St} (f : A → St → option St) s : for_each [] f s = Some s.
Proof. done. Qed.

Lemma foldl_bind_None {A St} (f : A → St → option St) l :
  foldl (λ acc a, acc ≫= f a) None l = None.
Proof. induction l as [|a l IH]; [done|]. exact IH. Qed.

Lemma for_each_cons {A St} (f : A → St → option St) a l s :
  for_each (a :: l) f s = f a s ≫= for_each l f.
Proof.
  unfold for_each. simpl. destruct (f a s) as [s'|]; [done|].
  apply foldl_bind_None.
Qed.

Lemma for_each_app {A St} (f : A → St → option St) l1 l2 s :
  for_each (l1 ++ l2) f s = for_each l1 f s ≫= for_each l2 f.
Proof.
  revert s. induction l1 as [|a l1 IH]; intros s; [done|].
  rewrite <- app_comm_cons, !for_each_cons.
  destruct (f a s) as [s'|]; [apply IH|done].
Qed.

(** A pass over [l] whose action at [a] is [F] at [g a] when [P (g a)]
    and nothing otherwise is a pass of [F] over the selected values. *)
Lemma for_each_filter {A St} (g : A → Z) (P : Z → Prop) `{!∀ i, Decision (P i)}
    (k : A → St → option St) (F : Z → St → option St) l s :
  (∀ a s, a ∈ l → k a s = if bool_decide (P (g a)) then F (g a) s else Some s) →
  for_each l k s = for_each (filter P (g <$> l)) F s.
Proof.
  revert s. induction l as [|a l IH]; intros s Hk; [done|].
  rewrite for_each_cons, fmap_cons, filter_cons, Hk by left.
  case_bool_decide as HP.
  - rewrite decide_True by done. rewrite for_each_cons.
    destruct (F (g a) s) as [s'|]; [|done]. simpl.
    apply IH. intros a' s0 Ha'. apply Hk. by right.
  - rewrite decide_False by done. simpl.
    apply IH. intros a' s0 Ha'. apply Hk. by right.
Qed.

Lemma filter_Forall {A} (P : A → Prop) `{!∀ x, Decision (P x)} l :
  Forall P l → filter P l = l.
Proof.
  induction 1 as [|x l Hx _ IH]; [done|].
  by rewrite filter_cons_True, IH.
Qed.

Lemma filter_Forall_not {A} (P : A → Prop) `{!∀ x, Decision (P x)} l :
  Forall (λ x, ¬ P x) l → filter P l = [].
Proof.
  induction 1 as [|x l Hx _ IH]; [done|].
  by rewrite filter_cons_False.
Qed.

Lemma filter_lt_seqZ n m :
  0 ≤ n ≤ m → filter (λ i, i < n) (seqZ 0 m) = seqZ 0 n.
Proof.
  intros Hnm. replace m with (n + (m - n)) by lia.
  rewrite seqZ_app by lia. rewrite filter_app.
  rewrite filter_Forall.
  2:{ apply Forall_forall. intros x Hx%elem_of_seqZ. lia. }
  rewrite filter_Forall_not; [by rewrite app_nil_r|].
  apply Forall_forall. intros x Hx%elem_of_seqZ. lia.
Qed.

Lemma elem_of_threads th grid block :
  th ∈ threads grid block ↔
  0 ≤ blockIdx th < grid ∧ 0 ≤ threadIdx th < block ∧
  blockDim th = block ∧ gridDim th = grid.
Proof.
  unfold threads. rewrite list_elem_of_bind. split.
  - intros (b & (t & Ht & Hin)%list_elem_of_bind & Hb).
    apply list_elem_of_singleton in Ht as ->. simpl.
    apply elem_of_seqZ in Hb, Hin. lia.
  - intros (Hb & Ht & Hbd & Hgd). exists (blockIdx th). split.
    + apply list_elem_of_bind. exists (threadIdx th).
      split; [|apply elem_of_seqZ; lia].
      apply list_elem_of_singleton. destruct th; simpl in *. by subst.
    + apply elem_of_seqZ. lia.
Qed.

Lemma global_id_blocks (k : nat) block grid :
  0 ≤ block →
  global_id <$>
    (seqZ 0 (Z.of_nat k) ≫= λ b, seqZ 0 block ≫= λ t,
       [{| blockIdx := b; blockDim := block; threadIdx := t;
           gridDim := grid |}])
  = seqZ 0 (Z.of_nat k * block).
Proof.
  intros Hblock. induction k as [|k IH]; [done|].
  replace (Z.of_nat (S k)) with (Z.of_nat k + 1) by lia.
  rewrite seqZ_app by lia. rewrite bind_app, fmap_app, IH.
  replace ((Z.of_nat k + 1) * block)
    with (Z.of_nat k * block + block) by lia.
  rewrite (seqZ_app _ (Z.of_nat k * block) block) by lia. f_equal.
  replace (seqZ (0 + Z.of_nat k) 1) with [Z.of_nat k] by done.
  rewrite bind_cons. change ([] ≫= _) with (@nil Thread). rewrite app_nil_r.
  replace (0 + Z.of_nat k * block) with (Z.of_nat k * block + 0) by lia.
  rewrite <- (fmap_add_seqZ (Z.of_nat k * block) 0 block).
  generalize (seqZ 0 block). intros l. induction l as [|t l IHl]; [done|].
  rewrite bind_cons, !fmap_cons, fmap_app, IHl. simpl.
  f_equal; unfold global_id; simpl; lia.
Qed.

Lemma global_id_threads g block :
  0 ≤ g → 0 ≤ block →
  global_id <$> threads g block = seqZ 0 (g * block).
Proof.
  intros Hg Hblock. unfold threads.
  pose proof (global_id_blocks (Z.to_nat g) block g Hblock) as Heq.
  rewrite Z2Nat.id in Heq by done. exact Heq.
Qed.

(** In a launch of [g] blocks of 512 threads with at least [n] threads
    whose indices and stride stay below 2^31, [parfor] runs its body
    once, at the thread's own index, or not at all. *)
Lemma parfor_once {St} (F : Z → St → option St) th n g fuel s :
  th ∈ threads g CUDA_NUM_THREADS →
  0 ≤ n ≤ CUDA_NUM_THREADS * g →
  n - 1 + CUDA_NUM_THREADS * g ≤ INT_MAX →
  (2 ≤ fuel)%nat →
  parfor fuel th n F s =
  if bool_decide (global_id th < n) then F (global_id th) s else Some s.
Proof.
  intros (Hb & Ht & Hbd & Hgd)%elem_of_threads Hn Hmax Hfuel.
  unfold CUDA_NUM_THREADS, INT_MAX in *.
  assert (0 ≤ global_id th < 512 * g) as Hgid by (unfold global_id; nia).
  unfold parfor. fold (global_id th).
  assert (to_int (uint (uint (blockIdx th * blockDim th) + threadIdx th))
          = global_id th) as ->.
  { unfold global_id in *.
    rewrite (uint_small (_ * _)) by nia.
    rewrite uint_small by nia.
    apply to_int_small. unfold INT_MAX. nia. }
  destruct fuel as [|[|fuel]]; [lia..|]. simpl.
  case_bool_decide as Hlt; [|done].
  destruct (F (global_id th) s) as [s'|]; [|done]. simpl.
  rewrite Hbd, Hgd.
  rewrite (uint_small (global_id th)), (uint_small (512 * g)) by lia.
  rewrite uint_small by lia.
  rewrite to_int_small by (unfold INT_MAX; lia).
  rewrite bool_decide_eq_false_2; [done|lia].
Qed.

Lemma KERNEL_RUN_parfor_gen {St} (F : Z → St → option St) n fuel s :
  0 ≤ n ≤ 2 ^ 30 → (2 ≤ fuel)%nat →
  KERNEL_RUN (λ th, parfor fuel th n F) n s = for_each (seqZ 0 n) F s ∧
  ∃ g, CUDA_GET_BLOCKS n = Some g ∧
    ∀ order, order ≡ₚ threads g CUDA_NUM_THREADS →
      let visited := filter (λ i, i < n) (global_id <$> order) in
      visited ≡ₚ seqZ 0 n ∧
      launch order (λ th, parfor fuel th n F) s = for_each visited F s.
Proof.
  intros Hn Hfuel.
  destruct (CUDA_GET_BLOCKS_facts n) as (g & Hg & Hg0 & Hlo & Hhi);
    [unfold INT_MAX; lia|].
  assert (n - 1 + CUDA_NUM_THREADS * g ≤ INT_MAX) as Hmax.
  { unfold CUDA_NUM_THREADS, INT_MAX in *. lia. }
  assert (∀ order, order ≡ₚ threads g CUDA_NUM_THREADS →
            launch order (λ th, parfor fuel th n F) s =
            for_each (filter (λ i, i < n) (global_id <$> order)) F s)
    as Horder.
  { intros order Hperm. unfold launch. apply for_each_filter.
    intros th s0 Hth. apply (parfor_once F th n g); [|lia|done..].
    by rewrite <- Hperm. }
  assert (global_id <$> threads g CUDA_NUM_THREADS
          = seqZ 0 (g * CUDA_NUM_THREADS)) as Hids.
  { apply global_id_threads; [done|]. unfold CUDA_NUM_THREADS. lia. }
  split.
  - unfold KERNEL_RUN. rewrite Hg. simpl. rewrite Horder by done.
    rewrite Hids, filter_lt_seqZ; [done|]. lia.
  - exists g. split; [done|]. intros order Hperm visited. split.
    + unfold visited. rewrite Hperm, Hids, filter_lt_seqZ; [done|]. lia.
    + by apply Horder.
Qed.

(** X15: the launch of [KERNEL_RUN(a, n)] with [parfor(n, F)] as the
    kernel. For [0 ≤ n ≤ 2^30] the body [F] is run exactly once for
    each index below [n] and for no other index: with the threads in
    block and thread order the launch is [F] at 0, 1, ..., n-1, and with
    the threads in any order it is [F] over a rearrangement of these
    indices. Two tests of the loop condition are enough in every
    thread. *)
Theorem KERNEL_RUN_parfor {St} (F : Z → St → option St) n fuel s :
  0 ≤ n ≤ 2 ^ 30 → (2 ≤ fuel)%nat →
  KERNEL_RUN (λ th, parfor fuel th n F) n s = for_each (seqZ 0 n) F s ∧
  ∃ g, CUDA_GET_BLOCKS n = Some g ∧
    ∀ order, order ≡ₚ threads g CUDA_NUM_THREADS →
      let visited := filter (λ i, i < n) (global_id <$> order) in
      visited ≡ₚ seqZ 0 n ∧
      launch order (λ th, parfor fuel th n F) s = for_each visited F s.
Proof. apply KERNEL_RUN_parfor_gen. Qed.

(** X16: above 2^30 the stride of [parfor] leaves the range of [int].
    For [2^30 < n ≤ INT_MAX - 512], the thread of [KERNEL_RUN(a, n)] that
    starts at index [n - 1] runs the body there, then adds the stride
    [512 * g] in unsigned arithmetic; converted back to [int] the sum is
    negative, the test [i < n] holds again, and the body is run a
    second time, at that negative index. *)
Theorem parfor_wraps {St} (F : Z → St → option St) n g fuel s :
  2 ^ 30 < n ≤ INT_MAX - 512 →
  CUDA_GET_BLOCKS n = Some g →
  ∃ th i2,
    th ∈ threads g CUDA_NUM_THREADS ∧
    global_id th = n - 1 ∧
    i2 = n - 1 + CUDA_NUM_THREADS * g - 2 ^ 32 ∧
    i2 < 0 ∧
    parfor (S (S fuel)) th n F s =
      F (n - 1) s ≫= λ s1, F i2 s1 ≫=
        parfor_loop fuel th n F
          (to_int (uint (uint i2 + uint (CUDA_NUM_THREADS * g)))).
Proof.
  intros Hn Hg.
  destruct (CUDA_GET_BLOCKS_facts n) as (g' & Hg' & Hg0 & Hlo & Hhi);
    [unfold INT_MAX in *; lia|].
  rewrite Hg in Hg'. injection Hg' as <-.
  unfold CUDA_NUM_THREADS, INT_MAX in *.
  pose proof (Z.div_mod (n - 1) 512 ltac:(lia)) as Hdm.
  pose proof (Z.mod_pos_bound (n - 1) 512 ltac:(lia)) as Hm.
  assert (0 ≤ (n - 1) `div` 512 < g) as Hb.
  { split; [apply Z.div_pos; lia|]. apply Z.div_lt_upper_bound; lia. }
  set (th := {| blockIdx := (n - 1) `div` 512; blockDim := 512;
                threadIdx := (n - 1) `mod` 512; gridDim := g |}).
  assert (global_id th = n - 1) as Hgid.
  { unfold global_id, th. simpl. lia. }
  exists th, (n - 1 + 512 * g - 2 ^ 32).
  split_and!; [by apply elem_of_threads|done|done|lia|].
  unfold parfor. fold (global_id th).
  assert (to_int (uint (uint (blockIdx th * blockDim th) + threadIdx th))
          = n - 1) as ->.
  { rewrite <- Hgid. unfold global_id, th in *. simpl in *.
    rewrite (uint_small (_ * _)) by lia.
    rewrite uint_small by lia.
    apply to_int_small. unfold INT_MAX. lia. }
  cbn [parfor_loop].
  rewrite bool_decide_eq_true_2 by lia.
  destruct (F (n - 1) s) as [s1|]; [|done]. simpl.
  assert (to_int (uint (uint (n - 1) + uint (512 * g)))
          = n - 1 + 512 * g - 2 ^ 32) as ->.
  { rewrite (uint_small (n - 1)), (uint_small (512 * g)) by lia.
    rewrite uint_small by lia. apply to_int_big. unfold INT_MAX. lia. }
  rewrite bool_decide_eq_true_2 by lia. done.
Qed.

End launch_facts.

(* ================================================================== *)
(** * Buffers and mixed-radix offsets *)

Section buffer_facts.
Import Cuda Im2col.
Context {T : Type}.
Implicit Types (mem : list T) (ws : list (Z * T)).

Lemma scatter_cons w0 ws mem :
  scatter (w0 :: ws) mem = scatter ws (<[Z.to_nat w0.1 := w0.2]> mem).
Proof. done. Qed.

Lemma scatter_app ws1 ws2 mem :
  scatter (ws1 ++ ws2) mem = scatter ws2 (scatter ws1 mem).
Proof. unfold scatter. by rewrite foldl_app. Qed.

Lemma length_scatter ws mem : length (scatter ws mem) = length mem.
Proof.
  revert mem. induction ws as [|w0 ws IH]; intros mem; [done|].
  by rewrite scatter_cons, IH, length_insert.
Qed.

(** The value at an offset that is written, when every write to that
    offset carries the same value. *)
Lemma scatter_lookup a v ws mem :
  0 ≤ a → (Z.to_nat a < length mem)%nat →
  Forall (λ w0, 0 ≤ w0.1) ws →
  (a, v) ∈ ws → (∀ v', (a, v') ∈ ws → v' = v) →
  scatter ws mem !! Z.to_nat a = Some v.
Proof.
  intros Ha Hlen. induction ws as [|[a0 v0] ws IH] using rev_ind; [by inv 2|].
  intros [Hpos Ha0]%Forall_app Hin Huniq.
  rewrite Forall_singleton in Ha0. simpl in Ha0.
  rewrite scatter_app. simpl.
  destruct (decide (a0 = a)) as [->|Hne].
  - rewrite (Huniq v0) by (apply elem_of_app; right; by left).
    apply list_lookup_insert_eq. by rewrite length_scatter.
  - rewrite list_lookup_insert_ne by lia. apply IH; [done| |].
    + apply elem_of_app in Hin as [Hin|Hin]; [done|].
      apply list_elem_of_singleton in Hin. congruence.
    + intros v' Hv'. apply Huniq. apply elem_of_app. by left.
Qed.

Lemma load_Some mem p x :
  0 ≤ p → mem !! Z.to_nat p = Some x → load mem p = Some x.
Proof. intros Hp Hx. unfold load. by rewrite bool_decide_eq_true_2. Qed.

Lemma store_Some mem p v :
  0 ≤ p < Z.of_nat (length mem) →
  store mem p v = Some (<[Z.to_nat p := v]> mem).
Proof. intros Hp. unfold store. by rewrite bool_decide_eq_true_2. Qed.

Lemma radix_step a b A m :
  0 ≤ a ≤ A - 1 → 0 ≤ b < m → 0 ≤ a * m + b ≤ A * m - 1.
Proof. nia. Qed.

Lemma radix_inj a b a' b' m :
  0 ≤ b < m → 0 ≤ b' < m → a * m + b = a' * m + b' → a = a' ∧ b = b'.
Proof.
  intros Hb Hb' Heq.
  destruct (Z.lt_trichotomy a a') as [Hlt|[->|Hgt]]; [|lia|].
  - assert (m ≤ (a' - a) * m) by nia. lia.
  - assert (m ≤ (a - a') * m) by nia. lia.
Qed.

Lemma quot_radix a b m : 0 ≤ a → 0 ≤ b < m → (a * m + b) ÷ m = a.
Proof.
  intros Ha Hb. rewrite Z.quot_div_nonneg by nia.
  symmetry. apply (Z.div_unique_pos _ _ a b); lia.
Qed.

Lemma rem_radix a b m : 0 ≤ a → 0 ≤ b < m → Z.rem (a * m + b) m = b.
Proof.
  intros Ha Hb. rewrite Z.rem_mod_nonneg by nia.
  symmetry. apply (Z.mod_unique_pos _ _ a b); lia.
Qed.

Lemma idiv_radix a b m :
  0 ≤ a → 0 ≤ b < m → a * m + b ≤ INT_MAX → idiv (a * m + b) m = Some a.
Proof.
  intros Ha Hb Hmax. unfold idiv.
  rewrite bool_decide_eq_false_2 by lia. rewrite quot_radix by done.
  apply int_Some. unfold INT_MIN, INT_MAX in *. nia.
Qed.

Lemma irem_radix a b m :
  0 ≤ a → 0 ≤ b < m → a * m + b ≤ INT_MAX → irem (a * m + b) m = Some b.
Proof.
  intros Ha Hb Hmax. unfold irem. rewrite idiv_radix by done. simpl.
  by rewrite rem_radix.
Qed.

Lemma out_size_bounds size kernel pad stride dilation :
  0 < stride → dilation * (kernel - 1) + 1 ≤ size + 2 * pad →
  let o := out_size size kernel pad stride dilation in
  1 ≤ o ∧ (o - 1) * stride + dilation * (kernel - 1) + 1 ≤ size + 2 * pad ∧
  size + 2 * pad < o * stride + dilation * (kernel - 1) + 1.
Proof.
  intros Hs Hfit o. unfold o, out_size.
  set (num := size + 2 * pad - (dilation * (kernel - 1) + 1)).
  assert (0 ≤ num) as Hnum by (unfold num; lia).
  rewrite Z.quot_div_nonneg by lia.
  pose proof (Z.div_mod num stride ltac:(lia)).
  pose proof (Z.mod_pos_bound num stride Hs).
  assert (0 ≤ num `div` stride) by (apply Z.div_pos; lia).
  unfold num in *. nia.
Qed.

(** [col_size] is [out_size] when the padded size is an [int]. *)
Lemma col_size_out_size size kernel pad stride dilation :
  0 < size → 0 < kernel → 0 ≤ pad → 0 < stride → 0 < dilation →
  dilation * (kernel - 1) + 1 ≤ size + 2 * pad →
  size + 2 * pad ≤ INT_MAX →
  col_size size kernel pad stride dilation
  = Some (out_size size kernel pad stride dilation).
Proof.
  intros Hsz Hk Hp Hs Hd Hfit Hmax.
  unfold col_size, imul, iadd, isub, idiv. unfold INT_MAX in *.
  assert (0 ≤ dilation * (kernel - 1)) by nia.
  assert (kernel - 1 ≤ dilation * (kernel - 1)) by nia.
  rewrite (int_Some (2 * pad)) by (unfold INT_MIN, INT_MAX; lia).
  cbn [mbind option_bind].
  rewrite (int_Some (size + _)) by (unfold INT_MIN, INT_MAX; lia).
  cbn [mbind option_bind].
  rewrite (int_Some (kernel - 1)) by (unfold INT_MIN, INT_MAX; lia).
  cbn [mbind option_bind].
  rewrite (int_Some (dilation * _)) by (unfold INT_MIN, INT_MAX; lia).
  cbn [mbind option_bind].
  rewrite (int_Some (_ + 1)) by (unfold INT_MIN, INT_MAX; lia).
  cbn [mbind option_bind].
  rewrite (int_Some (_ - _)) by (unfold INT_MIN, INT_MAX; lia).
  cbn [mbind option_bind].
  rewrite bool_decide_eq_false_2 by lia.
  destruct (out_size_bounds size kernel pad stride dilation Hs Hfit)
    as (Ho1 & Ho2 & _).
  unfold out_size in *.
  generalize dependent
    ((size + 2 * pad - (dilation * (kernel - 1) + 1)) ÷ stride).
  intros q Ho1 Ho2.
  assert (0 ≤ q) by lia.
  assert (q ≤ size + 2 * pad) by nia.
  rewrite (int_Some q) by (unfold INT_MIN, INT_MAX; lia).
  cbn [mbind option_bind].
  rewrite int_Some by (unfold INT_MIN, INT_MAX; lia). done.
Qed.

Lemma le_mul_r x m : 0 ≤ x → 1 ≤ m → x ≤ x * m.
Proof. nia. Qed.

Lemma iadd_Some a b : INT_MIN ≤ a + b ≤ INT_MAX → iadd a b = Some (a + b).
Proof. apply int_Some. Qed.

Lemma isub_Some a b : INT_MIN ≤ a - b ≤ INT_MAX → isub a b = Some (a - b).
Proof. apply int_Some. Qed.

Lemma imul_Some a b : INT_MIN ≤ a * b ≤ INT_MAX → imul a b = Some (a * b).
Proof. apply int_Some. Qed.

Lemma quot_le a d : 0 ≤ a → 0 < d → 0 ≤ a ÷ d ≤ a.
Proof.
  intros Ha Hd. rewrite Z.quot_div_nonneg by lia.
  split; [apply Z.div_pos; lia|]. apply Z.div_le_upper_bound; nia.
Qed.

Lemma div_ge_iff a s p : 0 < s → p ≤ a `div` s ↔ p * s ≤ a.
Proof.
  intros Hs. split.
  - intros Hp. pose proof (Z.mul_div_le a s Hs). nia.
  - intros Hp. apply Z.div_le_lower_bound; lia.
Qed.

Lemma div_lt_iff a s p : 0 < s → a `div` s < p ↔ a < p * s.
Proof. intros Hs. pose proof (div_ge_iff a s p Hs). lia. Qed.

(** The loop bounds of col2im along one axis: the kernel positions [p]
    between them are those whose kernel covers the coordinate. *)
Lemma col_range_spec x_im ext stride size_col :
  0 < stride → 0 ≤ x_im →
  let start :=
    if bool_decide (x_im < ext) then 0 else (x_im - ext) ÷ stride + 1 in
  let stop := Z.min (x_im ÷ stride + 1) size_col in
  0 ≤ start ∧ stop ≤ size_col ∧
  ∀ p, 0 ≤ p < size_col →
       start ≤ p < stop ↔ 0 ≤ x_im - p * stride ≤ ext - 1.
Proof.
  intros Hs Hx start stop. unfold start, stop.
  rewrite (Z.quot_div_nonneg x_im) by lia.
  pose proof (div_ge_iff x_im stride) as Hge.
  case_bool_decide as Hext.
  - split_and!; [done|lia|]. intros p Hp.
    specialize (Hge p Hs). nia.
  - rewrite Z.quot_div_nonneg by lia.
    pose proof (div_lt_iff (x_im - ext) stride) as Hlt.
    assert (0 ≤ (x_im - ext) `div` stride) by (apply Z.div_pos; lia).
    split_and!; [lia|lia|]. intros p Hp.
    specialize (Hge p Hs). specialize (Hlt p Hs). lia.
Qed.

Lemma col_start_eval x_im ext stride :
  0 < stride → 0 ≤ ext → 0 ≤ x_im < INT_MAX →
  (if bool_decide (x_im < ext) then Some 0
   else t ← isub x_im ext; t ← idiv t stride; iadd t 1)
  = Some (if bool_decide (x_im < ext) then 0
          else (x_im - ext) ÷ stride + 1).
Proof.
  intros Hs Hext Hx. case_bool_decide as Hlt; [done|].
  pose proof (quot_le (x_im - ext) stride ltac:(lia) Hs) as Hq.
  unfold isub, idiv, iadd. unfold INT_MAX in *.
  rewrite int_Some by (unfold INT_MIN, INT_MAX; lia). cbn [mbind option_bind].
  rewrite bool_decide_eq_false_2 by lia.
  rewrite int_Some by (unfold INT_MIN, INT_MAX; lia). cbn [mbind option_bind].
  by rewrite int_Some by (unfold INT_MIN, INT_MAX; lia).
Qed.

Lemma idiv_Some a b :
  0 ≤ a ≤ INT_MAX → 0 < b → idiv a b = Some (a ÷ b).
Proof.
  intros Ha Hb. pose proof (quot_le a b ltac:(lia) Hb) as Hq.
  unfold idiv. rewrite bool_decide_eq_false_2 by lia.
  apply int_Some. unfold INT_MIN, INT_MAX in *. lia.
Qed.

Lemma is_tap_iff kernel pad stride dilation x p :
  0 < dilation → 0 < kernel →
  is_tap kernel pad stride dilation x p ↔
  0 ≤ tap pad stride x p ≤ dilation * (kernel - 1) ∧
  Z.rem (tap pad stride x p) dilation = 0.
Proof.
  intros Hd Hk. unfold is_tap. generalize (tap pad stride x p). intros k.
  split.
  - intros (Hk0 & Hrem & Hq).
    rewrite Z.rem_mod_nonneg in Hrem by lia.
    rewrite Z.quot_div_nonneg in Hq by lia.
    pose proof (Z.div_mod k dilation ltac:(lia)).
    split; [|by rewrite Z.rem_mod_nonneg by lia]. nia.
  - intros ([Hk0 Hk1] & Hrem). split_and!; [done..|].
    rewrite Z.rem_mod_nonneg in Hrem by lia.
    rewrite Z.quot_div_nonneg by lia.
    apply Z.div_lt_upper_bound; nia.
Qed.

Lemma radix_decode A m1 m2 index :
  0 < m1 → 0 < m2 → 0 ≤ index < A * m1 * m2 →
  0 ≤ index ÷ m2 ÷ m1 < A ∧
  0 ≤ Z.rem (index ÷ m2) m1 < m1 ∧
  0 ≤ Z.rem index m2 < m2 ∧
  index = (index ÷ m2 ÷ m1 * m1 + Z.rem (index ÷ m2) m1) * m2
          + Z.rem index m2.
Proof.
  intros Hm1 Hm2 Hindex.
  rewrite (Z.quot_div_nonneg index), (Z.rem_mod_nonneg index) by lia.
  assert (0 ≤ index `div` m2 < A * m1) as Hq.
  { split; [apply Z.div_pos; lia|]. apply Z.div_lt_upper_bound; lia. }
  rewrite Z.quot_div_nonneg, Z.rem_mod_nonneg by lia.
  pose proof (Z.div_mod index m2 ltac:(lia)).
  pose proof (Z.mod_pos_bound index m2 ltac:(lia)).
  pose proof (Z.div_mod (index `div` m2) m1 ltac:(lia)).
  pose proof (Z.mod_pos_bound (index `div` m2) m1 ltac:(lia)).
  split_and!; [apply Z.div_pos; lia|apply Z.div_lt_upper_bound; lia|lia..].
Qed.

Lemma bind_nil_all {A B} (F : A → list B) l :
  (∀ a, a ∈ l → F a = []) → l ≫= F = [].
Proof.
  induction l as [|a l IH]; intros HF; [done|].
  rewrite bind_cons, HF by left. apply IH. intros a' Ha'. apply HF. by right.
Qed.

Lemma bind_seqZ_restrict {B} (F : Z → list B) n s e :
  0 ≤ s → e ≤ n →
  (∀ p, 0 ≤ p < n → ¬ (s ≤ p < e) → F p = []) →
  seqZ 0 n ≫= F = seqZ s (e - s) ≫= F.
Proof.
  intros Hs He HF. destruct (decide (s ≤ e)) as [Hse|Hse].
  - replace n with (s + ((e - s) + (n - e))) at 1 by lia.
    rewrite !seqZ_app, !bind_app by lia.
    rewrite (bind_nil_all F (seqZ 0 s)).
    2:{ intros p Hp%elem_of_seqZ. apply HF; lia. }
    rewrite (bind_nil_all F (seqZ _ (n - e))).
    2:{ intros p Hp%elem_of_seqZ. apply HF; lia. }
    by rewrite app_nil_r.
  - rewrite (bind_nil_all F (seqZ 0 n)).
    2:{ intros p Hp%elem_of_seqZ. apply HF; lia. }
    unfold seqZ. by replace (Z.to_nat (e - s)) with 0%nat by lia.
Qed.

Lemma for_each_foldl {A B St} (f : A → St → option St) (g : St → B → St)
    (G : A → list B) l s :
  (∀ a s, a ∈ l → f a s = Some (foldl g s (G a))) →
  for_each l f s = Some (foldl g s (l ≫= G)).
Proof.
  revert s. induction l as [|a l IH]; intros s Hf; [done|].
  rewrite for_each_cons, Hf by left. cbn [mbind option_bind].
  rewrite bind_cons, foldl_app. apply IH. intros a' s' Ha'. apply Hf.
  by right.
Qed.

Lemma quot_neg num stride :
  0 < stride → num < 0 →
  num ≤ num ÷ stride ≤ 0 ∧ (num ÷ stride = 0 ↔ - stride < num).
Proof.
  intros Hs Hnum. replace num with (- (- num)) at 2 3 4 by lia.
  rewrite Z.quot_opp_l by lia.
  pose proof (quot_le (- num) stride ltac:(lia) Hs) as Hq.
  rewrite Z.quot_div_nonneg in * by lia.
  pose proof (Z.div_small_iff (- num) stride ltac:(lia)) as Hsmall.
  split; [lia|]. split.
  - intros H0. assert ((- num) `div` stride = 0) as H1 by lia.
    apply Hsmall in H1. lia.
  - intros Hlt. assert ((- num) `div` stride = 0) as H1
      by (apply Hsmall; lia). lia.
Qed.

(** X20: the number of kernel positions is computed with the division
    of C, which truncates towards zero. Where no [int] operation
    overflows, [col_size] is positive exactly when the dilated kernel
    exceeds the padded size by less than one stride; in particular, when
    the kernel is larger than the padded size by less than one stride the
    result is 1, not 0, and when the kernel fits it is the quotient
    rounded down, plus one. *)
Theorem col_size_truncates size kernel pad stride dilation :
  0 < size → 0 < kernel → 0 ≤ pad → 0 < stride → 0 < dilation →
  size + 2 * pad ≤ INT_MAX →
  dilation * (kernel - 1) + 1 ≤ INT_MAX →
  let num := size + 2 * pad - (dilation * (kernel - 1) + 1) in
  ∃ o,
    col_size size kernel pad stride dilation = Some o ∧
    (0 < o ↔ - stride < num) ∧
    (- stride < num < 0 → o = 1) ∧
    (0 ≤ num → o = num `div` stride + 1).
Proof.
  intros Hsz Hk Hp Hs Hd Hmax Hext num.
  unfold col_size, imul, iadd, isub, idiv. unfold INT_MAX in *.
  assert (0 ≤ dilation * (kernel - 1)) as Hdk0 by nia.
  assert (kernel - 1 ≤ dilation * (kernel - 1)) as Hdk1 by nia.
  rewrite (int_Some (2 * pad)) by (unfold INT_MIN, INT_MAX; lia).
  cbn [mbind option_bind].
  rewrite (int_Some (size + _)) by (unfold INT_MIN, INT_MAX; lia).
  cbn [mbind option_bind].
  rewrite (int_Some (kernel - 1)) by (unfold INT_MIN, INT_MAX; lia).
  cbn [mbind option_bind].
  rewrite (int_Some (dilation * _)) by (unfold INT_MIN, INT_MAX; lia).
  cbn [mbind option_bind].
  rewrite (int_Some (_ + 1)) by (unfold INT_MIN, INT_MAX; lia).
  cbn [mbind option_bind].
  rewrite (int_Some (_ - _)) by (unfold INT_MIN, INT_MAX; lia).
  cbn [mbind option_bind].
  rewrite bool_decide_eq_false_2 by lia. fold num.
  assert (- 2 ^ 31 < num ≤ 2 ^ 31 - 1) as Hnum by (unfold num; lia).
  assert ((0 ≤ num → num ÷ stride = num `div` stride ∧
                     0 ≤ num ÷ stride ≤ num) ∧
          (num < 0 → num ≤ num ÷ stride ≤ 0 ∧
                     (num ÷ stride = 0 ↔ - stride < num))) as [Hpos Hneg].
  { split.
    - intros Hsign. pose proof (quot_le num stride Hsign Hs).
      by rewrite Z.quot_div_nonneg in * by lia.
    - intros Hsign. by apply quot_neg. }
  generalize dependent (num ÷ stride). intros q Hpos Hneg.
  destruct (decide (0 ≤ num)) as [Hsign|Hsign].
  - destruct (Hpos Hsign) as [-> Hq].
    rewrite (int_Some (num `div` stride)) by (unfold INT_MIN, INT_MAX; lia).
    cbn [mbind option_bind].
    rewrite int_Some by (unfold INT_MIN, INT_MAX; lia).
    eexists. split; [done|]. split_and!; lia.
  - destruct (Hneg ltac:(lia)) as [Hq Hq0].
    rewrite (int_Some q) by (unfold INT_MIN, INT_MAX; lia).
    cbn [mbind option_bind].
    rewrite int_Some by (unfold INT_MIN, INT_MAX; lia).
    eexists. split; [done|]. split_and!; lia.
Qed.

End buffer_facts.

(* ================================================================== *)
(** * im2col *)

Section im2col_facts.
Import Cuda Im2col.
Context {T : Type} (zero : T) (add : T → T → T).
Variables (channels height width kernel_h kernel_w pad_h pad_w : Z).
Variables (stride_h stride_w dilation_h dilation_w : Z).
Variables (height_col width_col : Z).

Hypothesis Hpos :
  0 < channels ∧ 0 < height ∧ 0 < width ∧ 0 < kernel_h ∧ 0 < kernel_w ∧
  0 ≤ pad_h ∧ 0 ≤ pad_w ∧ 0 < stride_h ∧ 0 < stride_w ∧
  0 < dilation_h ∧ 0 < dilation_w.
Hypothesis Hfit_h : dilation_h * (kernel_h - 1) + 1 ≤ height + 2 * pad_h.
Hypothesis Hfit_w : dilation_w * (kernel_w - 1) + 1 ≤ width + 2 * pad_w.
Hypothesis Hhc :
  height_col = out_size height kernel_h pad_h stride_h dilation_h.
Hypothesis Hwc :
  width_col = out_size width kernel_w pad_w stride_w dilation_w.
Hypothesis Himg :
  (channels * height + 2 * pad_h + 1) * (width + 2 * pad_w) ≤ INT_MAX.
Hypothesis Hcol :
  channels * kernel_h * kernel_w * height_col * width_col ≤ INT_MAX.

Local Abbreviation col_at :=
  (col_offset kernel_h kernel_w height_col width_col).
Local Abbreviation im_at := (im_offset height width).
Local Abbreviation pixel_at := (pixel zero height width).
Local Abbreviation col_len :=
  (channels * kernel_h * kernel_w * height_col * width_col).
Local Abbreviation im_len := (channels * height * width).

Lemma height_col_bounds :
  1 ≤ height_col ∧
  (height_col - 1) * stride_h + dilation_h * (kernel_h - 1) + 1
    ≤ height + 2 * pad_h.
Proof.
  rewrite Hhc.
  destruct (out_size_bounds height kernel_h pad_h stride_h dilation_h)
    as (? & ? & _); [lia..|done].
Qed.

Lemma width_col_bounds :
  1 ≤ width_col ∧
  (width_col - 1) * stride_w + dilation_w * (kernel_w - 1) + 1
    ≤ width + 2 * pad_w.
Proof.
  rewrite Hwc.
  destruct (out_size_bounds width kernel_w pad_w stride_w dilation_w)
    as (? & ? & _); [lia..|done].
Qed.

Lemma padded_bounds :
  height + 2 * pad_h ≤ INT_MAX ∧ width + 2 * pad_w ≤ INT_MAX ∧
  (channels * height + 2 * pad_h + 1) * width + 2 * pad_w ≤ INT_MAX.
Proof.
  unfold INT_MAX in *.
  assert (height ≤ channels * height) by nia.
  set (A := channels * height + 2 * pad_h + 1) in *.
  assert (0 ≤ A * (width + 2 * pad_w - 1)) by (apply Z.mul_nonneg_nonneg; lia).
  assert (0 ≤ (A - 1) * (width + 2 * pad_w)) by (apply Z.mul_nonneg_nonneg; lia).
  assert (0 ≤ (A - 1) * (2 * pad_w)) by (apply Z.mul_nonneg_nonneg; lia).
  lia.
Qed.

Lemma col_offset_bounds c i j h w :
  0 ≤ c < channels → 0 ≤ i < kernel_h → 0 ≤ j < kernel_w →
  0 ≤ h < height_col → 0 ≤ w < width_col →
  0 ≤ col_at c i j h w ≤ col_len - 1.
Proof.
  intros Hc Hi Hj Hh Hw. unfold col_offset.
  apply radix_step; [|done]. apply radix_step; [|done].
  apply radix_step; [|done]. apply radix_step; [lia|done].
Qed.

Lemma col_offset_inj c i j h w c' i' j' h' w' :
  0 ≤ i < kernel_h → 0 ≤ j < kernel_w →
  0 ≤ h < height_col → 0 ≤ w < width_col →
  0 ≤ i' < kernel_h → 0 ≤ j' < kernel_w →
  0 ≤ h' < height_col → 0 ≤ w' < width_col →
  col_at c i j h w = col_at c' i' j' h' w' →
  c = c' ∧ i = i' ∧ j = j' ∧ h = h' ∧ w = w'.
Proof.
  intros Hi Hj Hh Hw Hi' Hj' Hh' Hw'. unfold col_offset.
  intros [H1 ->]%radix_inj; [|done..].
  apply radix_inj in H1 as [H1 ->]; [|done..].
  apply radix_inj in H1 as [H1 ->]; [|done..].
  apply radix_inj in H1 as [-> ->]; done.
Qed.

Lemma im_offset_bounds c y x :
  0 ≤ c < channels → 0 ≤ y < height → 0 ≤ x < width →
  0 ≤ im_at c y x ≤ im_len - 1.
Proof.
  intros Hc Hy Hx. unfold im_offset.
  apply radix_step; [|done]. apply radix_step; [lia|done].
Qed.

Lemma kernels_le_col_len : channels * height_col * width_col ≤ col_len.
Proof.
  destruct height_col_bounds as [? _]. destruct width_col_bounds as [? _].
  replace col_len
    with ((channels * height_col * width_col) * (kernel_h * kernel_w))
    by ring.
  apply le_mul_r; [|nia].
  apply Z.mul_nonneg_nonneg; [apply Z.mul_nonneg_nonneg|]; lia.
Qed.

Lemma index_bounds c h w :
  0 ≤ c < channels → 0 ≤ h < height_col → 0 ≤ w < width_col →
  0 ≤ c * height_col + h ∧
  0 ≤ (c * height_col + h) * width_col + w
    ≤ channels * height_col * width_col - 1.
Proof.
  intros Hc Hh Hw.
  assert (0 ≤ c * height_col + h ≤ channels * height_col - 1)
    by (apply radix_step; lia).
  split; [lia|]. by apply radix_step.
Qed.

Section at_position.
Variables (c h w : Z) (data_im : list T).
Hypothesis Hc : 0 ≤ c < channels.
Hypothesis Hh : 0 ≤ h < height_col.
Hypothesis Hw : 0 ≤ w < width_col.
Hypothesis Him_len : Z.of_nat (length data_im) = im_len.

Local Abbreviation h_offset := (h * stride_h - pad_h).
Local Abbreviation w_offset := (w * stride_w - pad_w).

Local Abbreviation value_at :=
  (im2col_value zero height width pad_h pad_w stride_h stride_w
     dilation_h dilation_w data_im).
Local Abbreviation row_at :=
  (im2col_row zero height width kernel_h kernel_w pad_h pad_w stride_h
     stride_w dilation_h dilation_w height_col width_col data_im).
Local Abbreviation rows_at :=
  (im2col_rows zero height width kernel_h kernel_w pad_h pad_w stride_h
     stride_w dilation_h dilation_w height_col width_col data_im).
Local Abbreviation cell :=
  (im2col_cell zero height width dilation_h dilation_w height_col width_col
     data_im (im_at c h_offset w_offset) h_offset w_offset).

Lemma im2col_cell_eval i j mem :
  0 ≤ i < kernel_h → 0 ≤ j < kernel_w →
  Z.of_nat (length mem) = col_len →
  cell i j (col_at c i j h w, mem)
  = Some (col_at c i (j + 1) h w,
          <[Z.to_nat (col_at c i j h w) := value_at c i j h w]> mem).
Proof.
  intros Hi Hj Hmem.
  destruct height_col_bounds as [Hhc1 Hhc2].
  destruct width_col_bounds as [Hwc1 Hwc2].
  destruct padded_bounds as (Hph & Hpw & Hpad).
  pose proof (col_offset_bounds c i j h w Hc Hi Hj Hh Hw) as Hoff.
  assert (0 ≤ i * dilation_h ≤ dilation_h * (kernel_h - 1)) as Hid by nia.
  assert (0 ≤ j * dilation_w ≤ dilation_w * (kernel_w - 1)) as Hjd by nia.
  assert (0 ≤ h * stride_h ≤ (height_col - 1) * stride_h) as Hhs by nia.
  assert (0 ≤ w * stride_w ≤ (width_col - 1) * stride_w) as Hws by nia.
  assert (height_col * width_col ≤ col_len) as Hstep.
  { replace col_len
      with ((channels * kernel_h * kernel_w) * (height_col * width_col))
      by ring.
    assert (1 ≤ channels * kernel_h * kernel_w) by nia.
    assert (0 ≤ height_col * width_col) by nia. nia. }
  assert (0 ≤ height_col * width_col) as Hstep0 by nia.
  unfold INT_MAX in *.
  unfold im2col_cell, imul, iadd.
  rewrite !(int_Some (i * dilation_h)) by (unfold INT_MIN, INT_MAX; lia).
  cbn [mbind option_bind].
  rewrite (int_Some (h_offset + _)) by (unfold INT_MIN, INT_MAX; lia).
  cbn [mbind option_bind].
  rewrite !(int_Some (j * dilation_w)) by (unfold INT_MIN, INT_MAX; lia).
  cbn [mbind option_bind].
  rewrite (int_Some (w_offset + _)) by (unfold INT_MIN, INT_MAX; lia).
  cbn [mbind option_bind].
  rewrite (int_Some (height_col * width_col))
    by (unfold INT_MIN, INT_MAX; lia).
  set (h_im := h_offset + i * dilation_h).
  set (w_im := w_offset + j * dilation_w).
  assert (col_at c i j h w + height_col * width_col = col_at c i (j + 1) h w)
    as Hnext by (unfold col_offset; ring).
  unfold im2col_value, pixel. fold h_im w_im. case_bool_decide as Hin.
  - rewrite bool_decide_eq_true_2 by lia.
    assert (0 ≤ i * dilation_h * width ≤ (height + 2 * pad_h) * width)
      as Hidw.
    { split; [apply Z.mul_nonneg_nonneg; lia|].
      apply Z.mul_le_mono_nonneg_r; lia. }
    assert (height ≤ channels * height) as HCH by (clear -Hpos; nia).
    assert ((height + 2 * pad_h) * width
            ≤ (channels * height + 2 * pad_h) * width) as HCW.
    { apply Z.mul_le_mono_nonneg_r; lia. }
    rewrite (int_Some (i * dilation_h * width))
      by (unfold INT_MIN, INT_MAX; lia).
    cbn [mbind option_bind].
    rewrite (int_Some (_ + _)) by (unfold INT_MIN, INT_MAX; lia).
    cbn [mbind option_bind].
    replace (im_at c h_offset w_offset
             + (i * dilation_h * width + j * dilation_w))
      with (im_at c h_im w_im) by (unfold im_offset, h_im, w_im; ring).
    pose proof (im_offset_bounds c h_im w_im Hc ltac:(lia) ltac:(lia))
      as Himoff.
    destruct (lookup_lt_is_Some_2 data_im (Z.to_nat (im_at c h_im w_im)))
      as [x Hx]; [lia|].
    rewrite (load_Some _ _ x) by (done || lia). rewrite Hx.
    cbn [mbind option_bind default].
    rewrite store_Some by lia. cbn [mbind option_bind].
    by rewrite Hnext.
  - rewrite bool_decide_eq_false_2 by lia. cbn [mbind option_bind].
    rewrite store_Some by lia. cbn [mbind option_bind].
    by rewrite Hnext.
Qed.

Lemma im2col_row_eval i (m : nat) j0 mem :
  0 ≤ i < kernel_h → 0 ≤ j0 → j0 + Z.of_nat m ≤ kernel_w →
  Z.of_nat (length mem) = col_len →
  for_each (seqZ j0 (Z.of_nat m)) (cell i) (col_at c i j0 h w, mem)
  = Some (col_at c i (j0 + Z.of_nat m) h w,
          scatter (row_at c h w i j0 (Z.of_nat m)) mem).
Proof.
  intros Hi. revert j0 mem. induction m as [|m IH]; intros j0 mem Hj0 Hj Hmem.
  { simpl. by rewrite Z.add_0_r. }
  unfold im2col_row. rewrite seqZ_cons by lia.
  replace (Z.pred (Z.of_nat (S m))) with (Z.of_nat m) by lia.
  rewrite for_each_cons, im2col_cell_eval by (done || lia).
  cbn [mbind option_bind]. rewrite fmap_cons, scatter_cons. cbn [fst snd].
  replace (Z.succ j0) with (j0 + 1) by lia.
  rewrite IH by (rewrite ?length_insert; lia).
  do 3 f_equal. lia.
Qed.

Lemma im2col_rows_eval (m : nat) i0 mem :
  0 ≤ i0 → i0 + Z.of_nat m ≤ kernel_h →
  Z.of_nat (length mem) = col_len →
  for_each (seqZ i0 (Z.of_nat m))
    (λ i, for_each (seqZ 0 kernel_w) (cell i)) (col_at c i0 0 h w, mem)
  = Some (col_at c (i0 + Z.of_nat m) 0 h w,
          scatter (rows_at c h w i0 (Z.of_nat m)) mem).
Proof.
  revert i0 mem. induction m as [|m IH]; intros i0 mem Hi0 Hi Hmem.
  { simpl. by rewrite Z.add_0_r. }
  unfold im2col_rows. rewrite seqZ_cons by lia.
  replace (Z.pred (Z.of_nat (S m))) with (Z.of_nat m) by lia.
  rewrite for_each_cons.
  rewrite <- (Z2Nat.id kernel_w) at 1 by lia.
  rewrite im2col_row_eval by (rewrite ?Z2Nat.id; lia).
  rewrite Z2Nat.id by lia.
  cbn [mbind option_bind]. rewrite bind_cons, scatter_app.
  replace (col_at c i0 (0 + kernel_w) h w) with (col_at c (i0 + 1) 0 h w)
    by (unfold col_offset; ring).
  replace (Z.succ i0) with (i0 + 1) by lia.
  rewrite IH by (rewrite ?length_scatter; lia).
  do 3 f_equal. lia.
Qed.

(** The body of [im2col_kernel] at the index of channel [c] and kernel
    position [h], [w]: it is defined and stores the [kernel_h * kernel_w]
    values of that position. *)
Lemma im2col_body_eval mem :
  Z.of_nat (length mem) = col_len →
  im2col_body zero height width kernel_h kernel_w pad_h pad_w stride_h
    stride_w dilation_h dilation_w height_col width_col data_im
    ((c * height_col + h) * width_col + w) mem
  = Some (scatter (rows_at c h w 0 kernel_h) mem).
Proof.
  intros Hmem.
  destruct height_col_bounds as [Hhc1 Hhc2].
  destruct width_col_bounds as [Hwc1 Hwc2].
  destruct padded_bounds as (Hph & Hpw & Hpad).
  destruct (index_bounds c h w Hc Hh Hw) as [Hq Hindex].
  pose proof kernels_le_col_len as Hn.
  pose proof (le_mul_r (c * height_col + h) width_col Hq Hwc1) as Hq'.
  assert (0 ≤ kernel_h - 1 ∧ 0 ≤ kernel_w - 1) as [Hkh Hkw] by lia.
  pose proof (col_offset_bounds c 0 0 h w Hc ltac:(lia) ltac:(lia) Hh Hw)
    as Hoff.
  unfold col_offset in Hoff. rewrite !Z.add_0_r in Hoff.
  assert (0 ≤ c * kernel_h) as Ht1 by (apply Z.mul_nonneg_nonneg; lia).
  assert (0 ≤ c * kernel_h * kernel_w) as Ht2
    by (apply Z.mul_nonneg_nonneg; lia).
  assert (0 ≤ c * kernel_h * kernel_w * height_col) as Ht3
    by (apply Z.mul_nonneg_nonneg; lia).
  pose proof (le_mul_r (c * kernel_h) kernel_w Ht1 ltac:(lia)).
  pose proof (le_mul_r (c * kernel_h * kernel_w) height_col Ht2 Hhc1).
  pose proof (le_mul_r (c * kernel_h * kernel_w * height_col + h) width_col
                ltac:(lia) Hwc1).
  assert (0 ≤ h * stride_h ≤ (height_col - 1) * stride_h) as Hhs.
  { split; [apply Z.mul_nonneg_nonneg; lia|].
    apply Z.mul_le_mono_nonneg_r; lia. }
  assert (0 ≤ w * stride_w ≤ (width_col - 1) * stride_w) as Hws.
  { split; [apply Z.mul_nonneg_nonneg; lia|].
    apply Z.mul_le_mono_nonneg_r; lia. }
  assert (0 ≤ dilation_h * (kernel_h - 1)) as Hdh
    by (apply Z.mul_nonneg_nonneg; lia).
  assert (0 ≤ dilation_w * (kernel_w - 1)) as Hdw
    by (apply Z.mul_nonneg_nonneg; lia).
  assert (0 ≤ c * height ≤ (channels - 1) * height) as Hch.
  { split; [apply Z.mul_nonneg_nonneg; lia|].
    apply Z.mul_le_mono_nonneg_r; lia. }
  assert (- (pad_h * width) ≤ (c * height + h_offset) * width
          ≤ (channels * height + 2 * pad_h) * width) as Hrow.
  { split.
    - rewrite <- Z.mul_opp_l. apply Z.mul_le_mono_nonneg_r; lia.
    - apply Z.mul_le_mono_nonneg_r; lia. }
  assert (pad_h * width ≤ (channels * height + 2 * pad_h) * width) as Hpw'.
  { apply Z.mul_le_mono_nonneg_r; lia. }
  pose proof (le_mul_r (channels * height + 2 * pad_h + 1) width
                ltac:(lia) ltac:(lia)) as HA.
  unfold INT_MAX in *.
  unfold im2col_body.
  rewrite idiv_radix by (unfold INT_MAX; lia). cbn [mbind option_bind].
  rewrite irem_radix by (unfold INT_MAX; lia). cbn [mbind option_bind].
  rewrite irem_radix by (unfold INT_MAX; lia). cbn [mbind option_bind].
  rewrite idiv_radix by (unfold INT_MAX; lia). cbn [mbind option_bind].
  unfold imul, iadd, isub.
  rewrite (int_Some (c * kernel_h)) by (unfold INT_MIN, INT_MAX; lia).
  cbn [mbind option_bind].
  rewrite (int_Some (c * kernel_h * kernel_w))
    by (unfold INT_MIN, INT_MAX; lia).
  cbn [mbind option_bind].
  rewrite (int_Some (h * stride_h)) by (unfold INT_MIN, INT_MAX; lia).
  cbn [mbind option_bind].
  rewrite (int_Some (h * stride_h - pad_h))
    by (unfold INT_MIN, INT_MAX; lia).
  cbn [mbind option_bind].
  rewrite (int_Some (w * stride_w)) by (unfold INT_MIN, INT_MAX; lia).
  cbn [mbind option_bind].
  rewrite (int_Some (w * stride_w - pad_w))
    by (unfold INT_MIN, INT_MAX; lia).
  cbn [mbind option_bind].
  rewrite (int_Some (c * kernel_h * kernel_w * height_col))
    by (unfold INT_MIN, INT_MAX; lia).
  cbn [mbind option_bind].
  rewrite (int_Some (c * kernel_h * kernel_w * height_col + h))
    by (unfold INT_MIN, INT_MAX; lia).
  cbn [mbind option_bind].
  rewrite (int_Some ((c * kernel_h * kernel_w * height_col + h) * width_col))
    by (unfold INT_MIN, INT_MAX; lia).
  cbn [mbind option_bind].
  rewrite (int_Some ((c * kernel_h * kernel_w * height_col + h) * width_col
                     + w))
    by (unfold INT_MIN, INT_MAX; lia).
  cbn [mbind option_bind].
  rewrite (int_Some (c * height)) by (unfold INT_MIN, INT_MAX; lia).
  cbn [mbind option_bind].
  rewrite (int_Some (c * height + h_offset))
    by (unfold INT_MIN, INT_MAX; lia).
  cbn [mbind option_bind].
  rewrite (int_Some ((c * height + h_offset) * width))
    by (unfold INT_MIN, INT_MAX; lia).
  cbn [mbind option_bind].
  rewrite (int_Some ((c * height + h_offset) * width + w_offset))
    by (unfold INT_MIN, INT_MAX; lia).
  cbn [mbind option_bind].
  replace ((c * kernel_h * kernel_w * height_col + h) * width_col + w)
    with (col_at c 0 0 h w) by (unfold col_offset; ring).
  change ((c * height + h_offset) * width + w_offset)
    with (im_at c h_offset w_offset).
  rewrite <- (Z2Nat.id kernel_h) at 1 by lia.
  rewrite im2col_rows_eval by (rewrite ?Z2Nat.id; lia).
  rewrite Z2Nat.id by lia. done.
Qed.

End at_position.

Local Abbreviation n_kernels := (channels * height_col * width_col).
Local Abbreviation value_at :=
  (im2col_value zero height width pad_h pad_w stride_h stride_w
     dilation_h dilation_w).
Local Abbreviation rows_at :=
  (im2col_rows zero height width kernel_h kernel_w pad_h pad_w stride_h
     stride_w dilation_h dilation_w height_col width_col).
Local Abbreviation writes_at :=
  (im2col_writes zero height width kernel_h kernel_w pad_h pad_w stride_h
     stride_w dilation_h dilation_w height_col width_col).
Local Abbreviation body :=
  (im2col_body zero height width kernel_h kernel_w pad_h pad_w stride_h
     stride_w dilation_h dilation_w height_col width_col).

Lemma index_decode index :
  0 ≤ index < n_kernels →
  0 ≤ index ÷ width_col ÷ height_col < channels ∧
  0 ≤ Z.rem (index ÷ width_col) height_col < height_col ∧
  0 ≤ Z.rem index width_col < width_col ∧
  index = (index ÷ width_col ÷ height_col * height_col
           + Z.rem (index ÷ width_col) height_col) * width_col
          + Z.rem index width_col.
Proof.
  intros Hindex.
  destruct height_col_bounds as [Hhc1 _]. destruct width_col_bounds as [Hwc1 _].
  rewrite (Z.quot_div_nonneg index), (Z.rem_mod_nonneg index) by lia.
  assert (0 ≤ index `div` width_col < channels * height_col) as Hq.
  { split; [apply Z.div_pos; lia|]. apply Z.div_lt_upper_bound; lia. }
  rewrite Z.quot_div_nonneg, Z.rem_mod_nonneg by lia.
  pose proof (Z.div_mod index width_col ltac:(lia)).
  pose proof (Z.mod_pos_bound index width_col ltac:(lia)).
  pose proof (Z.div_mod (index `div` width_col) height_col ltac:(lia)).
  pose proof (Z.mod_pos_bound (index `div` width_col) height_col ltac:(lia)).
  split_and!; [apply Z.div_pos; lia|apply Z.div_lt_upper_bound; lia|lia..].
Qed.

Lemma index_encode c h w :
  0 ≤ c < channels → 0 ≤ h < height_col → 0 ≤ w < width_col →
  let index := (c * height_col + h) * width_col + w in
  0 ≤ index < n_kernels ∧
  index ÷ width_col ÷ height_col = c ∧
  Z.rem (index ÷ width_col) height_col = h ∧
  Z.rem index width_col = w.
Proof.
  intros Hc Hh Hw index.
  destruct (index_bounds c h w Hc Hh Hw) as [Hq Hi].
  unfold index. rewrite !quot_radix, !rem_radix by lia. split; [lia|done].
Qed.

Lemma im2col_indices_eval data_im (indices : list Z) mem :
  Z.of_nat (length data_im) = im_len →
  Z.of_nat (length mem) = col_len →
  Forall (λ index, 0 ≤ index < n_kernels) indices →
  for_each indices (body data_im) mem
  = Some (scatter (indices ≫= writes_at data_im) mem).
Proof.
  intros Him Hmem Hall. revert mem Hmem.
  induction Hall as [|index indices Hindex _ IH]; intros mem Hmem; [done|].
  rewrite for_each_cons, bind_cons, scatter_app.
  destruct (index_decode index Hindex) as (Hc & Hh & Hw & Heq).
  pose proof (im2col_body_eval _ _ _ data_im Hc Hh Hw Him mem Hmem) as Hbody.
  rewrite <- Heq in Hbody. rewrite Hbody. cbn [mbind option_bind].
  apply IH. by rewrite length_scatter.
Qed.

Lemma elem_of_im2col_writes data_im (indices : list Z) a v :
  (a, v) ∈ indices ≫= writes_at data_im ↔
  ∃ index i j,
    index ∈ indices ∧ 0 ≤ i < kernel_h ∧ 0 ≤ j < kernel_w ∧
    a = col_at (index ÷ width_col ÷ height_col) i j
          (Z.rem (index ÷ width_col) height_col) (Z.rem index width_col) ∧
    v = value_at data_im (index ÷ width_col ÷ height_col) i j
          (Z.rem (index ÷ width_col) height_col) (Z.rem index width_col).
Proof.
  unfold im2col_writes, im2col_rows, im2col_row.
  rewrite list_elem_of_bind. split.
  - intros (index & (i & Hin & Hi)%list_elem_of_bind & Hindex).
    apply list_elem_of_fmap in Hin as (j & [= -> ->] & Hj).
    apply elem_of_seqZ in Hi, Hj. exists index, i, j.
    split_and!; (done || lia).
  - intros (index & i & j & Hindex & Hi & Hj & -> & ->).
    exists index. split; [|done]. apply list_elem_of_bind. exists i.
    split; [|apply elem_of_seqZ; lia].
    apply list_elem_of_fmap. exists j. split; [done|].
    apply elem_of_seqZ. lia.
Qed.

(** The buffer after the writes of all indices, taken in any order. *)
Lemma im2col_scatter_spec data_im (indices : list Z) mem :
  indices ≡ₚ seqZ 0 n_kernels →
  Z.of_nat (length mem) = col_len →
  ∀ c i j h w,
    0 ≤ c < channels → 0 ≤ i < kernel_h → 0 ≤ j < kernel_w →
    0 ≤ h < height_col → 0 ≤ w < width_col →
    scatter (indices ≫= writes_at data_im) mem !! Z.to_nat (col_at c i j h w)
    = Some (value_at data_im c i j h w).
Proof.
  intros Hperm Hmem c i j h w Hc Hi Hj Hh Hw.
  assert (∀ index, index ∈ indices → 0 ≤ index < n_kernels) as Hvalid.
  { intros index. rewrite Hperm, elem_of_seqZ. lia. }
  pose proof (col_offset_bounds c i j h w Hc Hi Hj Hh Hw) as Hoff.
  apply scatter_lookup; [lia|lia| | |].
  - apply Forall_forall. intros [a v].
    intros (index & i' & j' & Hindex & Hi' & Hj' & -> & _)%elem_of_im2col_writes.
    destruct (index_decode index (Hvalid _ Hindex)) as (Hc' & Hh' & Hw' & _).
    pose proof (col_offset_bounds _ i' j' _ _ Hc' Hi' Hj' Hh' Hw'). simpl. lia.
  - apply elem_of_im2col_writes.
    destruct (index_encode c h w Hc Hh Hw) as (Hindex & Hc' & Hh' & Hw').
    exists ((c * height_col + h) * width_col + w), i, j.
    rewrite Hc', Hh', Hw'. split_and!; try lia; try done.
    rewrite Hperm. apply elem_of_seqZ. lia.
  - intros v'.
    intros (index & i' & j' & Hindex & Hi' & Hj' & Ha & ->)%elem_of_im2col_writes.
    destruct (index_decode index (Hvalid _ Hindex)) as (Hc' & Hh' & Hw' & _).
    apply col_offset_inj in Ha as (<- & <- & <- & <- & <-); done.
Qed.

Lemma radix_split q A m :
  0 < m → 0 ≤ q < A * m →
  ∃ a b, q = a * m + b ∧ 0 ≤ a < A ∧ 0 ≤ b < m.
Proof.
  intros Hm Hq. exists (q `div` m), (q `mod` m).
  pose proof (Z.div_mod q m ltac:(lia)).
  pose proof (Z.mod_pos_bound q m Hm).
  split_and!; [lia|apply Z.div_pos; lia|apply Z.div_lt_upper_bound; lia|lia..].
Qed.

Lemma col_offset_surj q :
  0 ≤ q < col_len →
  ∃ c i j h w,
    0 ≤ c < channels ∧ 0 ≤ i < kernel_h ∧ 0 ≤ j < kernel_w ∧
    0 ≤ h < height_col ∧ 0 ≤ w < width_col ∧ q = col_at c i j h w.
Proof.
  intros Hq.
  destruct height_col_bounds as [Hhc1 _]. destruct width_col_bounds as [Hwc1 _].
  destruct (radix_split q _ width_col ltac:(lia) Hq) as (q1 & w & -> & Hq1 & Hw).
  destruct (radix_split q1 _ height_col ltac:(lia) Hq1)
    as (q2 & h & -> & Hq2 & Hh).
  destruct (radix_split q2 _ kernel_w ltac:(lia) Hq2)
    as (q3 & j & -> & Hq3 & Hj).
  destruct (radix_split q3 _ kernel_h ltac:(lia) Hq3)
    as (c & i & -> & Hc & Hi).
  exists c, i, j, h, w. done.
Qed.

(** Two column buffers that hold the im2col values are equal. *)
Lemma im2col_out_unique data_im (out1 out2 : list T) :
  Z.of_nat (length out1) = col_len → Z.of_nat (length out2) = col_len →
  (∀ c i j h w,
     0 ≤ c < channels → 0 ≤ i < kernel_h → 0 ≤ j < kernel_w →
     0 ≤ h < height_col → 0 ≤ w < width_col →
     out1 !! Z.to_nat (col_at c i j h w) = Some (value_at data_im c i j h w) ∧
     out2 !! Z.to_nat (col_at c i j h w) = Some (value_at data_im c i j h w)) →
  out1 = out2.
Proof.
  intros Hl1 Hl2 Hspec. apply list_eq. intros p.
  destruct (decide (Z.of_nat p < col_len)) as [Hp|Hp].
  - destruct (col_offset_surj (Z.of_nat p) ltac:(lia))
      as (c & i & j & h & w & Hc & Hi & Hj & Hh & Hw & Heq).
    destruct (Hspec c i j h w Hc Hi Hj Hh Hw) as [H1 H2].
    rewrite <- Heq, Nat2Z.id in H1, H2. congruence.
  - rewrite !lookup_ge_None_2; [done|lia..].
Qed.

Lemma im2col_correct_gen fuel data_im data_col :
  Z.of_nat (length data_im) = im_len →
  Z.of_nat (length data_col) = col_len →
  n_kernels ≤ 2 ^ 30 →
  (2 ≤ fuel)%nat →
  ∃ out,
    im2col zero height width kernel_h kernel_w pad_h pad_w stride_h stride_w
      dilation_h dilation_w fuel data_im channels data_col = Some out ∧
    Z.of_nat (length out) = col_len ∧
    (∀ c i j h w,
       0 ≤ c < channels → 0 ≤ i < kernel_h → 0 ≤ j < kernel_w →
       0 ≤ h < height_col → 0 ≤ w < width_col →
       out !! Z.to_nat (col_at c i j h w)
       = Some (value_at data_im c i j h w)) ∧
    (∀ g order,
       CUDA_GET_BLOCKS n_kernels = Some g →
       order ≡ₚ threads g CUDA_NUM_THREADS →
       launch order
         (λ th, im2col_kernel zero height width kernel_h kernel_w pad_h
                  pad_w stride_h stride_w dilation_h dilation_w fuel th
                  n_kernels data_im height_col width_col)
         data_col = Some out).
Proof.
  intros Him Hmem Hn Hfuel.
  destruct height_col_bounds as [Hhc1 _]. destruct width_col_bounds as [Hwc1 _].
  destruct padded_bounds as (Hph & Hpw & _).
  pose proof kernels_le_col_len as Hle.
  assert (0 ≤ channels * height_col) as Hch0
    by (apply Z.mul_nonneg_nonneg; lia).
  pose proof (le_mul_r (channels * height_col) width_col Hch0 Hwc1) as Hch.
  destruct (KERNEL_RUN_parfor_gen (body data_im) n_kernels fuel data_col)
    as [Hseq (g & Hg & Horder)]; [lia|done|].
  assert (∀ indices, indices ≡ₚ seqZ 0 n_kernels →
            Forall (λ index, 0 ≤ index < n_kernels) indices) as Hvalid.
  { intros indices Hperm. apply Forall_forall. intros index.
    rewrite Hperm, elem_of_seqZ. lia. }
  exists (scatter (seqZ 0 n_kernels ≫= writes_at data_im) data_col).
  split_and!.
  - unfold im2col.
    rewrite !col_size_out_size by lia. rewrite <- Hhc, <- Hwc.
    cbn [mbind option_bind]. unfold imul.
    rewrite (int_Some (channels * height_col))
      by (unfold INT_MIN, INT_MAX in *; lia).
    cbn [mbind option_bind].
    rewrite (int_Some n_kernels) by (unfold INT_MIN, INT_MAX in *; lia).
    cbn [mbind option_bind]. unfold im2col_kernel.
    etrans; [exact Hseq|]. by apply im2col_indices_eval; [..|apply Hvalid].
  - by rewrite length_scatter.
  - by apply im2col_scatter_spec.
  - intros g' order Hg' Hperm. rewrite Hg in Hg'. injection Hg' as <-.
    destruct (Horder order Hperm) as [Hvis Hlaunch].
    unfold im2col_kernel. etrans; [exact Hlaunch|].
    rewrite im2col_indices_eval by (done || by apply Hvalid). f_equal.
    apply (im2col_out_unique data_im); [by rewrite length_scatter..|].
    intros c i j h w Hc Hi Hj Hh Hw.
    split; by apply im2col_scatter_spec.
Qed.

(** X17: im2col is defined and fills the column buffer. For a geometry
    with positive sizes, strides and dilations, whose dilated kernel fits
    in the padded image, with buffers of the sizes of the image and of the
    columns, and with sizes in the range of [int] (at most 2^30 kernel
    positions), no [int] operation overflows, no access is out of bounds,
    and afterwards the cell of channel [c], kernel row [i] and column [j]
    at position [h], [w] holds the image value at row
    [h * stride_h - pad_h + i * dilation_h] and column
    [w * stride_w - pad_w + j * dilation_w], or zero where that lies in
    the padding. Every cell of the buffer is written, and the result is
    the same for the threads of the launch taken in any order. *)
Theorem im2col_correct fuel data_im data_col :
  Z.of_nat (length data_im) = im_len →
  Z.of_nat (length data_col) = col_len →
  n_kernels ≤ 2 ^ 30 →
  (2 ≤ fuel)%nat →
  ∃ out,
    im2col zero height width kernel_h kernel_w pad_h pad_w stride_h stride_w
      dilation_h dilation_w fuel data_im channels data_col = Some out ∧
    Z.of_nat (length out) = col_len ∧
    (∀ c i j h w,
       0 ≤ c < channels → 0 ≤ i < kernel_h → 0 ≤ j < kernel_w →
       0 ≤ h < height_col → 0 ≤ w < width_col →
       out !! Z.to_nat (col_at c i j h w)
       = Some (value_at data_im c i j h w)) ∧
    (∀ g order,
       CUDA_GET_BLOCKS n_kernels = Some g →
       order ≡ₚ threads g CUDA_NUM_THREADS →
       launch order
         (λ th, im2col_kernel zero height width kernel_h kernel_w pad_h
                  pad_w stride_h stride_w dilation_h dilation_w fuel th
                  n_kernels data_im height_col width_col)
         data_col = Some out).
Proof. apply im2col_correct_gen. Qed.

(* ------------------------------------------------------------------ *)
(** ** col2im *)

Local Abbreviation tap_h := (tap pad_h stride_h).
Local Abbreviation tap_w := (tap pad_w stride_w).
Local Abbreviation is_tap_h := (is_tap kernel_h pad_h stride_h dilation_h).
Local Abbreviation is_tap_w := (is_tap kernel_w pad_w stride_w dilation_w).
Local Abbreviation sources :=
  (col2im_sources kernel_h kernel_w pad_h pad_w stride_h stride_w
     dilation_h dilation_w height_col width_col).
Local Abbreviation sum_at :=
  (col2im_value zero add kernel_h kernel_w pad_h pad_w stride_h stride_w
     dilation_h dilation_w height_col width_col).

Lemma im_len_bound : im_len ≤ INT_MAX.
Proof.
  destruct padded_bounds as (_ & _ & Hpad).
  assert (0 ≤ (2 * pad_h + 1) * width) by (apply Z.mul_nonneg_nonneg; lia).
  lia.
Qed.

Section at_pixel.
Variables (c y x : Z) (data_col : list T).
Hypothesis Hc : 0 ≤ c < channels.
Hypothesis Hy : 0 ≤ y < height.
Hypothesis Hx : 0 ≤ x < width.
Hypothesis Hcol_len : Z.of_nat (length data_col) = col_len.

Local Abbreviation addq :=
  (λ (val : T) (q : Z), add val (default zero (data_col !! Z.to_nat q))).

(** What one kernel position contributes. *)
Local Abbreviation source_at := (λ h w : Z,
  if bool_decide (is_tap_h y h ∧ is_tap_w x w)
  then [col_at c (tap_h y h ÷ dilation_h) (tap_w x w ÷ dilation_w) h w]
  else []).

Lemma col2im_cell_eval h w val :
  0 ≤ h < height_col → 0 ≤ w < width_col →
  0 ≤ tap_h y h ≤ dilation_h * (kernel_h - 1) →
  0 ≤ tap_w x w ≤ dilation_w * (kernel_w - 1) →
  col2im_cell add kernel_h kernel_w stride_h stride_w dilation_h dilation_w
    height_col width_col data_col c (y + pad_h) (x + pad_w) h w val
  = Some (foldl addq val (source_at h w)).
Proof.
  intros Hh Hw Hth Htw.
  destruct padded_bounds as (Hph & Hpw & _).
  pose proof (is_tap_iff kernel_h pad_h stride_h dilation_h y h
                ltac:(lia) ltac:(lia)) as Hih.
  pose proof (is_tap_iff kernel_w pad_w stride_w dilation_w x w
                ltac:(lia) ltac:(lia)) as Hiw.
  unfold tap in *.
  assert (0 ≤ h * stride_h) by (apply Z.mul_nonneg_nonneg; lia).
  assert (0 ≤ w * stride_w) by (apply Z.mul_nonneg_nonneg; lia).
  unfold col2im_cell, imul, isub, irem, idiv. unfold INT_MAX in *.
  rewrite (int_Some (h * stride_h)) by (unfold INT_MIN, INT_MAX; lia).
  cbn [mbind option_bind].
  rewrite (int_Some (y + pad_h - _)) by (unfold INT_MIN, INT_MAX; lia).
  cbn [mbind option_bind].
  rewrite (int_Some (w * stride_w)) by (unfold INT_MIN, INT_MAX; lia).
  cbn [mbind option_bind].
  rewrite (int_Some (x + pad_w - _)) by (unfold INT_MIN, INT_MAX; lia).
  cbn [mbind option_bind].
  set (kh := y + pad_h - h * stride_h) in *.
  set (kw := x + pad_w - w * stride_w) in *.
  pose proof (quot_le kh dilation_h ltac:(lia) ltac:(lia)) as Hqh.
  pose proof (quot_le kw dilation_w ltac:(lia) ltac:(lia)) as Hqw.
  rewrite !(bool_decide_eq_false_2 (dilation_h = 0)) by lia.
  rewrite !(bool_decide_eq_false_2 (dilation_w = 0)) by lia.
  rewrite !(int_Some (kh ÷ dilation_h)) by (unfold INT_MIN, INT_MAX; lia).
  cbn [mbind option_bind].
  case_bool_decide as Hrh.
  2:{ rewrite bool_decide_eq_false_2; [done|]. intros [Hth' _].
      apply Hih in Hth'. tauto. }
  rewrite !(int_Some (kw ÷ dilation_w)) by (unfold INT_MIN, INT_MAX; lia).
  cbn [mbind option_bind].
  case_bool_decide as Hrw.
  2:{ rewrite bool_decide_eq_false_2; [done|]. intros [_ Htw'].
      apply Hiw in Htw'. tauto. }
  assert (is_tap_h y h) as Hth' by (apply Hih; done).
  assert (is_tap_w x w) as Htw' by (apply Hiw; done).
  rewrite bool_decide_eq_true_2 by done.
  destruct Hth' as (_ & _ & Hi). destruct Htw' as (_ & _ & Hj).
  unfold tap in Hi, Hj. fold kh in Hi. fold kw in Hj.
  set (i := kh ÷ dilation_h) in *. set (j := kw ÷ dilation_w) in *.
  pose proof (col_offset_bounds c i j h w Hc ltac:(lia) ltac:(lia) Hh Hw)
    as Hoff.
  unfold col_offset in Hoff.
  destruct height_col_bounds as [Hhc1 _]. destruct width_col_bounds as [Hwc1 _].
  assert (0 ≤ c * kernel_h) as Ht1 by (apply Z.mul_nonneg_nonneg; lia).
  assert (0 ≤ (c * kernel_h + i) * kernel_w) as Ht2
    by (apply Z.mul_nonneg_nonneg; lia).
  assert (0 ≤ ((c * kernel_h + i) * kernel_w + j) * height_col) as Ht3
    by (apply Z.mul_nonneg_nonneg; lia).
  pose proof (le_mul_r (c * kernel_h + i) kernel_w ltac:(lia) ltac:(lia)).
  pose proof (le_mul_r ((c * kernel_h + i) * kernel_w + j) height_col
                ltac:(lia) Hhc1).
  pose proof (le_mul_r (((c * kernel_h + i) * kernel_w + j) * height_col + h)
                width_col ltac:(lia) Hwc1).
  unfold iadd.
  rewrite (int_Some (c * kernel_h)) by (unfold INT_MIN, INT_MAX; lia).
  cbn [mbind option_bind].
  rewrite (int_Some (c * kernel_h + i)) by (unfold INT_MIN, INT_MAX; lia).
  cbn [mbind option_bind].
  rewrite (int_Some ((c * kernel_h + i) * kernel_w))
    by (unfold INT_MIN, INT_MAX; lia).
  cbn [mbind option_bind].
  rewrite (int_Some ((c * kernel_h + i) * kernel_w + j))
    by (unfold INT_MIN, INT_MAX; lia).
  cbn [mbind option_bind].
  rewrite (int_Some (((c * kernel_h + i) * kernel_w + j) * height_col))
    by (unfold INT_MIN, INT_MAX; lia).
  cbn [mbind option_bind].
  rewrite (int_Some (((c * kernel_h + i) * kernel_w + j) * height_col + h))
    by (unfold INT_MIN, INT_MAX; lia).
  cbn [mbind option_bind].
  rewrite (int_Some ((((c * kernel_h + i) * kernel_w + j) * height_col + h)
                     * width_col))
    by (unfold INT_MIN, INT_MAX; lia).
  cbn [mbind option_bind].
  rewrite (int_Some ((((c * kernel_h + i) * kernel_w + j) * height_col + h)
                     * width_col + w))
    by (unfold INT_MIN, INT_MAX; lia).
  cbn [mbind option_bind].
  change ((((c * kernel_h + i) * kernel_w + j) * height_col + h)
          * width_col + w) with (col_at c i j h w) in *.
  destruct (lookup_lt_is_Some_2 data_col (Z.to_nat (col_at c i j h w)))
    as [v Hv]; [lia|].
  rewrite (load_Some _ _ v) by (done || lia). cbn [mbind option_bind].
  simpl. by rewrite Hv.
Qed.

Local Abbreviation ext_h := ((kernel_h - 1) * dilation_h + 1).
Local Abbreviation ext_w := ((kernel_w - 1) * dilation_w + 1).
Local Abbreviation h_start :=
  (if bool_decide (y + pad_h < ext_h) then 0
   else (y + pad_h - ext_h) ÷ stride_h + 1).
Local Abbreviation h_stop := (Z.min ((y + pad_h) ÷ stride_h + 1) height_col).
Local Abbreviation w_start :=
  (if bool_decide (x + pad_w < ext_w) then 0
   else (x + pad_w - ext_w) ÷ stride_w + 1).
Local Abbreviation w_stop := (Z.min ((x + pad_w) ÷ stride_w + 1) width_col).

Lemma h_range_spec :
  0 ≤ h_start ∧ h_stop ≤ height_col ∧
  ∀ h, 0 ≤ h < height_col →
       h_start ≤ h < h_stop ↔ 0 ≤ tap_h y h ≤ dilation_h * (kernel_h - 1).
Proof.
  destruct (col_range_spec (y + pad_h) ext_h stride_h height_col)
    as (H1 & H2 & H3); [lia..|].
  split_and!; [done..|]. intros h Hh. rewrite (H3 h Hh). unfold tap. lia.
Qed.

Lemma w_range_spec :
  0 ≤ w_start ∧ w_stop ≤ width_col ∧
  ∀ w, 0 ≤ w < width_col →
       w_start ≤ w < w_stop ↔ 0 ≤ tap_w x w ≤ dilation_w * (kernel_w - 1).
Proof.
  destruct (col_range_spec (x + pad_w) ext_w stride_w width_col)
    as (H1 & H2 & H3); [lia..|].
  split_and!; [done..|]. intros w Hw. rewrite (H3 w Hw). unfold tap. lia.
Qed.

(** The two loops of the body add up the sources in their order. *)
Lemma col2im_sum_eval :
  for_each (seqZ h_start (h_stop - h_start))
    (λ h, for_each (seqZ w_start (w_stop - w_start))
            (col2im_cell add kernel_h kernel_w stride_h stride_w dilation_h
               dilation_w height_col width_col data_col c (y + pad_h)
               (x + pad_w) h))
    zero
  = Some (sum_at data_col c y x).
Proof.
  destruct h_range_spec as (Hhs & Hhe & Hh).
  destruct w_range_spec as (Hws & Hwe & Hw).
  rewrite (for_each_foldl _ addq
             (λ h, seqZ w_start (w_stop - w_start) ≫= source_at h)).
  2:{ intros h s Hin%elem_of_seqZ.
      apply (for_each_foldl _ addq (source_at h)).
      intros w s' Hin'%elem_of_seqZ.
      apply col2im_cell_eval; [lia|lia|apply Hh; lia|apply Hw; lia]. }
  f_equal. unfold col2im_value, col2im_sources. f_equal.
  rewrite (bind_seqZ_restrict _ height_col h_start h_stop); [|done..|].
  - apply Forall_bind_ext, Forall_forall. intros h Hin%elem_of_seqZ.
    symmetry. apply bind_seqZ_restrict; [done..|].
    intros w Hw0 Hnot. rewrite bool_decide_eq_false_2; [done|].
    intros [_ Htw%is_tap_iff]; [|lia..]. apply Hnot, Hw; tauto.
  - intros h Hh0 Hnot. apply bind_nil_all. intros w _.
    rewrite bool_decide_eq_false_2; [done|].
    intros [Hth%is_tap_iff _]; [|lia..]. apply Hnot, Hh; tauto.
Qed.

(** The body of [col2im_kernel] at the index of the image cell of channel
    [c], row [y], column [x]: it is defined and stores the sum of the
    sources of that cell. *)
Lemma col2im_body_eval mem :
  Z.of_nat (length mem) = im_len →
  col2im_body zero add height width kernel_h kernel_w pad_h pad_w stride_h
    stride_w dilation_h dilation_w height_col width_col data_col
    (im_at c y x) mem
  = Some (<[Z.to_nat (im_at c y x) := sum_at data_col c y x]> mem).
Proof.
  intros Hmem.
  destruct padded_bounds as (Hph & Hpw & _).
  pose proof im_len_bound as Him.
  pose proof (im_offset_bounds c y x Hc Hy Hx) as Hoff.
  unfold im_offset in *.
  assert (0 ≤ c * height + y) as Hq.
  { assert (0 ≤ c * height) by (apply Z.mul_nonneg_nonneg; lia). lia. }
  pose proof (le_mul_r (c * height + y) width Hq ltac:(lia)) as Hq'.
  assert (0 ≤ width * height ≤ im_len) as Hwh.
  { split; [apply Z.mul_nonneg_nonneg; lia|].
    replace im_len with ((width * height) * channels) by ring.
    apply le_mul_r; [apply Z.mul_nonneg_nonneg; lia|lia]. }
  assert (idiv ((c * height + y) * width + x) (width * height) = Some c)
    as Hdivc.
  { replace ((c * height + y) * width + x)
      with (c * (width * height) + (y * width + x)) by ring.
    assert (0 ≤ y * width + x ≤ height * width - 1)
      by (apply radix_step; lia).
    apply idiv_radix; [lia|lia|].
    replace (c * (width * height) + (y * width + x))
      with ((c * height + y) * width + x) by ring.
    lia. }
  assert (0 ≤ (kernel_h - 1) * dilation_h) as Heh
    by (apply Z.mul_nonneg_nonneg; lia).
  assert (0 ≤ (kernel_w - 1) * dilation_w) as Hew
    by (apply Z.mul_nonneg_nonneg; lia).
  pose proof (le_mul_r (kernel_h - 1) dilation_h ltac:(lia) ltac:(lia)).
  pose proof (le_mul_r (kernel_w - 1) dilation_w ltac:(lia) ltac:(lia)).
  assert ((kernel_h - 1) * dilation_h = dilation_h * (kernel_h - 1)) as Heh'
    by ring.
  assert ((kernel_w - 1) * dilation_w = dilation_w * (kernel_w - 1)) as Hew'
    by ring.
  unfold col2im_body.
  rewrite irem_radix by lia. cbn [mbind option_bind].
  rewrite (iadd_Some x pad_w)
    by (unfold INT_MIN, INT_MAX in *; lia).
  cbn [mbind option_bind].
  rewrite idiv_radix by lia. cbn [mbind option_bind].
  rewrite irem_radix by lia. cbn [mbind option_bind].
  rewrite (iadd_Some y pad_h)
    by (unfold INT_MIN, INT_MAX in *; lia).
  cbn [mbind option_bind].
  rewrite (imul_Some width height)
    by (unfold INT_MIN, INT_MAX in *; lia).
  cbn [mbind option_bind]. rewrite Hdivc. cbn [mbind option_bind].
  rewrite (isub_Some kernel_w 1)
    by (unfold INT_MIN, INT_MAX in *; lia).
  cbn [mbind option_bind].
  rewrite (imul_Some (kernel_w - 1) dilation_w)
    by (unfold INT_MIN, INT_MAX in *; lia).
  cbn [mbind option_bind].
  rewrite (iadd_Some ((kernel_w - 1) * dilation_w) 1)
    by (unfold INT_MIN, INT_MAX in *; lia).
  cbn [mbind option_bind].
  rewrite (isub_Some kernel_h 1)
    by (unfold INT_MIN, INT_MAX in *; lia).
  cbn [mbind option_bind].
  rewrite (imul_Some (kernel_h - 1) dilation_h)
    by (unfold INT_MIN, INT_MAX in *; lia).
  cbn [mbind option_bind].
  rewrite (iadd_Some ((kernel_h - 1) * dilation_h) 1)
    by (unfold INT_MIN, INT_MAX in *; lia).
  cbn [mbind option_bind].
  rewrite (col_start_eval (x + pad_w)) by (unfold INT_MAX in *; lia).
  cbn [mbind option_bind].
  pose proof (quot_le (x + pad_w) stride_w ltac:(lia) ltac:(lia)) as Hqw.
  pose proof (quot_le (y + pad_h) stride_h ltac:(lia) ltac:(lia)) as Hqh.
  rewrite (idiv_Some (x + pad_w)) by (unfold INT_MAX in *; lia).
  cbn [mbind option_bind].
  rewrite (iadd_Some ((x + pad_w) ÷ stride_w) 1)
    by (unfold INT_MIN, INT_MAX in *; lia).
  cbn [mbind option_bind].
  rewrite (col_start_eval (y + pad_h)) by (unfold INT_MAX in *; lia).
  cbn [mbind option_bind].
  rewrite (idiv_Some (y + pad_h)) by (unfold INT_MAX in *; lia).
  cbn [mbind option_bind].
  rewrite (iadd_Some ((y + pad_h) ÷ stride_h) 1)
    by (unfold INT_MIN, INT_MAX in *; lia).
  cbn [mbind option_bind]. cbv zeta.
  rewrite col2im_sum_eval. cbn [mbind option_bind].
  apply store_Some. lia.
Qed.

End at_pixel.

Local Abbreviation col2im_write := (λ (data_col : list T) (index : Z),
  (index, sum_at data_col (index ÷ width ÷ height)
            (Z.rem (index ÷ width) height) (Z.rem index width))).
Local Abbreviation body' :=
  (col2im_body zero add height width kernel_h kernel_w pad_h pad_w stride_h
     stride_w dilation_h dilation_w height_col width_col).

Lemma im_index_encode c y x :
  0 ≤ c < channels → 0 ≤ y < height → 0 ≤ x < width →
  im_at c y x ÷ width ÷ height = c ∧
  Z.rem (im_at c y x ÷ width) height = y ∧
  Z.rem (im_at c y x) width = x.
Proof.
  intros Hc Hy Hx. unfold im_offset.
  assert (0 ≤ c * height) by (apply Z.mul_nonneg_nonneg; lia).
  by rewrite !quot_radix, !rem_radix by lia.
Qed.

Lemma col2im_indices_eval data_col (indices : list Z) mem :
  Z.of_nat (length data_col) = col_len →
  Z.of_nat (length mem) = im_len →
  Forall (λ index, 0 ≤ index < im_len) indices →
  for_each indices (body' data_col) mem
  = Some (scatter (col2im_write data_col <$> indices) mem).
Proof.
  intros Hcl Hmem Hall. revert mem Hmem.
  induction Hall as [|index indices Hindex _ IH]; intros mem Hmem; [done|].
  rewrite for_each_cons, fmap_cons, scatter_cons. cbn [fst snd].
  destruct (radix_decode channels height width index)
    as (Hc & Hy & Hx & Heq); [lia..|].
  pose proof (col2im_body_eval _ _ _ data_col Hc Hy Hx Hcl mem Hmem) as Hbody.
  unfold im_offset in Hbody. rewrite <- Heq in Hbody. rewrite Hbody.
  cbn [mbind option_bind]. apply IH. by rewrite length_insert.
Qed.

Lemma col2im_scatter_spec data_col (indices : list Z) mem :
  indices ≡ₚ seqZ 0 im_len →
  Z.of_nat (length mem) = im_len →
  ∀ c y x,
    0 ≤ c < channels → 0 ≤ y < height → 0 ≤ x < width →
    scatter (col2im_write data_col <$> indices) mem !! Z.to_nat (im_at c y x)
    = Some (sum_at data_col c y x).
Proof.
  intros Hperm Hmem c y x Hc Hy Hx.
  pose proof (im_offset_bounds c y x Hc Hy Hx) as Hoff.
  destruct (im_index_encode c y x Hc Hy Hx) as (Hc' & Hy' & Hx').
  apply scatter_lookup; [lia|lia| | |].
  - apply Forall_forall. intros [a v].
    intros (index & [= -> _] & Hindex)%list_elem_of_fmap.
    rewrite Hperm in Hindex. apply elem_of_seqZ in Hindex. simpl. lia.
  - apply list_elem_of_fmap. exists (im_at c y x).
    rewrite Hc', Hy', Hx'. split; [done|].
    rewrite Hperm. apply elem_of_seqZ. lia.
  - intros v' (index & [= <- ->] & _)%list_elem_of_fmap.
    by rewrite Hc', Hy', Hx'.
Qed.

Lemma col2im_out_unique data_col (out1 out2 : list T) :
  Z.of_nat (length out1) = im_len → Z.of_nat (length out2) = im_len →
  (∀ c y x,
     0 ≤ c < channels → 0 ≤ y < height → 0 ≤ x < width →
     out1 !! Z.to_nat (im_at c y x) = Some (sum_at data_col c y x) ∧
     out2 !! Z.to_nat (im_at c y x) = Some (sum_at data_col c y x)) →
  out1 = out2.
Proof.
  intros Hl1 Hl2 Hspec. apply list_eq. intros p.
  destruct (decide (Z.of_nat p < im_len)) as [Hp|Hp].
  - destruct (radix_decode channels height width (Z.of_nat p))
      as (Hc & Hy & Hx & Heq); [lia..|].
    destruct (Hspec _ _ _ Hc Hy Hx) as [H1 H2].
    unfold im_offset in H1, H2. rewrite <- Heq, Nat2Z.id in H1, H2.
    congruence.
  - rewrite !lookup_ge_None_2; [done|lia..].
Qed.

Lemma col2im_correct_gen fuel data_col data_im :
  Z.of_nat (length data_col) = col_len →
  Z.of_nat (length data_im) = im_len →
  im_len ≤ 2 ^ 30 →
  (2 ≤ fuel)%nat →
  ∃ out,
    col2im zero add height width kernel_h kernel_w pad_h pad_w stride_h
      stride_w dilation_h dilation_w fuel data_col channels data_im
      = Some out ∧
    Z.of_nat (length out) = im_len ∧
    (∀ c y x,
       0 ≤ c < channels → 0 ≤ y < height → 0 ≤ x < width →
       out !! Z.to_nat (im_at c y x) = Some (sum_at data_col c y x)) ∧
    (∀ g order,
       CUDA_GET_BLOCKS im_len = Some g →
       order ≡ₚ threads g CUDA_NUM_THREADS →
       launch order
         (λ th, col2im_kernel zero add height width kernel_h kernel_w pad_h
                  pad_w stride_h stride_w dilation_h dilation_w fuel th
                  im_len data_col height_col width_col)
         data_im = Some out).
Proof.
  intros Hcl Hmem Hn Hfuel.
  destruct padded_bounds as (Hph & Hpw & _).
  pose proof im_len_bound as Him.
  assert (0 ≤ channels * height) as Hch0
    by (apply Z.mul_nonneg_nonneg; lia).
  pose proof (le_mul_r (channels * height) width Hch0 ltac:(lia)) as Hch.
  destruct (KERNEL_RUN_parfor_gen (body' data_col) im_len fuel data_im)
    as [Hseq (g & Hg & Horder)]; [lia|done|].
  assert (∀ indices, indices ≡ₚ seqZ 0 im_len →
            Forall (λ index, 0 ≤ index < im_len) indices) as Hvalid.
  { intros indices Hperm. apply Forall_forall. intros index.
    rewrite Hperm, elem_of_seqZ. lia. }
  exists (scatter (col2im_write data_col <$> seqZ 0 im_len) data_im).
  split_and!.
  - unfold col2im.
    rewrite !col_size_out_size by lia. rewrite <- Hhc, <- Hwc.
    cbn [mbind option_bind].
    rewrite (imul_Some channels height)
      by (unfold INT_MIN, INT_MAX in *; lia).
    cbn [mbind option_bind].
    rewrite (imul_Some (channels * height) width)
      by (unfold INT_MIN, INT_MAX in *; lia).
    cbn [mbind option_bind]. unfold col2im_kernel.
    etrans; [exact Hseq|]. by apply col2im_indices_eval; [..|apply Hvalid].
  - by rewrite length_scatter.
  - by apply col2im_scatter_spec.
  - intros g' order Hg' Hperm. rewrite Hg in Hg'. injection Hg' as <-.
    destruct (Horder order Hperm) as [Hvis Hlaunch].
    unfold col2im_kernel. etrans; [exact Hlaunch|].
    rewrite col2im_indices_eval by (done || by apply Hvalid). f_equal.
    apply (col2im_out_unique data_col); [by rewrite length_scatter..|].
    intros c y x Hc Hy Hx.
    split; by apply col2im_scatter_spec.
Qed.

(** X18: col2im is defined and fills the image buffer. For the same
    geometries as above and at most 2^30 image cells, no [int] operation
    overflows, no access is out of bounds, and afterwards the image cell
    of channel [c], row [y], column [x] holds the sum, from zero and in
    the order of the kernel positions, of the column cells that are its
    sources. What the image buffer held before is overwritten, and the
    result is the same for the threads of the launch taken in any
    order. *)
Theorem col2im_correct fuel data_col data_im :
  Z.of_nat (length data_col) = col_len →
  Z.of_nat (length data_im) = im_len →
  im_len ≤ 2 ^ 30 →
  (2 ≤ fuel)%nat →
  ∃ out,
    col2im zero add height width kernel_h kernel_w pad_h pad_w stride_h
      stride_w dilation_h dilation_w fuel data_col channels data_im
      = Some out ∧
    Z.of_nat (length out) = im_len ∧
    (∀ c y x,
       0 ≤ c < channels → 0 ≤ y < height → 0 ≤ x < width →
       out !! Z.to_nat (im_at c y x) = Some (sum_at data_col c y x)) ∧
    (∀ g order,
       CUDA_GET_BLOCKS im_len = Some g →
       order ≡ₚ threads g CUDA_NUM_THREADS →
       launch order
         (λ th, col2im_kernel zero add height width kernel_h kernel_w pad_h
                  pad_w stride_h stride_w dilation_h dilation_w fuel th
                  im_len data_col height_col width_col)
         data_im = Some out).
Proof. apply col2im_correct_gen. Qed.

End im2col_facts.

(* ================================================================== *)
(** * The column cells over an image cell *)

Section col2im_sources_facts.
Variables (kernel_h kernel_w pad_h pad_w : Z).
Variables (stride_h stride_w dilation_h dilation_w : Z).
Variables (height_col width_col : Z).
Hypothesis Hkh : 0 < kernel_h.
Hypothesis Hkw : 0 < kernel_w.
Hypothesis Hdh : 0 < dilation_h.
Hypothesis Hdw : 0 < dilation_w.

Local Abbreviation col_at :=
  (col_offset kernel_h kernel_w height_col width_col).
Local Abbreviation tap_h := (tap pad_h stride_h).
Local Abbreviation tap_w := (tap pad_w stride_w).
Local Abbreviation is_tap_h := (is_tap kernel_h pad_h stride_h dilation_h).
Local Abbreviation is_tap_w := (is_tap kernel_w pad_w stride_w dilation_w).
Local Abbreviation sources :=
  (col2im_sources kernel_h kernel_w pad_h pad_w stride_h stride_w
     dilation_h dilation_w height_col width_col).

Lemma is_tap_index kernel pad stride dilation y p :
  0 < dilation → 0 < kernel →
  is_tap kernel pad stride dilation y p →
  0 ≤ tap pad stride y p ÷ dilation < kernel ∧
  y = p * stride - pad + tap pad stride y p ÷ dilation * dilation.
Proof.
  intros Hd Hk (Hk0 & Hrem & Hq).
  pose proof (quot_le _ dilation Hk0 Hd) as Hle.
  pose proof (Z.quot_rem' (tap pad stride y p) dilation) as Hqr.
  rewrite Hrem in Hqr. unfold tap in *. split; lia.
Qed.

Lemma is_tap_at kernel pad stride dilation p i :
  0 < dilation → 0 ≤ i < kernel →
  is_tap kernel pad stride dilation (p * stride - pad + i * dilation) p ∧
  tap pad stride (p * stride - pad + i * dilation) p ÷ dilation = i.
Proof.
  intros Hd Hi. unfold is_tap, tap.
  replace (p * stride - pad + i * dilation + pad - p * stride)
    with (i * dilation) by ring.
  rewrite Z.quot_mul, Z.rem_mul by lia.
  split_and!; [|done|lia|done]. apply Z.mul_nonneg_nonneg; lia.
Qed.

Lemma elem_of_col2im_sources c y x q :
  q ∈ sources c y x ↔
  ∃ h w, 0 ≤ h < height_col ∧ 0 ≤ w < width_col ∧
         is_tap_h y h ∧ is_tap_w x w ∧
         q = col_at c (tap_h y h ÷ dilation_h) (tap_w x w ÷ dilation_w) h w.
Proof.
  unfold col2im_sources. rewrite list_elem_of_bind. split.
  - intros (h & (w & Hin & Hw)%list_elem_of_bind & Hh).
    apply elem_of_seqZ in Hh, Hw. case_bool_decide as Htap; [|by inv Hin].
    apply list_elem_of_singleton in Hin. exists h, w.
    split_and!; (lia || tauto || done).
  - intros (h & w & Hh & Hw & Hth & Htw & ->). exists h.
    split; [|apply elem_of_seqZ; lia]. apply list_elem_of_bind. exists w.
    split; [|apply elem_of_seqZ; lia].
    rewrite bool_decide_eq_true_2 by done. by left.
Qed.

(** The sources of the image cell of channel [c], row [y], column [x]
    are distinct, each is the cell of a kernel tap [i], [j] at a kernel
    position [h], [w] of that channel, and such a cell is a source
    exactly when its tap lies over row [y] and column [x]. *)
Lemma col2im_sources_spec c y x :
  NoDup (sources c y x) ∧
  (∀ q, q ∈ sources c y x →
        ∃ i j h w, 0 ≤ i < kernel_h ∧ 0 ≤ j < kernel_w ∧
                   0 ≤ h < height_col ∧ 0 ≤ w < width_col ∧
                   q = col_at c i j h w) ∧
  (∀ c' i j h w,
     0 ≤ i < kernel_h → 0 ≤ j < kernel_w →
     0 ≤ h < height_col → 0 ≤ w < width_col →
     col_at c' i j h w ∈ sources c y x ↔
     c' = c ∧ y = h * stride_h - pad_h + i * dilation_h ∧
     x = w * stride_w - pad_w + j * dilation_w).
Proof.
  assert (∀ h w q, 0 ≤ h < height_col → 0 ≤ w < width_col →
            q ∈ (if bool_decide (is_tap_h y h ∧ is_tap_w x w)
                 then [col_at c (tap_h y h ÷ dilation_h)
                         (tap_w x w ÷ dilation_w) h w]
                 else []) →
            ∃ i j, 0 ≤ i < kernel_h ∧ 0 ≤ j < kernel_w ∧ q = col_at c i j h w)
    as Hcell.
  { intros h w q Hh Hw Hin. case_bool_decide as Htap; [|by inv Hin].
    apply list_elem_of_singleton in Hin as ->. destruct Htap as [Hth Htw].
    apply is_tap_index in Hth as [Hi _]; [|done..].
    apply is_tap_index in Htw as [Hj _]; [|done..]. eauto. }
  split_and!.
  - unfold col2im_sources. apply NoDup_bind; [| |apply NoDup_seqZ].
    + intros h1 h2 q Hh1%elem_of_seqZ Hh2%elem_of_seqZ.
      intros (w1 & Hq1 & Hw1%elem_of_seqZ)%list_elem_of_bind.
      intros (w2 & Hq2 & Hw2%elem_of_seqZ)%list_elem_of_bind.
      apply Hcell in Hq1 as (i1 & j1 & Hi1 & Hj1 & ->); [|lia..].
      apply Hcell in Hq2 as (i2 & j2 & Hi2 & Hj2 & Heq); [|lia..].
      apply col_offset_inj in Heq; [tauto|lia..].
    + intros h Hh%elem_of_seqZ. apply NoDup_bind; [| |apply NoDup_seqZ].
      * intros w1 w2 q Hw1%elem_of_seqZ Hw2%elem_of_seqZ Hq1 Hq2.
        apply Hcell in Hq1 as (i1 & j1 & Hi1 & Hj1 & ->); [|lia..].
        apply Hcell in Hq2 as (i2 & j2 & Hi2 & Hj2 & Heq); [|lia..].
        apply col_offset_inj in Heq; [tauto|lia..].
      * intros w _. case_bool_decide; [apply NoDup_singleton|apply NoDup_nil_2].
  - intros q (h & w & Hh & Hw & Hth & Htw & ->)%elem_of_col2im_sources.
    apply is_tap_index in Hth as [Hi _]; [|done..].
    apply is_tap_index in Htw as [Hj _]; [|done..].
    eexists _, _, h, w. done.
  - intros c' i j h w Hi Hj Hh Hw. rewrite elem_of_col2im_sources. split.
    + intros (h0 & w0 & Hh0 & Hw0 & Hth & Htw & Heq).
      apply is_tap_index in Hth as [Hi0 Hy]; [|done..].
      apply is_tap_index in Htw as [Hj0 Hx]; [|done..].
      apply col_offset_inj in Heq as (-> & -> & -> & -> & ->); [|lia..].
      done.
    + intros (-> & -> & ->). exists h, w.
      destruct (is_tap_at kernel_h pad_h stride_h dilation_h h i Hdh Hi)
        as [Hth ->].
      destruct (is_tap_at kernel_w pad_w stride_w dilation_w w j Hdw Hj)
        as [Htw ->].
      done.
Qed.

End col2im_sources_facts.

(* ================================================================== *)
(** * col2im after im2col *)

Section round_trip.
Import Cuda Im2col.
Context {T : Type} (zero : T) (add : T → T → T).
Variables (channels height width kernel_h kernel_w pad_h pad_w : Z).
Variables (stride_h stride_w dilation_h dilation_w : Z).
Variables (height_col width_col : Z).

Hypothesis Hpos :
  0 < channels ∧ 0 < height ∧ 0 < width ∧ 0 < kernel_h ∧ 0 < kernel_w ∧
  0 ≤ pad_h ∧ 0 ≤ pad_w ∧ 0 < stride_h ∧ 0 < stride_w ∧
  0 < dilation_h ∧ 0 < dilation_w.
Hypothesis Hfit_h : dilation_h * (kernel_h - 1) + 1 ≤ height + 2 * pad_h.
Hypothesis Hfit_w : dilation_w * (kernel_w - 1) + 1 ≤ width + 2 * pad_w.
Hypothesis Hhc :
  height_col = out_size height kernel_h pad_h stride_h dilation_h.
Hypothesis Hwc :
  width_col = out_size width kernel_w pad_w stride_w dilation_w.
Hypothesis Himg :
  (channels * height + 2 * pad_h + 1) * (width + 2 * pad_w) ≤ INT_MAX.
Hypothesis Hcol :
  channels * kernel_h * kernel_w * height_col * width_col ≤ INT_MAX.

Lemma foldl_ext_in {A B} (f g : A → B → A) (l : list B) (a : A) :
  (∀ b a, b ∈ l → f a b = g a b) → foldl f a l = foldl g a l.
Proof.
  revert a. induction l as [|b l IH]; intros a Hfg; [done|].
  simpl. rewrite Hfg by left. apply IH. intros b' a' Hb'. apply Hfg.
  by right.
Qed.

(** X21: col2im after im2col. With the column buffer that im2col has
    filled from an image, col2im returns at each image cell the value of
    that cell added to zero once for each of its sources, that is, once
    for each kernel tap and kernel position that lies over the cell. *)
Theorem col2im_im2col fuel data_im col0 im0 :
  Z.of_nat (length data_im) = channels * height * width →
  Z.of_nat (length col0)
    = channels * kernel_h * kernel_w * height_col * width_col →
  Z.of_nat (length im0) = channels * height * width →
  channels * height_col * width_col ≤ 2 ^ 30 →
  channels * height * width ≤ 2 ^ 30 →
  (2 ≤ fuel)%nat →
  ∃ col out,
    im2col zero height width kernel_h kernel_w pad_h pad_w stride_h stride_w
      dilation_h dilation_w fuel data_im channels col0 = Some col ∧
    col2im zero add height width kernel_h kernel_w pad_h pad_w stride_h
      stride_w dilation_h dilation_w fuel col channels im0 = Some out ∧
    ∀ c y x v,
      0 ≤ c < channels → 0 ≤ y < height → 0 ≤ x < width →
      data_im !! Z.to_nat (im_offset height width c y x) = Some v →
      out !! Z.to_nat (im_offset height width c y x)
      = Some (foldl (λ val _, add val v) zero
                (col2im_sources kernel_h kernel_w pad_h pad_w stride_h
                   stride_w dilation_h dilation_w height_col width_col
                   c y x)).
Proof.
  intros Him Hcol0 Him0 Hn Hn' Hfuel.
  destruct (im2col_correct_gen zero channels height width kernel_h kernel_w
              pad_h pad_w stride_h stride_w dilation_h dilation_w height_col
              width_col Hpos Hfit_h Hfit_w Hhc Hwc Himg Hcol fuel data_im col0
              Him Hcol0 Hn Hfuel)
    as (col & Hrun & Hlen & Hspec & _).
  destruct (col2im_correct_gen zero add channels height width kernel_h
              kernel_w pad_h pad_w stride_h stride_w dilation_h dilation_w
              height_col width_col Hpos Hfit_h Hfit_w Hhc Hwc Himg Hcol fuel
              col im0 Hlen Him0 Hn' Hfuel)
    as (out & Hrun' & _ & Hspec' & _).
  exists col, out. split_and!; [done..|].
  intros c y x v Hc Hy Hx Hv. rewrite Hspec' by done. f_equal.
  unfold col2im_value. apply foldl_ext_in. intros q val Hq. f_equal.
  destruct (col2im_sources_spec kernel_h kernel_w pad_h pad_w
              stride_h stride_w dilation_h dilation_w height_col width_col
              ltac:(lia) ltac:(lia) ltac:(lia) ltac:(lia) c y x)
    as (_ & Hcell & Hiff).
  destruct (Hcell q Hq) as (i & j & h & w & Hi & Hj & Hh & Hw & ->).
  apply Hiff in Hq as (_ & Hy' & Hx'); [|done..].
  rewrite (Hspec c i j h w) by done. simpl.
  unfold im2col_value, pixel. rewrite <- Hy', <- Hx'.
  rewrite bool_decide_eq_true_2 by lia. by rewrite Hv.
Qed.

End round_trip.

(* ================================================================== *)
(** * col2im as the transpose of im2col *)

Section transpose.
Import Cuda Im2col.
Variables (channels height width kernel_h kernel_w pad_h pad_w : Z).
Variables (stride_h stride_w dilation_h dilation_w : Z).
Variables (height_col width_col : Z).

Hypothesis Hpos :
  0 < channels ∧ 0 < height ∧ 0 < width ∧ 0 < kernel_h ∧ 0 < kernel_w ∧
  0 ≤ pad_h ∧ 0 ≤ pad_w ∧ 0 < stride_h ∧ 0 < stride_w ∧
  0 < dilation_h ∧ 0 < dilation_w.
Hypothesis Hfit_h : dilation_h * (kernel_h - 1) + 1 ≤ height + 2 * pad_h.
Hypothesis Hfit_w : dilation_w * (kernel_w - 1) + 1 ≤ width + 2 * pad_w.
Hypothesis Hhc :
  height_col = out_size height kernel_h pad_h stride_h dilation_h.
Hypothesis Hwc :
  width_col = out_size width kernel_w pad_w stride_w dilation_w.
Hypothesis Himg :
  (channels * height + 2 * pad_h + 1) * (width + 2 * pad_w) ≤ INT_MAX.
Hypothesis Hcol :
  channels * kernel_h * kernel_w * height_col * width_col ≤ INT_MAX.

Lemma foldl_snoc_id (l acc : list Z) :
  foldl (λ val q, val ++ [q]) acc l = acc ++ l.
Proof.
  revert acc. induction l as [|q l IH]; intros acc; simpl.
  - by rewrite app_nil_r.
  - by rewrite IH, <-app_assoc.
Qed.

Lemma tagged_image_lookup len p :
  0 ≤ p < len → tagged_image len !! Z.to_nat p = Some (p + 1).
Proof.
  intros Hp. unfold tagged_image. rewrite lookup_seqZ_lt by lia.
  f_equal. lia.
Qed.

Lemma tagged_columns_lookup len q :
  0 ≤ q < len → tagged_columns len !! Z.to_nat q = Some [q].
Proof.
  intros Hq. unfold tagged_columns.
  rewrite list_lookup_fmap, lookup_seqZ_lt by lia. simpl.
  do 2 f_equal. lia.
Qed.

Lemma im_offset_inj c y x c' y' x' :
  0 ≤ y < height → 0 ≤ x < width → 0 ≤ y' < height → 0 ≤ x' < width →
  im_offset height width c y x = im_offset height width c' y' x' →
  c = c' ∧ y = y' ∧ x = x'.
Proof.
  intros Hy Hx Hy' Hx'. unfold im_offset.
  intros [H1 ->]%radix_inj; [|done..].
  apply radix_inj in H1 as [-> ->]; done.
Qed.

(** X19: col2im is the transpose of im2col. The kernels are generic in
    the element type, its zero and its sum. Run on the tagged image,
    im2col leaves in each column cell the name of the image cell it has
    read for it, or 0 for the padding; run on the tagged columns, with
    concatenation for the sum, col2im leaves in each image cell the
    column cells it has added up for it. The two agree: the cells that
    col2im adds up for an image cell are pairwise distinct, and a column
    cell is among them exactly when im2col has filled it from that image
    cell. *)
Theorem col2im_transposes_im2col fuel :
  channels * height_col * width_col ≤ 2 ^ 30 →
  channels * height * width ≤ 2 ^ 30 →
  (2 ≤ fuel)%nat →
  let col_len := channels * kernel_h * kernel_w * height_col * width_col in
  let im_len := channels * height * width in
  ∃ col out,
    im2col 0 height width kernel_h kernel_w pad_h pad_w stride_h stride_w
      dilation_h dilation_w fuel (tagged_image im_len) channels
      (replicate (Z.to_nat col_len) 0) = Some col ∧
    col2im [] app height width kernel_h kernel_w pad_h pad_w stride_h
      stride_w dilation_h dilation_w fuel (tagged_columns col_len) channels
      (replicate (Z.to_nat im_len) []) = Some out ∧
    ∀ c y x,
      0 ≤ c < channels → 0 ≤ y < height → 0 ≤ x < width →
      ∃ added,
        out !! Z.to_nat (im_offset height width c y x) = Some added ∧
        NoDup added ∧
        ∀ q, 0 ≤ q < col_len →
             (q ∈ added ↔
              col !! Z.to_nat q = Some (im_offset height width c y x + 1)).
Proof.
  intros Hn Hn' Hfuel col_len im_len.
  assert (0 ≤ im_len) as Him_len.
  { unfold im_len. repeat apply Z.mul_nonneg_nonneg; lia. }
  destruct (height_col_bounds channels height width kernel_h kernel_w pad_h
              pad_w stride_h stride_w dilation_h dilation_w height_col
              Hpos Hfit_h Hhc) as [Hhc1 _].
  destruct (width_col_bounds channels height width kernel_h kernel_w pad_h
              pad_w stride_h stride_w dilation_h dilation_w width_col
              Hpos Hfit_w Hwc) as [Hwc1 _].
  assert (0 ≤ col_len) as Hcol_len.
  { unfold col_len. repeat apply Z.mul_nonneg_nonneg; lia. }
  destruct (im2col_correct_gen 0 channels height width kernel_h kernel_w
              pad_h pad_w stride_h stride_w dilation_h dilation_w height_col
              width_col Hpos Hfit_h Hfit_w Hhc Hwc Himg Hcol fuel
              (tagged_image im_len) (replicate (Z.to_nat col_len) 0))
    as (col & Hrun & _ & Hspec & _); [|by rewrite length_replicate; lia|done..|].
  { unfold tagged_image. rewrite length_seqZ. lia. }
  destruct (col2im_correct_gen [] app channels height width kernel_h
              kernel_w pad_h pad_w stride_h stride_w dilation_h dilation_w
              height_col width_col Hpos Hfit_h Hfit_w Hhc Hwc Himg Hcol fuel
              (tagged_columns col_len) (replicate (Z.to_nat im_len) []))
    as (out & Hrun' & _ & Hspec' & _); [|by rewrite length_replicate; lia|done..|].
  { unfold tagged_columns. rewrite length_fmap, length_seqZ. lia. }
  exists col, out. split_and!; [done..|].
  intros c y x Hc Hy Hx.
  destruct (col2im_sources_spec kernel_h kernel_w pad_h pad_w
              stride_h stride_w dilation_h dilation_w height_col width_col
              ltac:(lia) ltac:(lia) ltac:(lia) ltac:(lia) c y x)
    as (Hnd & Hcell & Hiff).
  exists (col2im_sources kernel_h kernel_w pad_h pad_w stride_h stride_w
            dilation_h dilation_w height_col width_col c y x).
  split_and!; [|done|].
  - rewrite Hspec' by done. f_equal. unfold col2im_value.
    etrans; [|apply (foldl_snoc_id _ [])].
    apply foldl_ext_in. intros q val Hq. f_equal.
    destruct (Hcell q Hq) as (i & j & h & w & Hi & Hj & Hh & Hw & ->).
    pose proof (col_offset_bounds channels kernel_h kernel_w height_col
                  width_col c i j h w Hc Hi Hj Hh Hw) as Hb.
    rewrite tagged_columns_lookup; [done|]. unfold col_len. lia.
  - intros q Hq.
    destruct (col_offset_surj channels height width kernel_h kernel_w pad_h
                pad_w stride_h stride_w dilation_h dilation_w height_col
                width_col Hpos Hfit_h Hfit_w Hhc Hwc q Hq)
      as (c' & i & j & h & w & Hc' & Hi & Hj & Hh & Hw & ->).
    rewrite Hiff, Hspec by done. unfold im2col_value, pixel.
    case_bool_decide as Hin.
    + pose proof (im_offset_bounds channels height width c' _ _ Hc'
                    (proj1 Hin) (proj2 Hin)) as Hb.
      rewrite tagged_image_lookup by (unfold im_len; lia). simpl.
      split.
      * by intros (-> & <- & <-).
      * intros [= Heq]. apply Z.add_cancel_r in Heq.
        apply im_offset_inj in Heq as (-> & <- & <-); tauto.
    + split.
      * intros (-> & -> & ->). tauto.
      * intros [= Heq].
        pose proof (im_offset_bounds channels height width c y x Hc Hy Hx).
        lia.
Qed.

End transpose.

(* ================================================================== *)
(** * Instances of the launch and of im2col *)

Section kernel_examples.
Import Cuda Im2col.

Lemma CUDA_GET_BLOCKS_ceil_witness :
  0 ≤ 1000 ≤ INT_MAX ∧
  (is_Some (CUDA_GET_BLOCKS 1000) ↔ 1000 ≤ INT_MAX - 512) ∧
  ∀ g, CUDA_GET_BLOCKS 1000 = Some g →
       0 ≤ g ∧ CUDA_NUM_THREADS * (g - 1) < 1000 ≤ CUDA_NUM_THREADS * g.
Proof.
  assert (0 ≤ 1000 ≤ INT_MAX) as Hn by (unfold INT_MAX; lia).
  split; [exact Hn|]. exact (CUDA_GET_BLOCKS_ceil 1000 Hn).
Defined.

Lemma KERNEL_RUN_parfor_witness :
  KERNEL_RUN (λ th, parfor 2 th 5 record_index) 5 [] = Some [0; 1; 2; 3; 4].
Proof.
  assert (0 ≤ 5 ≤ 2 ^ 30) as Hn by lia.
  assert (2 ≤ 2)%nat as Hfuel by lia.
  rewrite (proj1 (KERNEL_RUN_parfor record_index 5 2 [] Hn Hfuel)).
  vm_compute; reflexivity.
Defined.

Lemma parfor_wraps_witness :
  ∃ th i2,
    th ∈ threads 2097153 CUDA_NUM_THREADS ∧
    global_id th = 2 ^ 30 ∧
    i2 = -2147483136 ∧
    parfor 3 th (2 ^ 30 + 1) record_index [] =
      parfor_loop 1 th (2 ^ 30 + 1) record_index
        (to_int (uint (uint i2 + uint (CUDA_NUM_THREADS * 2097153))))
        [2 ^ 30; i2].
Proof.
  assert (2 ^ 30 < 2 ^ 30 + 1 ≤ INT_MAX - 512) as Hn
    by (unfold INT_MAX; lia).
  assert (CUDA_GET_BLOCKS (2 ^ 30 + 1) = Some 2097153) as Hg
    by (vm_compute; reflexivity).
  destruct (parfor_wraps record_index (2 ^ 30 + 1) 2097153 1 [] Hn Hg)
    as (th & i2 & Hth & Hid & Hi2 & _ & Hrun).
  exists th, i2. split_and!;
    [done|rewrite Hid; lia|rewrite Hi2; unfold CUDA_NUM_THREADS; lia|].
  rewrite Hrun. unfold record_index. simpl.
  by replace (2 ^ 30 + 1 - 1) with (2 ^ 30) by lia.
Defined.

Lemma im2col_correct_witness :
  ∃ out,
    im2col 0 3 3 2 2 1 1 2 2 1 1 2 example_image 1 (replicate 16 0)
      = Some out ∧
    Z.of_nat (length out) = 16 ∧
    out !! Z.to_nat (col_offset 2 2 2 2 0 0 1 1 0)
      = Some (im2col_value 0 3 3 1 1 2 2 1 1 example_image 0 0 1 1 0).
Proof.
  destruct (im2col_correct 0 1 3 3 2 2 1 1 2 2 1 1 2 2) with
    (fuel := 2%nat) (data_im := example_image) (data_col := replicate 16 0)
    as (out & Hout & Hlen & Hspec & _).
  - lia.
  - lia.
  - lia.
  - vm_compute; reflexivity.
  - vm_compute; reflexivity.
  - unfold INT_MAX; lia.
  - unfold INT_MAX; lia.
  - vm_compute; reflexivity.
  - vm_compute; reflexivity.
  - lia.
  - lia.
  - exists out. split_and!; [exact Hout|exact Hlen|].
    apply Hspec; lia.
Defined.

Lemma col2im_correct_witness :
  ∃ out,
    col2im 0 Z.add 3 3 2 2 1 1 2 2 1 1 2 example_columns 1 (replicate 9 0)
      = Some out ∧
    Z.of_nat (length out) = 9 ∧
    out !! Z.to_nat (im_offset 3 3 0 1 1)
      = Some (col2im_value 0 Z.add 2 2 1 1 2 2 1 1 2 2 example_columns 0 1 1).
Proof.
  destruct (col2im_correct 0 Z.add 1 3 3 2 2 1 1 2 2 1 1 2 2) with
    (fuel := 2%nat) (data_col := example_columns) (data_im := replicate 9 0)
    as (out & Hout & Hlen & Hspec & _).
  - lia.
  - lia.
  - lia.
  - vm_compute; reflexivity.
  - vm_compute; reflexivity.
  - unfold INT_MAX; lia.
  - unfold INT_MAX; lia.
  - vm_compute; reflexivity.
  - vm_compute; reflexivity.
  - lia.
  - lia.
  - exists out. split_and!; [exact Hout|exact Hlen|].
    apply Hspec; lia.
Defined.

Lemma col2im_transposes_im2col_witness :
  ∃ col out,
    im2col 0 3 3 2 2 1 1 2 2 1 1 2 (tagged_image 9) 1 (replicate 16 0)
      = Some col ∧
    col2im [] app 3 3 2 2 1 1 2 2 1 1 2 (tagged_columns 16) 1
      (replicate 9 []) = Some out ∧
    ∃ added,
      out !! Z.to_nat (im_offset 3 3 0 1 1) = Some added ∧
      NoDup added ∧
      (col_offset 2 2 2 2 0 0 0 1 1 ∈ added ↔
       col !! Z.to_nat (col_offset 2 2 2 2 0 0 0 1 1)
         = Some (im_offset 3 3 0 1 1 + 1)).
Proof.
  destruct (col2im_transposes_im2col 1 3 3 2 2 1 1 2 2 1 1 2 2) with
    (fuel := 2%nat) as (col & out & Hcol & Hout & Hspec).
  - lia.
  - lia.
  - lia.
  - vm_compute; reflexivity.
  - vm_compute; reflexivity.
  - unfold INT_MAX; lia.
  - unfold INT_MAX; lia.
  - lia.
  - lia.
  - lia.
  - exists col, out. split_and!; [exact Hcol|exact Hout|].
    destruct (Hspec 0 1 1) as (added & Hadded & Hnd & Hiff); [lia..|].
    exists added. split_and!; [exact Hadded|exact Hnd|].
    apply Hiff. vm_compute. split; [discriminate|reflexivity].
Defined.

Lemma col_size_truncates_witness : col_size 2 3 0 2 1 = Some 1.
Proof.
  destruct (col_size_truncates 2 3 0 2 1) as (o & Ho & _ & Hone & _);
    [unfold INT_MAX; lia..|].
  rewrite Ho. f_equal. apply Hone. lia.
Defined.

Lemma col2im_im2col_witness :
  ∃ col out,
    im2col 0 3 3 2 2 1 1 2 2 1 1 2 example_image 1 (replicate 16 0)
      = Some col ∧
    col2im 0 Z.add 3 3 2 2 1 1 2 2 1 1 2 col 1 (replicate 9 0) = Some out ∧
    out !! Z.to_nat (im_offset 3 3 0 1 1)
      = Some (foldl (λ val _, val + 5) 0
                (col2im_sources 2 2 1 1 2 2 1 1 2 2 0 1 1)).
Proof.
  destruct (col2im_im2col 0 Z.add 1 3 3 2 2 1 1 2 2 1 1 2 2) with
    (fuel := 2%nat) (data_im := example_image) (col0 := replicate 16 0)
    (im0 := replicate 9 0)
    as (col & out & Hcol & Hout & Hspec).
  - lia.
  - lia.
  - lia.
  - vm_compute; reflexivity.
  - vm_compute; reflexivity.
  - unfold INT_MAX; lia.
  - unfold INT_MAX; lia.
  - vm_compute; reflexivity.
  - vm_compute; reflexivity.
  - vm_compute; reflexivity.
  - lia.
  - lia.
  - lia.
  - exists col, out. split_and!; [exact Hcol|exact Hout|].
    apply Hspec; [lia..|]. vm_compute; reflexivity.
Defined.

End kernel_examples.
